(** * MetodosNumericos: interpolation, quadrature and finite differences

    A shallow embedding of the package [metodos] (modules
    [interpolacion], [integracion], [derivacion]) and the properties
    its specification states about it.

    Numbers.  Python floats are modelled by exact rationals ([Q]); the
    special values NaN and +/-Inf, which the code tests for explicitly,
    are added on top in [pyfloat].  Rounding and overflow are therefore
    outside the model; every equation between computed numbers is stated
    up to [Qeq] unless the two sides are the same sequence of operations.

    Exceptions.  A Python call either returns or raises: [result A].
    The text of every [raise] of the source is kept as data: the
    template of the f-string and the values interpolated into it. *)

From Stdlib Require Import QArith Qabs ZArith String Ascii Bool List.
From Stdlib Require Import Lia Lqa Permutation Morphisms Setoid.
From Stdlib Require Import Arith PeanoNat.
Import ListNotations.

Open Scope Q_scope.

(* ================================================================== *)
(** * Python runtime: exceptions, floats, sequences                    *)
(* ================================================================== *)

(** Floats: a finite value or one of the IEEE specials. *)
Inductive pyfloat : Type :=
| Fin (q : Q)
| PInf
| NInf
| NaN.

(** Exceptions.  The text of a [ValueError] is an f-string: its template
    as written in the source and the values interpolated into it, in
    the order of their appearance. *)
Inductive exn : Type :=
| ValueError (text : fstring)
| ZeroDivisionError
| IndexError
| UnboundLocalError (name : string)
| LinAlgError
    (* raised by numpy.linalg.solve *)
| External (e : string)
    (* raised inside sympy or inside the lambdified function; [e] is str(e) *)
with fstring : Type :=
| FString (template : string) (args : list value)
with value : Type :=
| VFloat (v : pyfloat)
| VInt (n : Z)
| VStr (s : string)
| VExn (e : exn).
    (* str(e) *)

Definition vnat (n : nat) : value := VInt (Z.of_nat n).

(** Which of the three finite-difference routines wrapped an error. *)
Inductive diff_method : Type := Adelante | Atras | Centrada.

(** ** The messages of interpolacion.py *)

Definition MsgListsEmpty : fstring :=
  FString "Las listas x e y no pueden estar vacías" [].
Definition MsgLengthMismatch (lx ly : nat) : fstring :=
  FString "x y y deben tener la misma longitud. x: {len(x)}, y: {len(y)}"
          [vnat lx; vnat ly].
Definition MsgTooFewPoints : fstring :=
  FString "Se requieren al menos 2 puntos para interpolación" [].
Definition MsgDuplicateX : fstring :=
  FString "Los valores de x deben ser únicos (no duplicados)" [].
Definition MsgInvalidX (i : nat) (val : pyfloat) : fstring :=
  FString "x[{i}] = {val} no es un número válido" [vnat i; VFloat val].
Definition MsgInvalidY (i : nat) (val : pyfloat) : fstring :=
  FString "y[{i}] = {val} no es un número válido" [vnat i; VFloat val].
Definition MsgEmptyXq : fstring :=
  FString "xq no puede estar vacío" [].
Definition MsgDivZeroNewton (hi lo : nat) : fstring :=
  FString "División por cero en diferencias divididas: x[{i+j}] ≈ x[{i}]"
          [vnat hi; vnat lo].
Definition MsgNodesCoeffLen : fstring :=
  FString "x_nodes y coefficients deben tener la misma longitud" [].
Definition MsgDivZeroLagrange (i j : nat) : fstring :=
  FString "División por cero en Lagrange: x[{i}] ≈ x[{j}]" [vnat i; vnat j].

(** ** The messages of [_parse_function] (integracion.py, derivacion.py) *)

Definition MsgEmptyFunction : fstring :=
  FString "La función no puede estar vacía" [].
Definition MsgNotNumeric : fstring :=
  FString "La función no devuelve valores numéricos válidos" [].
Definition MsgParseError (func_str : string) (e : exn) : fstring :=
  FString "Error al parsear la función '{func_str}': {str(e)}"
          [VStr func_str; VExn e].

(** ** The messages of integracion.py *)

Definition MsgInvalidA (a : pyfloat) : fstring :=
  FString "Límite inferior 'a' no válido: {a}" [VFloat a].
Definition MsgInvalidB (b : pyfloat) : fstring :=
  FString "Límite superior 'b' no válido: {b}" [VFloat b].
Definition MsgLimitsOrder (a b : pyfloat) : fstring :=
  FString "El límite inferior debe ser menor al superior: {a} >= {b}"
          [VFloat a; VFloat b].
Definition MsgNNotPositive (n : Z) : fstring :=
  FString "Número de subdivisiones debe ser entero positivo: {n}" [VInt n].
Definition MsgNTooLarge (n : Z) : fstring :=
  FString "Número de subdivisiones demasiado grande: {n} > 10000" [VInt n].

(** ** The messages of derivacion.py *)

Definition MsgInvalidPoint (x : pyfloat) : fstring :=
  FString "Punto de evaluación 'x' no válido: {x}" [VFloat x].
Definition MsgStepNotPositive (h : pyfloat) : fstring :=
  FString "Paso 'h' debe ser positivo: {h}" [VFloat h].
Definition MsgStepTooLarge (h : pyfloat) : fstring :=
  FString "Paso 'h' demasiado grande, puede causar errores: {h}" [VFloat h].
Definition MsgStepTooSmall (h : pyfloat) : fstring :=
  FString "Paso 'h' demasiado pequeño, puede causar errores numéricos: {h}"
          [VFloat h].
Definition MsgInvalidOrder (order : Z) : fstring :=
  FString "Orden de derivada debe ser 1, 2, 3 o 4: {order}" [VInt order].
Definition MsgNonFinite (derivative : pyfloat) : fstring :=
  FString "El cálculo resultó en {derivative}. Intenta con un h diferente."
          [VFloat derivative].
Definition MsgDerivError (m : diff_method) (e : exn) : fstring :=
  match m with
  | Adelante =>
      FString "Error al calcular derivada hacia adelante: {str(e)}" [VExn e]
  | Atras =>
      FString "Error al calcular derivada hacia atrás: {str(e)}" [VExn e]
  | Centrada =>
      FString "Error al calcular derivada centrada: {str(e)}" [VExn e]
  end.

Definition MsgCompareError (e : exn) : fstring :=
  FString "Error en comparación de métodos: {str(e)}" [VExn e].

(** A call returns a value or raises. *)
Inductive result (A : Type) : Type :=
| Ok (a : A)
| Err (e : exn).

Arguments Ok {A} a.
Arguments Err {A} e.

Definition bind {A B : Type} (c : result A) (k : A -> result B) : result B :=
  match c with
  | Ok a => k a
  | Err e => Err e
  end.

Declare Scope py_scope.
Delimit Scope py_scope with py.
Notation "x <- c ;; k" := (bind c (fun x => k))
  (at level 61, c at next level, right associativity) : py_scope.
Notation "c ;; k" := (bind c (fun _ => k))
  (at level 61, right associativity) : py_scope.
Open Scope py_scope.

(** [try: body except Exception as e: raise handler(e)] *)
Definition try_except {A : Type} (body : result A) (handler : exn -> exn) : result A :=
  match body with
  | Ok a => Ok a
  | Err e => Err (handler e)
  end.

(** [for i in idxs: s = body(i, s)], stopping at the first exception. *)
Fixpoint for_each {I S : Type} (idxs : list I) (s : S) (body : I -> S -> result S)
  : result S :=
  match idxs with
  | [] => Ok s
  | i :: rest => s' <- body i s ;; for_each rest s' body
  end.

(** [range(n)], [range(a, b)] and [range(hi, -1, -1)]. *)
Definition range (n : nat) : list nat := seq 0 n.
Definition range2 (a b : nat) : list nat := seq a (b - a).
(** [range(n - 2, -1, -1)]: n-2, n-3, ..., 0; empty when n < 2. *)
Definition range_down_from_nm2 (n : nat) : list nat := rev (seq 0 (n - 1)).

(** [l[i]] for a non-negative index. *)
Definition getitem {A : Type} (l : list A) (i : nat) : result A :=
  match nth_error l i with
  | Some a => Ok a
  | None => Err IndexError
  end.

(** [l[-k]] for k >= 1. *)
Definition getitem_neg {A : Type} (l : list A) (k : nat) : result A :=
  if (k <=? length l)%nat then getitem l (length l - k) else Err IndexError.

(** [a / b] on Python floats: division by zero raises. *)
Definition py_div (a b : Q) : result Q :=
  if Qeq_bool b 0 then Err ZeroDivisionError else Ok (a / b).

Definition Qlt_bool (a b : Q) : bool := negb (Qle_bool b a).

(** ** Arithmetic and tests on floats with specials *)

Definition np_isnan (v : pyfloat) : bool :=
  match v with NaN => true | _ => false end.

Definition np_isinf (v : pyfloat) : bool :=
  match v with PInf | NInf => true | _ => false end.

Definition fneg (a : pyfloat) : pyfloat :=
  match a with
  | Fin q => Fin (- q)
  | PInf => NInf
  | NInf => PInf
  | NaN => NaN
  end.

Definition fadd (a b : pyfloat) : pyfloat :=
  match a, b with
  | NaN, _ | _, NaN => NaN
  | Fin p, Fin q => Fin (p + q)
  | PInf, NInf | NInf, PInf => NaN
  | PInf, _ | _, PInf => PInf
  | NInf, _ | _, NInf => NInf
  end.

Definition fsub (a b : pyfloat) : pyfloat := fadd a (fneg b).

(** Sign of an infinite product or quotient: [pos] times the sign of [q]. *)
Definition signed_inf (pos : bool) (q : Q) : pyfloat :=
  match Qcompare q 0 with
  | Eq => NaN
  | Gt => if pos then PInf else NInf
  | Lt => if pos then NInf else PInf
  end.

Definition fmul (a b : pyfloat) : pyfloat :=
  match a, b with
  | NaN, _ | _, NaN => NaN
  | Fin p, Fin q => Fin (p * q)
  | Fin p, PInf | PInf, Fin p => signed_inf true p
  | Fin p, NInf | NInf, Fin p => signed_inf false p
  | PInf, PInf | NInf, NInf => PInf
  | PInf, NInf | NInf, PInf => NInf
  end.

(** Division as numpy performs it (no exception on a zero divisor); the
    package only divides function values by non-zero constants. *)
Definition fdiv (a b : pyfloat) : pyfloat :=
  match a, b with
  | NaN, _ | _, NaN => NaN
  | Fin p, Fin q => if Qeq_bool q 0 then signed_inf true p else Fin (p / q)
  | Fin _, _ => Fin 0
  | PInf, Fin q => if Qeq_bool q 0 then PInf else signed_inf true q
  | NInf, Fin q => if Qeq_bool q 0 then NInf else signed_inf false q
  | _, _ => NaN
  end.

(** Comparisons: false as soon as one side is NaN. *)
Definition fle (a b : pyfloat) : bool :=
  match a, b with
  | NaN, _ | _, NaN => false
  | Fin p, Fin q => Qle_bool p q
  | NInf, _ => true
  | _, PInf => true
  | _, _ => false
  end.

Definition flt (a b : pyfloat) : bool :=
  match a, b with
  | NaN, _ | _, NaN => false
  | Fin p, Fin q => Qlt_bool p q
  | PInf, _ => false
  | _, NInf => false
  | _, _ => true
  end.

Definition fge (a b : pyfloat) : bool := fle b a.
Definition fgt (a b : pyfloat) : bool := flt b a.

(** [abs] *)
Definition fabs (a : pyfloat) : pyfloat :=
  match a with
  | Fin q => Fin (Qabs q)
  | PInf | NInf => PInf
  | NaN => NaN
  end.

Definition is_finite (a : pyfloat) : bool :=
  match a with Fin _ => true | _ => false end.

Arguments fneg !a : simpl nomatch.
Arguments fadd !a !b : simpl nomatch.
Arguments fsub !a !b : simpl nomatch.
Arguments fmul !a !b : simpl nomatch.
Arguments fdiv !a !b : simpl nomatch.

(* ================================================================== *)
(** * interpolacion.py                                                 *)
(* ================================================================== *)

Module Interpolacion.

(** [len(set(x))]: the distinct values of [x]. *)
Fixpoint py_set (l : list Q) : list Q :=
  match l with
  | [] => []
  | a :: t => if existsb (Qeq_bool a) t then py_set t else a :: py_set t
  end.

(** The loops [for i, val in enumerate(x): if ... isnan(val) or isinf(val)].
    List items are finite rationals, embedded in the floats by [Fin]. *)
Fixpoint check_numbers (mk : nat -> pyfloat -> fstring) (i : nat) (l : list Q)
  : result unit :=
  match l with
  | [] => Ok tt
  | val :: rest =>
      if np_isnan (Fin val) || np_isinf (Fin val)
      then Err (ValueError (mk i (Fin val)))
      else check_numbers mk (S i) rest
  end.

Definition _validate_input (x y : list Q) : result unit :=
  if (length x =? 0)%nat || (length y =? 0)%nat then
    Err (ValueError MsgListsEmpty)
  else if negb (length x =? length y)%nat then
    Err (ValueError (MsgLengthMismatch (length x) (length y)))
  else if (length x <? 2)%nat then
    Err (ValueError MsgTooFewPoints)
  else if negb (length (py_set x) =? length x)%nat then
    Err (ValueError MsgDuplicateX)
  else
    check_numbers MsgInvalidX 0 x ;;
    check_numbers MsgInvalidY 0 y.

(** [paired.sort(key=lambda point: point[0])]: a stable sort on the first
    component. *)
Fixpoint insert_by_key (p : Q * Q) (l : list (Q * Q)) : list (Q * Q) :=
  match l with
  | [] => [p]
  | q :: t =>
      if Qle_bool (fst p) (fst q) then p :: q :: t else q :: insert_by_key p t
  end.

Definition sort_by_key (l : list (Q * Q)) : list (Q * Q) :=
  fold_right insert_by_key [] l.

Definition _sort_points (x y : list Q) : list Q * list Q :=
  let paired := sort_by_key (combine x y) in
  (map fst paired, map snd paired).

(** ** Piecewise-linear interpolation *)

(** The inner [for i in range(len(x_sorted) - 1)] with its [break]:
    [Some yi] when a segment brackets [xi], [None] when the loop ends
    without assigning [yi]. *)
Fixpoint find_segment (x_sorted y_sorted : list Q) (xi : Q) (idxs : list nat)
  : result (option Q) :=
  match idxs with
  | [] => Ok None
  | i :: rest =>
      lo <- getitem x_sorted i ;;
      if Qle_bool lo xi then
        hi <- getitem x_sorted (i + 1) ;;
        if Qle_bool xi hi then
          t <- py_div (xi - lo) (hi - lo) ;;
          yl <- getitem y_sorted i ;;
          yh <- getitem y_sorted (i + 1) ;;
          Ok (Some ((1 - t) * yl + t * yh))
        else find_segment x_sorted y_sorted xi rest
      else find_segment x_sorted y_sorted xi rest
  end.

(** One iteration of [for xi in xq]; [yi] is the local variable, which
    survives from one iteration to the next. *)
Definition linear_step (x_sorted y_sorted : list Q) (xi : Q) (yi : option Q)
  : result (option Q) :=
  x0 <- getitem x_sorted 0 ;;
  xlast <- getitem_neg x_sorted 1 ;;
  if Qlt_bool xi x0 || Qlt_bool xlast xi then
    if Qlt_bool xi x0 then
      y1 <- getitem y_sorted 1 ;;
      y0 <- getitem y_sorted 0 ;;
      x1 <- getitem x_sorted 1 ;;
      slope <- py_div (y1 - y0) (x1 - x0) ;;
      Ok (Some (y0 + slope * (xi - x0)))
    else
      yl <- getitem_neg y_sorted 1 ;;
      yl2 <- getitem_neg y_sorted 2 ;;
      xl2 <- getitem_neg x_sorted 2 ;;
      slope <- py_div (yl - yl2) (xlast - xl2) ;;
      Ok (Some (yl + slope * (xi - xlast)))
  else
    found <- find_segment x_sorted y_sorted xi (range (length x_sorted - 1)) ;;
    match found with
    | Some v => Ok (Some v)
    | None => Ok yi
    end.

Fixpoint linear_loop (x_sorted y_sorted : list Q) (xq : list Q)
  (yi : option Q) (res : list Q) : result (list Q) :=
  match xq with
  | [] => Ok res
  | xi :: rest =>
      yi' <- linear_step x_sorted y_sorted xi yi ;;
      match yi' with
      | None => Err (UnboundLocalError "yi")
      | Some v => linear_loop x_sorted y_sorted rest yi' (res ++ [v])
      end
  end.

Definition linear_interpolate (x y xq : list Q) : result (list Q) :=
  _validate_input x y ;;
  let '(x_sorted, y_sorted) := _sort_points x y in
  if (length xq =? 0)%nat then Err (ValueError MsgEmptyXq)
  else linear_loop x_sorted y_sorted xq None [].

(** ** Newton polynomial *)

(** The guard [abs(denominator) < 1e-15]. *)
Definition eps15 : Q := 1e-15.

Definition near_zero (d : Q) : bool := Qlt_bool (Qabs d) eps15.

(** [F[i][j]] and [F[i][j] = v] on a list of rows. *)
Definition get2 (F : list (list Q)) (i j : nat) : result Q :=
  row <- getitem F i ;; getitem row j.

Fixpoint set_nth {A : Type} (l : list A) (i : nat) (v : A) : result (list A) :=
  match l, i with
  | [], _ => Err IndexError
  | _ :: t, O => Ok (v :: t)
  | a :: t, S i' => t' <- set_nth t i' v ;; Ok (a :: t')
  end.

Definition set2 (F : list (list Q)) (i j : nat) (v : Q) : result (list (list Q)) :=
  row <- getitem F i ;;
  row' <- set_nth row j v ;;
  set_nth F i row'.

(** [F[i][0] = y_sorted[i]] *)
Definition newton_init (y_sorted : list Q) (i : nat) (F : list (list Q))
  : result (list (list Q)) :=
  yi <- getitem y_sorted i ;; set2 F i 0 yi.

(** The body of the inner loop: the guard and the assignment of [F[i][j]]. *)
Definition newton_cell (x_sorted : list Q) (j i : nat) (F : list (list Q))
  : result (list (list Q)) :=
  xhi <- getitem x_sorted (i + j) ;;
  xlo <- getitem x_sorted i ;;
  let denominator := xhi - xlo in
  if near_zero denominator then
    Err (ValueError (MsgDivZeroNewton (i + j) i))
  else
    a <- get2 F (i + 1) (j - 1) ;;
    b <- get2 F i (j - 1) ;;
    v <- py_div (a - b) denominator ;;
    set2 F i j v.

(** [for i in range(n - j)]: column [j] of the table. *)
Definition newton_column (x_sorted : list Q) (n j : nat) (F : list (list Q))
  : result (list (list Q)) :=
  for_each (range (n - j)) F (newton_cell x_sorted j).

Definition newton_divided_diffs (x y : list Q) : result (list Q * list Q) :=
  _validate_input x y ;;
  let '(x_sorted, y_sorted) := _sort_points x y in
  let n := length x_sorted in
  let F0 := repeat (repeat 0 n) n in
  F1 <- for_each (range n) F0 (newton_init y_sorted) ;;
  F2 <- for_each (range2 1 n) F1 (newton_column x_sorted n) ;;
  coefficients <- for_each (range n) [] (fun j acc =>
          c <- get2 F2 0 j ;; Ok (acc ++ [c])) ;;
  Ok (x_sorted, coefficients).

(** The body of [for xi in xq] in [eval_newton_poly]. *)
Definition newton_value (x_nodes coefficients : list Q) (xi : Q) : result Q :=
  let n := length coefficients in
  value <- getitem_neg coefficients 1 ;;
  for_each (range_down_from_nm2 n) value (fun i value =>
    xn <- getitem x_nodes i ;;
    c <- getitem coefficients i ;;
    Ok (value * (xi - xn) + c)).

Definition eval_newton_poly (x_nodes coefficients xq : list Q) : result (list Q) :=
  if negb (length x_nodes =? length coefficients)%nat then
    Err (ValueError MsgNodesCoeffLen)
  else
    for_each xq [] (fun xi res =>
      value <- newton_value x_nodes coefficients xi ;;
      Ok (res ++ [value])).

(** ** Lagrange polynomial *)

(** The body of [for j in range(n)]: one factor of [li]. *)
Definition lagrange_factor (x : list Q) (xi : Q) (i j : nat) (li : Q) : result Q :=
  if negb (i =? j)%nat then
    a <- getitem x i ;;
    b <- getitem x j ;;
    let denominator := a - b in
    if near_zero denominator then
      Err (ValueError (MsgDivZeroLagrange i j))
    else
      xj <- getitem x j ;;
      f <- py_div (xi - xj) denominator ;;
      Ok (li * f)
  else Ok li.

Definition lagrange_li (x : list Q) (n : nat) (xi : Q) (i : nat) : result Q :=
  for_each (range n) 1 (lagrange_factor x xi i).

(** The body of [for i in range(n)]: one term of [total]. *)
Definition lagrange_term (x y : list Q) (n : nat) (xi : Q) (i : nat) (total : Q)
  : result Q :=
  li <- lagrange_li x n xi i ;;
  yi <- getitem y i ;;
  Ok (total + yi * li).

Definition lagrange_value (x y : list Q) (n : nat) (xi : Q) : result Q :=
  for_each (range n) 0 (lagrange_term x y n xi).

Definition lagrange_interpolate (x y xq : list Q) : result (list Q) :=
  _validate_input x y ;;
  let n := length x in
  for_each xq [] (fun xi res =>
    total <- lagrange_value x y n xi ;;
    Ok (res ++ [total])).


(** ** Natural cubic spline *)

Section Spline.

(** [numpy.linalg.solve]: returns the solution vector or raises
    [LinAlgError]. *)
Variable np_linalg_solve : list (list Q) -> list Q -> result (list Q).

(** One iteration of [for i in range(n - 2)] that fills [A] and [b]. *)
Definition spline_row (n : nat) (h y_sorted : list Q) (i : nat)
  (Ab : list (list Q) * list Q) : result (list (list Q) * list Q) :=
  let '(A, b) := Ab in
  A1 <- (if (0 <? i)%nat then hi <- getitem h i ;; set2 A i (i - 1) hi
         else Ok A) ;;
  hi <- getitem h i ;;
  hi1 <- getitem h (i + 1) ;;
  A2 <- set2 A1 i i (2 * (hi + hi1)) ;;
  A3 <- (if (i <? n - 3)%nat then hi1 <- getitem h (i + 1) ;; set2 A2 i (i + 1) hi1
         else Ok A2) ;;
  y2 <- getitem y_sorted (i + 2) ;;
  y1 <- getitem y_sorted (i + 1) ;;
  hi1 <- getitem h (i + 1) ;;
  d1 <- py_div (y2 - y1) hi1 ;;
  y1 <- getitem y_sorted (i + 1) ;;
  y0 <- getitem y_sorted i ;;
  hi <- getitem h i ;;
  d0 <- py_div (y1 - y0) hi ;;
  b' <- set_nth b i (6 * (d1 - d0)) ;;
  Ok (A3, b').

(** [second_derivs = np.zeros(n); second_derivs[1:-1] = inner] *)
Definition assign_inner (n : nat) (inner : list Q) : result (list Q) :=
  if (length inner =? n - 2)%nat then Ok (0 :: inner ++ [0])
  else Err (External "could not broadcast input array").

(** The inner [for i in range(n - 1)] of the evaluation, with its [break]. *)
Fixpoint find_spline_segment (x_sorted y_sorted h second_derivs : list Q)
  (xi : Q) (idxs : list nat) : result (option Q) :=
  match idxs with
  | [] => Ok None
  | i :: rest =>
      lo <- getitem x_sorted i ;;
      if Qle_bool lo xi then
        hi <- getitem x_sorted (i + 1) ;;
        if Qle_bool xi hi then
          xlo <- getitem x_sorted i ;;
          let dx := xi - xlo in
          yi0 <- getitem y_sorted i ;;
          y1 <- getitem y_sorted (i + 1) ;;
          y0 <- getitem y_sorted i ;;
          hh <- getitem h i ;;
          s <- py_div (y1 - y0) hh ;;
          sd0 <- getitem second_derivs i ;;
          sd1 <- getitem second_derivs (i + 1) ;;
          (* the divisions by 6*h[i] come after (y1 - y0)/h[i] has not raised *)
          Ok (Some (yi0
                    + dx * (s - hh * (2 * sd0 + sd1) / 6)
                    + dx ^ 2 * sd0 / 2
                    + dx ^ 3 * (sd1 - sd0) / (6 * hh)))
        else find_spline_segment x_sorted y_sorted h second_derivs xi rest
      else find_spline_segment x_sorted y_sorted h second_derivs xi rest
  end.

Definition spline_step (n : nat) (x_sorted y_sorted h second_derivs : list Q)
  (xi : Q) (yi : option Q) : result (option Q) :=
  x0 <- getitem x_sorted 0 ;;
  if Qle_bool xi x0 then
    y1 <- getitem y_sorted 1 ;;
    y0 <- getitem y_sorted 0 ;;
    h0 <- getitem h 0 ;;
    slope <- py_div (y1 - y0) h0 ;;
    Ok (Some (y0 + slope * (xi - x0)))
  else
    xlast <- getitem_neg x_sorted 1 ;;
    if Qle_bool xlast xi then
      yl <- getitem_neg y_sorted 1 ;;
      yl2 <- getitem_neg y_sorted 2 ;;
      hl <- getitem_neg h 1 ;;
      slope <- py_div (yl - yl2) hl ;;
      Ok (Some (yl + slope * (xi - xlast)))
    else
      found <- find_spline_segment x_sorted y_sorted h second_derivs xi
                 (range (n - 1)) ;;
      match found with
      | Some v => Ok (Some v)
      | None => Ok yi
      end.

Fixpoint spline_loop (n : nat) (x_sorted y_sorted h second_derivs : list Q)
  (xq : list Q) (yi : option Q) (res : list Q) : result (list Q) :=
  match xq with
  | [] => Ok res
  | xi :: rest =>
      yi' <- spline_step n x_sorted y_sorted h second_derivs xi yi ;;
      match yi' with
      | None => Err (UnboundLocalError "yi")
      | Some v =>
          spline_loop n x_sorted y_sorted h second_derivs rest yi' (res ++ [v])
      end
  end.

(** [h = [x_sorted[i + 1] - x_sorted[i] for i in range(n - 1)]] *)
Definition spline_widths (x_sorted : list Q) : result (list Q) :=
  for_each (range (length x_sorted - 1)) [] (fun i acc =>
    hi <- getitem x_sorted (i + 1) ;;
    lo <- getitem x_sorted i ;;
    Ok (acc ++ [hi - lo])).

(** The tridiagonal system [A], [b] for the interior second derivatives. *)
Definition spline_system (n : nat) (h y_sorted : list Q)
  : result (list (list Q) * list Q) :=
  let A0 := repeat (repeat 0 (n - 2)) (n - 2) in
  let b0 := repeat 0 (n - 2) in
  for_each (range (n - 2)) (A0, b0) (spline_row n h y_sorted).

Definition cubic_spline_interpolate (x y xq : list Q) : result (list Q) :=
  _validate_input x y ;;
  let '(x_sorted, y_sorted) := _sort_points x y in
  let n := length x_sorted in
  if (n <? 3)%nat then linear_interpolate x_sorted y_sorted xq
  else
    h <- spline_widths x_sorted ;;
    Ab <- spline_system n h y_sorted ;;
    let '(A, b) := Ab in
    second_derivs <-
      (if (2 <? n)%nat then
         inner <- np_linalg_solve A b ;; assign_inner n inner
       else Ok (repeat 0 n)) ;;
    spline_loop n x_sorted y_sorted h second_derivs xq None [].

End Spline.

End Interpolacion.

(* ================================================================== *)
(** * Functions given as text                                          *)
(* ================================================================== *)

(** What [sp.lambdify] returns: called on a float, it returns a float or
    raises. *)
Definition Callable : Type := pyfloat -> result pyfloat.

(** [str.strip()] and [str.replace('^', '**')]. *)
Definition is_space (c : ascii) : bool :=
  let k := nat_of_ascii c in
  ((9 <=? k) && (k <=? 13) || (28 <=? k) && (k <=? 32))%nat.

Fixpoint lstrip (s : string) : string :=
  match s with
  | EmptyString => EmptyString
  | String c s' => if is_space c then lstrip s' else s
  end.

Fixpoint string_rev (s acc : string) : string :=
  match s with
  | EmptyString => acc
  | String c s' => string_rev s' (String c acc)
  end.

Definition py_strip (s : string) : string :=
  string_rev (lstrip (string_rev (lstrip s) EmptyString)) EmptyString.

Fixpoint replace_caret (s : string) : string :=
  match s with
  | EmptyString => EmptyString
  | String c s' =>
      if Ascii.eqb c "^"%char then String "*" (String "*" (replace_caret s'))
      else String c (replace_caret s')
  end.

Definition string_is_empty (s : string) : bool :=
  match s with EmptyString => true | _ => false end.

(** [_parse_function], defined identically in integracion.py and
    derivacion.py.  [sympify_lambdify] stands for
    [sp.lambdify(x, sp.sympify(func_str, locals={'x': x}), 'numpy')]. *)
Definition parse_function_body (sympify_lambdify : string -> result Callable)
  (func_str : string) : result Callable :=
  if string_is_empty func_str || string_is_empty (py_strip func_str) then
    Err (ValueError MsgEmptyFunction)
  else
    let func_str := replace_caret (py_strip func_str) in
    try_except
      (func <- sympify_lambdify func_str ;;
       test_val <- func (Fin 1) ;;
       (if np_isnan test_val then
          if negb (np_isinf test_val) then Err (ValueError MsgNotNumeric)
          else Ok tt
        else Ok tt) ;;
       Ok func)
      (fun e => ValueError (MsgParseError func_str e)).

(** Python's [range(a, b)] and [range(a, b, step)] on integers, step > 0. *)
Definition zrange (a b : Z) : list Z :=
  map (fun k => (a + Z.of_nat k)%Z) (seq 0 (Z.to_nat (b - a))).

Definition zrange_step (a b step : Z) : list Z :=
  map (fun k => (a + step * Z.of_nat k)%Z)
      (seq 0 (Z.to_nat ((b - a + step - 1) / step))).

Definition of_int (n : Z) : pyfloat := Fin (inject_Z n).

(** [a ** k] for a literal exponent. *)
Definition fpow (a : pyfloat) (k : nat) : pyfloat :=
  Nat.iter (k - 1) (fun v => fmul v a) a.

(** [[f(x) for x in l]], left to right. *)
Fixpoint map_result {A B : Type} (f : A -> result B) (l : list A) : result (list B) :=
  match l with
  | [] => Ok []
  | a :: t => b <- f a ;; bs <- map_result f t ;; Ok (b :: bs)
  end.

(* ================================================================== *)
(** * integracion.py                                                   *)
(* ================================================================== *)

Module Integracion.

(** The records appended to [steps]: a label (an integer or a text),
    texts and numbers. *)
Inductive label : Type :=
| LInt (k : Z)
| LStr (s : fstring).

Definition DescH (b a : pyfloat) (n : Z) (h : pyfloat) : fstring :=
  FString "h = (b-a)/n = ({b}-{a})/{n} = {h}"
          [VFloat b; VFloat a; VInt n; VFloat h].
Definition DescXi (i : Z) (xi : pyfloat) : fstring :=
  FString "x_{i} = {xi:.6f}" [VInt i; VFloat xi].
Definition DescXn (b : pyfloat) : fstring :=
  FString "x_n = {b}" [VFloat b].
Definition DescTrapecio : fstring :=
  FString "Integral ≈ h/2 * [f(a) + 2*Σf(xi) + f(b)]" [].
Definition FormulaTrapecio (h fa sum_intermediate fb : pyfloat) : fstring :=
  FString "{h}/2 * [{fa:.6f} + 2*{sum_intermediate:.6f} + {fb:.6f}]"
          [VFloat h; VFloat fa; VFloat sum_intermediate; VFloat fb].
Definition DescSimpson38 : fstring :=
  FString "Aplicando fórmula de Simpson 3/8" [].
Definition DescGaussNodes (n : Z) : fstring :=
  FString "Nodos de Gauss-Legendre para n={n}" [VInt n].
Definition DescGaussResult : fstring :=
  FString "Integral = (b-a)/2 * Σ(wi * f(xi))" [].

Inductive step : Type :=
| StepPoint (step_ : label) (description : fstring) (x fx : pyfloat)
| StepTrapResult (description formula : fstring) (result_ : pyfloat)
| StepAdjusted (step_ : label) (description : fstring) (n_adjusted : Z)
| StepCalculation (f_a f_b sum_odd sum_even result_ : pyfloat)
| StepResult (description : fstring) (result_ : pyfloat)
| StepNodes (description : fstring) (nodes weights : list pyfloat)
| StepEvalNode (step_ : label) (x fx weight contribution : pyfloat).

Definition _validate_integration_params (a b : pyfloat) (n : Z) : result unit :=
  if np_isnan a || np_isinf a then Err (ValueError (MsgInvalidA a))
  else if np_isnan b || np_isinf b then Err (ValueError (MsgInvalidB b))
  else if fge a b then Err (ValueError (MsgLimitsOrder a b))
  else if (n <? 1)%Z then Err (ValueError (MsgNNotPositive n))
  else if (n >? 10000)%Z then Err (ValueError (MsgNTooLarge n))
  else Ok tt.

(** Gauss-Legendre nodes and weights as written in [gauss_data]. *)
Definition gauss_data (n : Z) : option (list Q * list Q) :=
  if (n =? 1)%Z then Some ([0.0], [2.0])
  else if (n =? 2)%Z then
    Some ([-0.5773502692; 0.5773502692],
          [1.0; 1.0])
  else if (n =? 3)%Z then
    Some ([-0.7745966692; 0.0; 0.7745966692],
          [0.5555555556; 0.8888888889; 0.5555555556])
  else if (n =? 4)%Z then
    Some ([-0.8611363116; -0.3399810436; 0.3399810436; 0.8611363116],
          [0.3478548451; 0.6521451549; 0.6521451549; 0.3478548451])
  else if (n =? 5)%Z then
    Some ([-0.9061798459; -0.5384693101; 0.0; 0.5384693101; 0.9061798459],
          [0.2369268851; 0.4786286705; 0.5688888889; 0.4786286705; 0.2369268851])
  else None.

Section Integracion.

Variable sympify_lambdify : string -> result Callable.

(** [np.polynomial.legendre.leggauss(n)] *)
Variable leggauss : Z -> list Q * list Q.

Definition _parse_function : string -> result Callable :=
  parse_function_body sympify_lambdify.

Definition trapecio_simple (func : Callable) (a b : pyfloat) : result pyfloat :=
  fa <- func a ;;
  fb <- func b ;;
  Ok (fdiv (fmul (fsub b a) (fadd fa fb)) (Fin 2)).

(** The body of [trapecio_compuesto] once [func] is known. *)
Definition trapecio_run (func : Callable) (a b : pyfloat) (n : Z)
  : result (pyfloat * list step) :=
  let h := fdiv (fsub b a) (of_int n) in
  fa <- func a ;;
  fb <- func b ;;
  let steps := [StepPoint (LInt 1) (DescH b a n h) a fa] in
  st <- for_each (zrange 1 n) (Fin 0, steps) (fun i st =>
          let '(sum_intermediate, steps) := st in
          let xi := fadd a (fmul (of_int i) h) in
          fxi <- func xi ;;
          let sum_intermediate := fadd sum_intermediate fxi in
          let steps :=
            if (i <=? 5)%Z
            then steps ++ [StepPoint (LInt (i + 1)) (DescXi i xi) xi fxi]
            else steps in
          Ok (sum_intermediate, steps)) ;;
  let '(sum_intermediate, steps) := st in
  let steps := steps ++ [StepPoint (LStr (FString "final" [])) (DescXn b) b fb] in
  let result_ :=
    fdiv (fmul h (fadd (fadd fa (fmul (Fin 2) sum_intermediate)) fb)) (Fin 2) in
  let steps :=
    steps ++ [StepTrapResult DescTrapecio
               (FormulaTrapecio h fa sum_intermediate fb) result_] in
  Ok (result_, steps).

Definition trapecio_compuesto (func_str : string) (a b : pyfloat) (n : Z)
  : result (pyfloat * list step) :=
  _validate_integration_params a b n ;;
  func <- _parse_function func_str ;;
  trapecio_run func a b n.

Definition simpson_13_simple (func : Callable) (a b : pyfloat) : result pyfloat :=
  let c := fdiv (fadd a b) (Fin 2) in
  fa <- func a ;;
  fc <- func c ;;
  fb <- func b ;;
  Ok (fdiv (fmul (fsub b a) (fadd (fadd fa (fmul (Fin 4) fc)) fb)) (Fin 6)).

(** [sum(f_vals[i] for i in idxs)] *)
Definition sum_at (f_vals : list pyfloat) (idxs : list Z) : result pyfloat :=
  for_each idxs (Fin 0) (fun i acc =>
    v <- getitem f_vals (Z.to_nat i) ;; Ok (fadd acc v)).

(** The body of [simpson_13_compuesto] after [n] has been adjusted. *)
Definition simpson_13_run (func : Callable) (a b : pyfloat) (n : Z)
  : result (pyfloat * list step) :=
  let h := fdiv (fsub b a) (of_int n) in
  let x_vals := map (fun i => fadd a (fmul (of_int i) h)) (zrange 0 (n + 1)) in
  f_vals <- map_result func x_vals ;;
  let steps := [StepAdjusted (LInt 1) (DescH b a n h) n] in
  sum_odd <- sum_at f_vals (zrange_step 1 n 2) ;;
  sum_even <- sum_at f_vals (zrange_step 2 n 2) ;;
  f0 <- getitem f_vals 0 ;;
  fn <- getitem f_vals (Z.to_nat n) ;;
  let result_ :=
    fdiv (fmul h (fadd (fadd (fadd f0 (fmul (Fin 4) sum_odd))
                             (fmul (Fin 2) sum_even)) fn)) (Fin 3) in
  f0' <- getitem f_vals 0 ;;
  fn' <- getitem f_vals (Z.to_nat n) ;;
  Ok (result_, steps ++ [StepCalculation f0' fn' sum_odd sum_even result_]).

Definition simpson_13_adjust (n : Z) : Z :=
  if negb (n mod 2 =? 0)%Z then (n + 1)%Z else n.

Definition simpson_13_compuesto (func_str : string) (a b : pyfloat) (n : Z)
  : result (pyfloat * list step) :=
  _validate_integration_params a b n ;;
  let n := simpson_13_adjust n in
  func <- _parse_function func_str ;;
  simpson_13_run func a b n.

(** The body of [simpson_38_compuesto] after [n] has been adjusted. *)
Definition simpson_38_run (func : Callable) (a b : pyfloat) (n : Z)
  : result (pyfloat * list step) :=
  let h := fdiv (fsub b a) (of_int n) in
  let steps := [StepAdjusted (LInt 1) (DescH b a n h) n] in
  fa <- func a ;;
  fb <- func b ;;
  total <- for_each (zrange 1 n) (fadd fa fb) (fun i total =>
             let xi := fadd a (fmul (of_int i) h) in
             fxi <- func xi ;;
             if (i mod 3 =? 0)%Z then Ok (fadd total (fmul (Fin 2) fxi))
             else Ok (fadd total (fmul (Fin 3) fxi))) ;;
  let result_ := fdiv (fmul (fmul (Fin 3) h) total) (Fin 8) in
  Ok (result_, steps ++ [StepResult DescSimpson38 result_]).

Definition simpson_38_adjust (n : Z) : Z :=
  if negb (n mod 3 =? 0)%Z then ((n / 3 + 1) * 3)%Z else n.

Definition simpson_38_compuesto (func_str : string) (a b : pyfloat) (n : Z)
  : result (pyfloat * list step) :=
  _validate_integration_params a b n ;;
  let n := simpson_38_adjust n in
  func <- _parse_function func_str ;;
  simpson_38_run func a b n.

(** The body of [gauss_legendre] after [n] has been clamped. *)
Definition gauss_run (func : Callable) (a b : pyfloat) (n : Z)
  : result (pyfloat * list step) :=
  let '(nodes, weights) :=
    match gauss_data n with
    | None => leggauss n
    | Some nw => nw
    end in
  let nodes := map Fin nodes in
  let weights := map Fin weights in
  let transformed_nodes :=
    map (fun nd => fadd (fmul (fdiv (fsub b a) (Fin 2)) nd)
                        (fdiv (fadd a b) (Fin 2))) nodes in
  let steps := [StepNodes (DescGaussNodes n) transformed_nodes weights] in
  st <- for_each (zrange 0 n) (Fin 0, steps) (fun i st =>
          let '(integral_sum, steps) := st in
          xi <- getitem transformed_nodes (Z.to_nat i) ;;
          fxi <- func xi ;;
          w <- getitem weights (Z.to_nat i) ;;
          let contribution := fmul w fxi in
          let integral_sum := fadd integral_sum contribution in
          w' <- getitem weights (Z.to_nat i) ;;
          let steps :=
            if (i <? 5)%Z
            then steps ++ [StepEvalNode (LStr (FString "eval_{i+1}" [VInt (i + 1)])) xi fxi w' contribution]
            else steps in
          Ok (integral_sum, steps)) ;;
  let '(integral_sum, steps) := st in
  let result_ := fmul (fdiv (fsub b a) (Fin 2)) integral_sum in
  Ok (result_, steps ++ [StepResult DescGaussResult result_]).

Definition gauss_clamp (n : Z) : Z := if (n >? 10)%Z then 10%Z else n.

Definition gauss_legendre (func_str : string) (a b : pyfloat) (n : Z)
  : result (pyfloat * list step) :=
  _validate_integration_params a b n ;;
  let n := gauss_clamp n in
  func <- _parse_function func_str ;;
  gauss_run func a b n.

End Integracion.

End Integracion.

(* ================================================================== *)
(** * derivacion.py                                                    *)
(* ================================================================== *)

Module Derivacion.

Definition _validate_derivative_params (x h : pyfloat) (order : Z) : result unit :=
  if np_isnan x || np_isinf x then Err (ValueError (MsgInvalidPoint x))
  else if fle h (Fin 0) || np_isnan h || np_isinf h then
    Err (ValueError (MsgStepNotPositive h))
  else if fgt h (Fin 1) then Err (ValueError (MsgStepTooLarge h))
  else if flt h (Fin 1e-12) then Err (ValueError (MsgStepTooSmall h))
  else if (order <? 1)%Z || (order >? 4)%Z then
    Err (ValueError (MsgInvalidOrder order))
  else Ok tt.

(** [k*h] for an integer literal [k]. *)
Definition times (k : Z) (h : pyfloat) : pyfloat := fmul (of_int k) h.

(** The check after the [if/elif] chain and the [return]; [None] stands
    for [derivative] never having been assigned. *)
Definition check_result (r : option (pyfloat * string)) : result (pyfloat * string) :=
  match r with
  | None => Err (UnboundLocalError "derivative")
  | Some (derivative, formula) =>
      if np_isnan derivative || np_isinf derivative
      then Err (ValueError (MsgNonFinite derivative))
      else Ok (derivative, formula)
  end.

(** The [if order == 1: ... elif order == 4: ...] chains. *)
Definition stencil_adelante (func : Callable) (x h : pyfloat) (order : Z)
  : result (option (pyfloat * string)) :=
  if (order =? 1)%Z then
    fx <- func x ;;
    fx_h <- func (fadd x h) ;;
    Ok (Some (fdiv (fsub fx_h fx) h,
              "f'(x) ≈ [f(x+h) - f(x)] / h"%string))
  else if (order =? 2)%Z then
    fx <- func x ;;
    fx_h <- func (fadd x h) ;;
    fx_2h <- func (fadd x (times 2 h)) ;;
    Ok (Some (fdiv (fadd (fsub fx_2h (times 2 fx_h)) fx) (fpow h 2),
              "f''(x) ≈ [f(x+2h) - 2f(x+h) + f(x)] / h²"%string))
  else if (order =? 3)%Z then
    fx <- func x ;;
    fx_h <- func (fadd x h) ;;
    fx_2h <- func (fadd x (times 2 h)) ;;
    fx_3h <- func (fadd x (times 3 h)) ;;
    Ok (Some (fdiv (fsub (fadd (fsub fx_3h (times 3 fx_2h)) (times 3 fx_h)) fx)
                   (fpow h 3),
              "f'''(x) ≈ [f(x+3h) - 3f(x+2h) + 3f(x+h) - f(x)] / h³"%string))
  else if (order =? 4)%Z then
    fx <- func x ;;
    fx_h <- func (fadd x h) ;;
    fx_2h <- func (fadd x (times 2 h)) ;;
    fx_3h <- func (fadd x (times 3 h)) ;;
    fx_4h <- func (fadd x (times 4 h)) ;;
    Ok (Some (fdiv (fadd (fsub (fadd (fsub fx_4h (times 4 fx_3h)) (times 6 fx_2h))
                               (times 4 fx_h)) fx)
                   (fpow h 4),
              "f⁽⁴⁾(x) ≈ [f(x+4h) - 4f(x+3h) + 6f(x+2h) - 4f(x+h) + f(x)] / h⁴"%string))
  else Ok None.

Definition stencil_atras (func : Callable) (x h : pyfloat) (order : Z)
  : result (option (pyfloat * string)) :=
  if (order =? 1)%Z then
    fx <- func x ;;
    fx_h <- func (fsub x h) ;;
    Ok (Some (fdiv (fsub fx fx_h) h,
              "f'(x) ≈ [f(x) - f(x-h)] / h"%string))
  else if (order =? 2)%Z then
    fx <- func x ;;
    fx_h <- func (fsub x h) ;;
    fx_2h <- func (fsub x (times 2 h)) ;;
    Ok (Some (fdiv (fadd (fsub fx (times 2 fx_h)) fx_2h) (fpow h 2),
              "f''(x) ≈ [f(x) - 2f(x-h) + f(x-2h)] / h²"%string))
  else if (order =? 3)%Z then
    fx <- func x ;;
    fx_h <- func (fsub x h) ;;
    fx_2h <- func (fsub x (times 2 h)) ;;
    fx_3h <- func (fsub x (times 3 h)) ;;
    Ok (Some (fdiv (fsub (fadd (fsub fx (times 3 fx_h)) (times 3 fx_2h)) fx_3h)
                   (fpow h 3),
              "f'''(x) ≈ [f(x) - 3f(x-h) + 3f(x-2h) - f(x-3h)] / h³"%string))
  else if (order =? 4)%Z then
    fx <- func x ;;
    fx_h <- func (fsub x h) ;;
    fx_2h <- func (fsub x (times 2 h)) ;;
    fx_3h <- func (fsub x (times 3 h)) ;;
    fx_4h <- func (fsub x (times 4 h)) ;;
    Ok (Some (fdiv (fadd (fsub (fadd (fsub fx (times 4 fx_h)) (times 6 fx_2h))
                               (times 4 fx_3h)) fx_4h)
                   (fpow h 4),
              "f⁽⁴⁾(x) ≈ [f(x) - 4f(x-h) + 6f(x-2h) - 4f(x-3h) + f(x-4h)] / h⁴"%string))
  else Ok None.

Definition stencil_centrada (func : Callable) (x h : pyfloat) (order : Z)
  : result (option (pyfloat * string)) :=
  if (order =? 1)%Z then
    fx_pos <- func (fadd x h) ;;
    fx_neg <- func (fsub x h) ;;
    Ok (Some (fdiv (fsub fx_pos fx_neg) (times 2 h),
              "f'(x) ≈ [f(x+h) - f(x-h)] / (2h)"%string))
  else if (order =? 2)%Z then
    fx <- func x ;;
    fx_pos <- func (fadd x h) ;;
    fx_neg <- func (fsub x h) ;;
    Ok (Some (fdiv (fadd (fsub fx_pos (times 2 fx)) fx_neg) (fpow h 2),
              "f''(x) ≈ [f(x+h) - 2f(x) + f(x-h)] / h²"%string))
  else if (order =? 3)%Z then
    fx_2pos <- func (fadd x (times 2 h)) ;;
    fx_pos <- func (fadd x h) ;;
    fx_neg <- func (fsub x h) ;;
    fx_2neg <- func (fsub x (times 2 h)) ;;
    Ok (Some (fdiv (fsub (fadd (fsub fx_2pos (times 2 fx_pos)) (times 2 fx_neg))
                         fx_2neg)
                   (times 2 (fpow h 3)),
              "f'''(x) ≈ [f(x+2h) - 2f(x+h) + 2f(x-h) - f(x-2h)] / (2h³)"%string))
  else if (order =? 4)%Z then
    fx <- func x ;;
    fx_pos <- func (fadd x h) ;;
    fx_neg <- func (fsub x h) ;;
    fx_2pos <- func (fadd x (times 2 h)) ;;
    fx_2neg <- func (fsub x (times 2 h)) ;;
    Ok (Some (fdiv (fadd (fsub (fadd (fsub fx_2pos (times 4 fx_pos)) (times 6 fx))
                               (times 4 fx_neg)) fx_2neg)
                   (fpow h 4),
              "f⁽⁴⁾(x) ≈ [f(x+2h) - 4f(x+h) + 6f(x) - 4f(x-h) + f(x-2h)] / h⁴"%string))
  else Ok None.

Section Derivacion.

Variable sympify_lambdify : string -> result Callable.

Definition _parse_function : string -> result Callable :=
  parse_function_body sympify_lambdify.

Definition diff_adelante (func_str : string) (x h : pyfloat) (order : Z)
  : result (pyfloat * string) :=
  _validate_derivative_params x h order ;;
  func <- _parse_function func_str ;;
  try_except
    (r <- stencil_adelante func x h order ;; check_result r)
    (fun e => ValueError (MsgDerivError Adelante e)).

Definition diff_atras (func_str : string) (x h : pyfloat) (order : Z)
  : result (pyfloat * string) :=
  _validate_derivative_params x h order ;;
  func <- _parse_function func_str ;;
  try_except
    (r <- stencil_atras func x h order ;; check_result r)
    (fun e => ValueError (MsgDerivError Atras e)).

Definition diff_centrada (func_str : string) (x h : pyfloat) (order : Z)
  : result (pyfloat * string) :=
  _validate_derivative_params x h order ;;
  func <- _parse_function func_str ;;
  try_except
    (r <- stencil_centrada func x h order ;; check_result r)
    (fun e => ValueError (MsgDerivError Centrada e)).

(** The result dictionary of [compare_methods].  The keys ["errors"]
    and ["best_method"] exist only when the exact derivative could be
    computed: [None] stands for an absent key in these two fields, and
    for the value [None] in [exact].  [errors] keeps the insertion order
    of the dictionary. *)
Record comparison : Type := {
  adelante : pyfloat;
  atras : pyfloat;
  centrada : pyfloat;
  exact : option pyfloat;
  errors : option (list (string * pyfloat));
  best_method : option string
}.

(** [errors[k]], for a key of [errors] (the only use in the source). *)
Fixpoint dict_get (d : list (string * pyfloat)) (k : string) : pyfloat :=
  match d with
  | [] => NaN
  | (k', v) :: rest => if String.eqb k k' then v else dict_get rest k
  end.

(** [min(keys, key=...)] scans from left to right and replaces the
    candidate [best] only by a key whose value is smaller ([<]). *)
Fixpoint py_min_from (key : string -> pyfloat) (best : string) (keys : list string)
  : string :=
  match keys with
  | [] => best
  | k :: rest =>
      if flt (key k) (key best) then py_min_from key k rest
      else py_min_from key best rest
  end.

(** [None] for an empty sequence, on which [min] raises; the
    dictionary it is applied to always holds three keys. *)
Definition py_min (key : string -> pyfloat) (keys : list string) : option string :=
  match keys with
  | [] => None
  | k :: rest => Some (py_min_from key k rest)
  end.

(** The exact derivative, when sympy can produce it:
    [float(sp.lambdify(x, sp.diff(sp.sympify(text), x, order), 'numpy')(x))]. *)
Variable sympy_exact : string -> Z -> pyfloat -> result pyfloat.

Definition compare_methods (func_str : string) (x h : pyfloat) (order : Z)
  : result comparison :=
  try_except
    (r_adelante <- diff_adelante func_str x h order ;;
     r_atras <- diff_atras func_str x h order ;;
     r_centrada <- diff_centrada func_str x h order ;;
     let deriv_adelante := fst r_adelante in
     let deriv_atras := fst r_atras in
     let deriv_centrada := fst r_centrada in
     (* try: ... except: pass *)
     let exact_deriv :=
       match sympy_exact (replace_caret func_str) order x with
       | Ok v => Some v
       | Err _ => None
       end in
     match exact_deriv with
     | Some ex =>
         let errors :=
           [("adelante"%string, fabs (fsub deriv_adelante ex));
            ("atras"%string, fabs (fsub deriv_atras ex));
            ("centrada"%string, fabs (fsub deriv_centrada ex))] in
         let best_method := py_min (dict_get errors) (map fst errors) in
         Ok {| adelante := deriv_adelante; atras := deriv_atras;
               centrada := deriv_centrada; exact := Some ex;
               errors := Some errors; best_method := best_method |}
     | None =>
         Ok {| adelante := deriv_adelante; atras := deriv_atras;
               centrada := deriv_centrada; exact := None;
               errors := None; best_method := None |}
     end)
    (fun e => ValueError (MsgCompareError e)).

End Derivacion.

End Derivacion.

(* ================================================================== *)
(** * Definitions used to state the properties                         *)
(* ================================================================== *)

Module Props.

Import Interpolacion.

(** ** The Newton recurrence as the specification words it

    "value = c[n-1]; for i from n-2 down to 0:
       value = value*(xi - x_sorted[i]) + c[i]".
    [horner_steps k value] performs the updates for i = k-1, ..., 0. *)
Fixpoint horner_steps (x_nodes c : list Q) (xi : Q) (k : nat) (value : Q) : Q :=
  match k with
  | O => value
  | S i => horner_steps x_nodes c xi i (value * (xi - nth i x_nodes 0) + nth i c 0)
  end.

Definition newton_recurrence (x_nodes c : list Q) (xi : Q) : Q :=
  let n := length c in
  horner_steps x_nodes c xi (n - 1) (nth (n - 1) c 0).

(** ** Interpolating polynomials in closed form *)

Fixpoint sum_over {A : Type} (f : A -> Q) (l : list A) : Q :=
  match l with
  | [] => 0
  | a :: t => f a + sum_over f t
  end.

Fixpoint prod_over {A : Type} (f : A -> Q) (l : list A) : Q :=
  match l with
  | [] => 1
  | a :: t => f a * prod_over f t
  end.

(** The nodes of [l] other than [a]. *)
Definition others (a : Q) (l : list Q) : list Q :=
  filter (fun b => negb (Qeq_bool b a)) l.

(** [(q - x_1)...(q - x_k)] *)
Definition prod_diff (q : Q) (l : list Q) : Q := prod_over (fun b => q - b) l.

(** The Lagrange basis polynomial of node [a] among the nodes [ctx]:
    the product over the other nodes b of [(q - b)/(a - b)]. *)
Definition basis (ctx : list Q) (q a : Q) : Q :=
  prod_over (fun b => (q - b) / (a - b)) (others a ctx).

(** The product over the other nodes b of [(a - b)]. *)
Definition weight (ctx : list Q) (a : Q) : Q := prod_diff a (others a ctx).

(** "sum y_i * L_i(xi)" over the points [ps]. *)
Definition lagrange_poly (ps : list (Q * Q)) (q : Q) : Q :=
  sum_over (fun p => snd p * basis (map fst ps) q (fst p)) ps.

(** The divided difference f[x_0, ..., x_k] of the points [ps], in its
    symmetric form: the sum of [y_i / prod_{j <> i} (x_i - x_j)]. *)
Definition divided_difference (ps : list (Q * Q)) : Q :=
  sum_over (fun p => snd p / weight (map fst ps) (fst p)) ps.

(** [f 0 + ... + f (m-1)] *)
Fixpoint sum_upto (m : nat) (f : nat -> Q) : Q :=
  match m with
  | O => 0
  | S k => sum_upto k f + f k
  end.

(** The points i, ..., i+len-1 of [l]. *)
Definition sub {A : Type} (l : list A) (i len : nat) : list A :=
  firstn len (skipn i l).

(** f[x_i, ..., x_{i+j}] for the points [pts]: what the cell [F[i][j]]
    of the table is meant to hold. *)
Definition window_dd (pts : list (Q * Q)) (i j : nat) : Q :=
  divided_difference (sub pts i (S j)).

Definition holds_dd (pts : list (Q * Q)) (F : list (list Q)) (i j : nat) : Prop :=
  exists v, Interpolacion.get2 F i j = Ok v /\ v == window_dd pts i j.

(** Newton's form: the sum of [c_j (q - x_0)...(q - x_{j-1})]. *)
Definition newton_sum (nodes c : list Q) (q : Q) (m : nat) : Q :=
  sum_upto m (fun j => nth j c 0 * prod_diff q (firstn j nodes)).

(** No two values closer than the guard [1e-15]. *)
Fixpoint separatedb (l : list Q) : bool :=
  match l with
  | [] => true
  | a :: t =>
      forallb (fun b => negb (Interpolacion.near_zero (a - b))) t && separatedb t
  end.

(** ** Sample sets *)

(** [x] has two equal values at different positions. *)
Definition has_duplicates (x : list Q) : Prop :=
  exists i j, (i < j < length x)%nat /\ nth i x 0 == nth j x 0.

(** Pairwise distinct values. *)
Fixpoint distinct (x : list Q) : Prop :=
  match x with
  | [] => True
  | a :: t => (forall b, In b t -> ~ a == b) /\ distinct t
  end.

(** Keys in non-decreasing order. *)
Fixpoint keys_sorted (l : list (Q * Q)) : Prop :=
  match l with
  | [] => True
  | p :: t => (forall q, In q t -> fst p <= fst q) /\ keys_sorted t
  end.

(** Strictly increasing values. *)
Fixpoint increasing (l : list Q) : Prop :=
  match l with
  | [] => True
  | a :: t => (forall b, In b t -> a < b) /\ increasing t
  end.

(** The facts about [_sort_points] on accepted samples, gathered. *)
Record sorted_samples (x y x_sorted y_sorted : list Q) : Prop := {
  ss_perm : Permutation (combine x y) (combine x_sorted y_sorted);
  ss_len_x : length x_sorted = length x;
  ss_len_y : length y_sorted = length x;
  ss_inc : increasing x_sorted
}.

(** ** The divided-difference table *)

(** A square table of side [n]. *)
Definition shape (n : nat) (F : list (list Q)) : Prop :=
  length F = n /\ forall row, In row F -> length row = n.

(** The state of the table between two columns: the columns left of
    [j] hold their divided differences ([n] points). *)
Definition columns_done (pts : list (Q * Q)) (n : nat) (F : list (list Q))
  (j : nat) : Prop :=
  forall i j', (j' < j)%nat -> (i + j' < n)%nat -> holds_dd pts F i j'.

(** What the guard of [newton_divided_diffs] reports when it fires. *)
Definition guard_failure (xs : list Q) (n : nat) (e : exn) : Prop :=
  exists hi lo, e = ValueError (MsgDivZeroNewton hi lo) /\
                (lo < hi < n)%nat /\
                Interpolacion.near_zero (nth hi xs 0 - nth lo xs 0) = true.

(** What the guard of [lagrange_interpolate] reports when it fires. *)
Definition lagrange_failure (x : list Q) (e : exn) : Prop :=
  exists i j, (i < length x)%nat /\ (j < length x)%nat /\ i <> j /\
              e = ValueError (MsgDivZeroLagrange i j) /\
              Interpolacion.near_zero (nth i x 0 - nth j x 0) = true.


(** ** Linear systems *)

(** The sum of the absolute values of the entries of a row other than
    the diagonal one. *)
Definition off_diagonal (i : nat) (row : list Q) : Q :=
  sum_over Qabs row - Qabs (nth i row 0).

(** Square and strictly diagonally dominant by rows. *)
Definition diag_dominant (A : list (list Q)) : Prop :=
  forall i row, nth_error A i = Some row ->
    length row = length A /\ off_diagonal i row < Qabs (nth i row 0).

(** What is assumed of [numpy.linalg.solve]: on a strictly diagonally
    dominant system, which is non-singular, it returns a vector as long
    as the right-hand side. *)
Definition solves_dominant
  (solve : list (list Q) -> list Q -> result (list Q)) : Prop :=
  forall A b, diag_dominant A -> length b = length A ->
    exists s, solve A b = Ok s /\ length s = length b.

(** ** Polynomial integrands and their integrals *)

(** [c_0 + c_1 x + c_2 x^2 + ...] *)
Fixpoint poly_eval (c : list Q) (x : Q) : Q :=
  match c with
  | [] => 0
  | a :: t => a + x * poly_eval t x
  end.

(** The coefficients [c_0/k, c_1/(k+1), ...]. *)
Fixpoint integrate_coeffs (k : positive) (c : list Q) : list Q :=
  match c with
  | [] => []
  | a :: t => a / inject_Z (Zpos k) :: integrate_coeffs (Pos.succ k) t
  end.

(** The definite integral of the polynomial over [a, b]. *)
Definition poly_integral (c : list Q) (a b : Q) : Q :=
  let P := 0 :: integrate_coeffs 1 c in
  poly_eval P b - poly_eval P a.

(** The polynomial as the callable that the parser returns for it. *)
Definition poly_callable (c : list Q) : Callable :=
  fun v =>
    match v with
    | Fin q => Ok (Fin (poly_eval c q))
    | _ => Ok NaN
    end.

(** An antiderivative of the polynomial. *)
Definition antiderivative (c : list Q) (x : Q) : Q :=
  poly_eval (0 :: integrate_coeffs 1 c) x.

(** [func] computes the polynomial with coefficients [c]: on every
    finite argument it returns a finite value, that of the polynomial. *)
Definition computes (func : Callable) (c : list Q) : Prop :=
  forall q, exists v, func (Fin q) = Ok (Fin v) /\ v == poly_eval c q.

(** ** Piecewise-linear and piecewise-cubic values *)

(** The line through the samples [k] and [k+1], at [q]. *)
Definition chord (xs ys : list Q) (k : nat) (q : Q) : Q :=
  nth k ys 0
  + (nth (k + 1) ys 0 - nth k ys 0) / (nth (k + 1) xs 0 - nth k xs 0)
    * (q - nth k xs 0).

(** [v] is the value at [q] of the polygon through the samples: on the
    segment that brackets [q], or on the prolongation of the first
    (last) segment when [q] lies left (right) of all the samples. *)
Definition piecewise_linear (xs ys : list Q) (q v : Q) : Prop :=
  exists k, (k + 1 < length xs)%nat /\ v == chord xs ys k q /\
    (nth k xs 0 <= q <= nth (k + 1) xs 0
     \/ (k = 0%nat /\ q < nth 0 xs 0)
     \/ ((k + 2)%nat = length xs /\ nth (k + 1) xs 0 < q)).

(** The cubic of segment [i] as [cubic_spline_interpolate] writes it,
    with second derivatives [sd] at the samples. *)
Definition cubic_piece (xs ys sd : list Q) (i : nat) (q : Q) : Q :=
  let hh := nth (i + 1) xs 0 - nth i xs 0 in
  let dx := q - nth i xs 0 in
  nth i ys 0
  + dx * ((nth (i + 1) ys 0 - nth i ys 0) / hh
          - hh * (2 * nth i sd 0 + nth (i + 1) sd 0) / 6)
  + dx ^ 2 * nth i sd 0 / 2
  + dx ^ 3 * (nth (i + 1) sd 0 - nth i sd 0) / (6 * hh).

(** [v] is the value at [q] of the spline through the samples: the
    first (last) segment's chord at and beyond the first (last) sample,
    the cubic of a bracketing segment strictly in between. *)
Definition spline_value (xs ys sd : list Q) (q v : Q) : Prop :=
  (q <= nth 0 xs 0 /\ v == chord xs ys 0 q)
  \/ (nth (length xs - 1) xs 0 <= q /\ v == chord xs ys (length xs - 2) q)
  \/ (nth 0 xs 0 < q < nth (length xs - 1) xs 0 /\
      exists i, (i + 1 < length xs)%nat /\
                nth i xs 0 <= q <= nth (i + 1) xs 0 /\
                v == cubic_piece xs ys sd i q).

(** [q] lies outside the open range of the samples. *)
Definition outside (x : list Q) (q : Q) : Prop :=
  (forall a, In a x -> q <= a) \/ (forall a, In a x -> a <= q).

(** Every sample lies on the line [y = m*x + c]. *)
Definition on_line (m c : Q) (x y : list Q) : Prop :=
  Forall (fun p => snd p == m * fst p + c) (combine x y).

(** ** Derivatives of polynomials *)

(** From [c_k, c_(k+1), ...] to [k*c_k, (k+1)*c_(k+1), ...]. *)
Fixpoint derive_from (k : positive) (c : list Q) : list Q :=
  match c with
  | [] => []
  | a :: t => inject_Z (Zpos k) * a :: derive_from (Pos.succ k) t
  end.

(** The coefficients of the derivative. *)
Definition derive_coeffs (c : list Q) : list Q := derive_from 1 (tl c).

(** The derivative of order [k] of the polynomial, at [x]. *)
Definition poly_derivative (k : nat) (c : list Q) (x : Q) : Q :=
  poly_eval (Nat.iter k derive_coeffs c) x.

(** ** Function texts *)

(** [not func_str or not func_str.strip()] *)
Definition blank (func_str : string) : bool :=
  string_is_empty func_str || string_is_empty (py_strip func_str).

(** The text handed to sympy: stripped, with [^] written [**]. *)
Definition normalized (func_str : string) : string :=
  replace_caret (py_strip func_str).

(** ** Reading the trace and the errors *)

(** The [n_adjusted] field of the first record that has one. *)
Fixpoint reported_n (steps : list Integracion.step) : option Z :=
  match steps with
  | [] => None
  | Integracion.StepAdjusted _ _ n :: _ => Some n
  | _ :: rest => reported_n rest
  end.

(** The messages raised by the three [_validate_*] functions, by their
    templates. *)
Definition validation_templates : list string :=
  map (fun m => match m with FString t _ => t end)
    [MsgListsEmpty; MsgLengthMismatch 0 0; MsgTooFewPoints; MsgDuplicateX;
     MsgInvalidX 0 NaN; MsgInvalidY 0 NaN;
     MsgInvalidA NaN; MsgInvalidB NaN; MsgLimitsOrder NaN NaN;
     MsgNNotPositive 0; MsgNTooLarge 0;
     MsgInvalidPoint NaN; MsgStepNotPositive NaN; MsgStepTooLarge NaN;
     MsgStepTooSmall NaN; MsgInvalidOrder 0].

Definition is_validation_error (e : exn) : bool :=
  match e with
  | ValueError (FString t _) => existsb (String.eqb t) validation_templates
  | _ => false
  end.

(** A callable that never raises. *)
Definition total (func : Callable) : Prop := forall v, exists w, func v = Ok w.

(** The grid point [a + i*h] with [h = (b - a)/n]. *)
Definition grid (a b : pyfloat) (n i : Z) : pyfloat :=
  fadd a (fmul (of_int i) (fdiv (fsub b a) (of_int n))).

(** The points at which each quadrature routine calls the integrand, in
    the order of the calls; [n] is the subdivision count in use. *)
Definition trapecio_samples (a b : pyfloat) (n : Z) : list pyfloat :=
  a :: b :: map (grid a b n) (zrange 1 n).

Definition simpson_13_samples (a b : pyfloat) (n : Z) : list pyfloat :=
  map (grid a b n) (zrange 0 (n + 1)).

Definition simpson_38_samples (a b : pyfloat) (n : Z) : list pyfloat :=
  a :: b :: map (grid a b n) (zrange 1 n).

Definition gauss_nodes (leggauss : Z -> list Q * list Q) (n : Z) : list Q * list Q :=
  match Integracion.gauss_data n with
  | None => leggauss n
  | Some nw => nw
  end.

Definition gauss_samples (leggauss : Z -> list Q * list Q) (a b : pyfloat) (n : Z)
  : list pyfloat :=
  map (fun nd => fadd (fmul (fdiv (fsub b a) (Fin 2)) (Fin nd))
                      (fdiv (fadd a b) (Fin 2)))
      (fst (gauss_nodes leggauss n)).

(** The integrand raises at one of the points of [l]. *)
Definition raises_on (func : Callable) (l : list pyfloat) : Prop :=
  exists p e, In p l /\ func p = Err e.

(** What numpy documents for [leggauss(k)]: k nodes and k weights. *)
Definition leggauss_shape (leggauss : Z -> list Q * list Q) : Prop :=
  forall k, (6 <= k <= 10)%Z ->
    length (fst (leggauss k)) = Z.to_nat k /\
    length (snd (leggauss k)) = Z.to_nat k.

(** Sample data for the concrete instances. *)
Definition ex_nodes : list Q := [0; 1; 3].
Definition ex_coeffs : list Q := [2; (1 # 2); 5].
Definition ex_queries : list Q := [4; 7].
Definition ex_x : list Q := [2; 0; 1].
Definition ex_y : list Q := [5; 1; 2].

(** The integrand [x] as a callable. *)
Definition func_id : Callable := fun v => Ok v.
(** A function that is undefined (NaN) on negative arguments and the
    identity elsewhere, as [sqrt(x)**2] is under numpy. *)
Definition func_undefined_below_0 : Callable :=
  fun v =>
    match v with
    | Fin q => if Qlt_bool q 0 then Ok NaN else Ok (Fin q)
    | other => Ok other
    end.
(** A function that raises on negative arguments, as [1/x] does at 0
    under Python. *)
Definition func_raises_below_0 : Callable :=
  fun v =>
    match v with
    | Fin q => if Qlt_bool q 0 then Err (External "math domain error") else Ok (Fin q)
    | other => Ok other
    end.
(** A stand-in for the linear solver in concrete instances. *)
Definition solve_stub (A : list (list Q)) (b : list Q) : result (list Q) := Ok b.
Definition parser_of (func : Callable) : string -> result Callable :=
  fun _ => Ok func.
(** A stand-in for sympy's exact derivative in concrete instances. *)
Definition exact_one : string -> Z -> pyfloat -> result pyfloat :=
  fun _ _ _ => Ok (Fin 1).
Definition leggauss_zeros (n : Z) : list Q * list Q :=
  (repeat 0 (Z.to_nat n), repeat 0 (Z.to_nat n)).

End Props.

(* ================================================================== *)
(** * Lemmas on the runtime model                                      *)
(* ================================================================== *)

Section RuntimeLemmas.

Lemma bind_ok {A B : Type} (c : result A) (k : A -> result B) (a : A) :
  c = Ok a -> bind c k = k a.
Proof. intros ->. reflexivity. Qed.

Lemma bind_inv_ok {A B : Type} (c : result A) (k : A -> result B) (b : B) :
  bind c k = Ok b -> exists a, c = Ok a /\ k a = Ok b.
Proof. destruct c as [a|e]; simpl; intros H; [eauto | discriminate]. Qed.

Lemma getitem_nth {A : Type} (l : list A) (i : nat) (d : A) :
  (i < length l)%nat -> getitem l i = Ok (nth i l d).
Proof.
  intros H. unfold getitem.
  rewrite (nth_error_nth' l d H). reflexivity.
Qed.

Lemma getitem_out {A : Type} (l : list A) (i : nat) :
  (length l <= i)%nat -> getitem l i = Err IndexError.
Proof.
  intros H. unfold getitem.
  apply nth_error_None in H. rewrite H. reflexivity.
Qed.

Lemma getitem_neg_nth {A : Type} (l : list A) (k : nat) (d : A) :
  (1 <= k <= length l)%nat -> getitem_neg l k = Ok (nth (length l - k) l d).
Proof.
  intros H. unfold getitem_neg.
  destruct (Nat.leb_spec k (length l)); [|lia].
  apply getitem_nth. lia.
Qed.

Lemma for_each_app {I S : Type} (l1 l2 : list I) (s : S) (body : I -> S -> result S) :
  for_each (l1 ++ l2) s body = (s' <- for_each l1 s body ;; for_each l2 s' body).
Proof.
  revert s. induction l1 as [|i l1 IH]; intros s; simpl; [reflexivity|].
  destruct (body i s); simpl; auto.
Qed.

Lemma for_each_ext {I S : Type} (l : list I) (s : S) (f g : I -> S -> result S) :
  (forall i s, In i l -> f i s = g i s) ->
  for_each l s f = for_each l s g.
Proof.
  revert s. induction l as [|i l IH]; intros s H; simpl; [reflexivity|].
  rewrite (H i s (or_introl eq_refl)).
  destruct (g i s); simpl; [|reflexivity].
  apply IH. intros; apply H; right; assumption.
Qed.

(** A loop that appends one computed value per item builds a [map]. *)
Lemma for_each_collect {I B : Type} (g : I -> result B) (g' : I -> B)
  (l : list I) (res : list B) :
  (forall i, In i l -> g i = Ok (g' i)) ->
  for_each l res (fun i res => v <- g i ;; Ok (res ++ [v]))
  = Ok (res ++ map g' l).
Proof.
  revert res. induction l as [|i l IH]; intros res H; simpl.
  - rewrite app_nil_r. reflexivity.
  - rewrite (H i (or_introl eq_refl)). simpl.
    rewrite IH by (intros; apply H; right; assumption).
    rewrite <- app_assoc. reflexivity.
Qed.

Lemma range_down_S (k : nat) : rev (seq 0 (S k)) = k :: rev (seq 0 k).
Proof. rewrite seq_S, rev_app_distr. reflexivity. Qed.

End RuntimeLemmas.

(* ================================================================== *)
(** * Validation of the samples                                        *)
(* ================================================================== *)

Module ValidateInput.

Import Interpolacion Props.

Lemma existsb_Qeq (a : Q) (t : list Q) :
  existsb (Qeq_bool a) t = true <-> exists b, In b t /\ a == b.
Proof.
  rewrite existsb_exists. split; intros [b [Hin Hb]]; exists b; split; auto.
  - apply Qeq_bool_iff. assumption.
  - apply Qeq_bool_iff. assumption.
Qed.

Lemma py_set_length_le (l : list Q) : (length (py_set l) <= length l)%nat.
Proof.
  induction l as [|a t IH]; simpl; [lia|].
  destruct (existsb (Qeq_bool a) t); simpl; lia.
Qed.

Lemma py_set_length_dup (l : list Q) :
  has_duplicates l -> (length (py_set l) < length l)%nat.
Proof.
  induction l as [|a t IH]; intros [i [j [Hij Heq]]]; simpl in *; [lia|].
  destruct (existsb (Qeq_bool a) t) eqn:Hex.
  - pose proof (py_set_length_le t). lia.
  - destruct i as [|i].
    + destruct j as [|j]; [lia|].
      assert (existsb (Qeq_bool a) t = true).
      { apply existsb_Qeq. exists (nth j t 0). split; [|assumption].
        apply nth_In. lia. }
      congruence.
    + destruct j as [|j]; [lia|].
      simpl. apply -> Nat.succ_lt_mono. apply IH.
      exists i, j. split; [lia | assumption].
Qed.

Lemma py_set_length_distinct (l : list Q) :
  length (py_set l) = length l -> distinct l.
Proof.
  induction l as [|a t IH]; simpl; [trivial|].
  destruct (existsb (Qeq_bool a) t) eqn:Hex.
  - intros H. pose proof (py_set_length_le t). lia.
  - simpl. intros H. split.
    + intros b Hin Hab.
      assert (existsb (Qeq_bool a) t = true)
        by (apply existsb_Qeq; exists b; auto).
      congruence.
    + apply IH. lia.
Qed.

Lemma py_set_length_of_distinct (l : list Q) :
  distinct l -> length (py_set l) = length l.
Proof.
  induction l as [|a t IH]; simpl; [reflexivity|].
  intros [Ha Ht]. destruct (existsb (Qeq_bool a) t) eqn:Hex.
  - apply existsb_Qeq in Hex. destruct Hex as [b [Hb Hab]].
    exfalso. exact (Ha b Hb Hab).
  - simpl. rewrite IH by exact Ht. reflexivity.
Qed.

Lemma check_numbers_ok (mk : nat -> pyfloat -> fstring) (i : nat) (l : list Q) :
  check_numbers mk i l = Ok tt.
Proof.
  revert i. induction l as [|v l IH]; intros i; simpl; auto.
Qed.

(** What an accepted sample set looks like. *)
Lemma validate_input_ok (x y : list Q) :
  _validate_input x y = Ok tt ->
  length x = length y /\ (2 <= length x)%nat /\ distinct x.
Proof.
  unfold _validate_input.
  destruct (Nat.eqb_spec (length x) 0); simpl; [discriminate|].
  destruct (Nat.eqb_spec (length y) 0); simpl; [discriminate|].
  destruct (Nat.eqb_spec (length x) (length y)); simpl; [|discriminate].
  destruct (Nat.ltb_spec (length x) 2); [discriminate|].
  destruct (Nat.eqb_spec (length (py_set x)) (length x)); simpl; [|discriminate].
  intros _. split; [assumption|]. split; [assumption|].
  apply py_set_length_distinct. assumption.
Qed.

Lemma validate_input_intro (x y : list Q) :
  length x = length y -> (2 <= length x)%nat -> distinct x ->
  _validate_input x y = Ok tt.
Proof.
  intros Hlen Hn Hd. unfold _validate_input.
  destruct (Nat.eqb_spec (length x) 0); [lia|].
  destruct (Nat.eqb_spec (length y) 0); [lia|]. simpl.
  rewrite <- Hlen, Nat.eqb_refl. simpl.
  destruct (Nat.ltb_spec (length x) 2); [lia|].
  rewrite (py_set_length_of_distinct x Hd), Nat.eqb_refl. simpl.
  rewrite check_numbers_ok. apply check_numbers_ok.
Qed.

Lemma validate_input_dup (x y : list Q) :
  has_duplicates x ->
  exists m, _validate_input x y = Err (ValueError m) /\
            (m = MsgListsEmpty \/ m = MsgLengthMismatch (length x) (length y)
             \/ m = MsgDuplicateX).
Proof.
  intros Hdup. pose proof (py_set_length_dup x Hdup) as Hlt.
  unfold _validate_input.
  destruct (Nat.eqb_spec (length x) 0); simpl; [eauto|].
  destruct (Nat.eqb_spec (length y) 0); simpl; [eauto|].
  destruct (Nat.eqb_spec (length x) (length y)); simpl; [|eauto].
  destruct (Nat.ltb_spec (length x) 2).
  - exfalso. destruct Hdup as [i [j [Hij _]]]. lia.
  - destruct (Nat.eqb_spec (length (py_set x)) (length x)); simpl; [lia|eauto 6].
Qed.

End ValidateInput.

(* ================================================================== *)
(** * Sorting the samples                                              *)
(* ================================================================== *)

Module SortPoints.

Import Interpolacion Props ValidateInput.

Lemma insert_by_key_perm (p : Q * Q) (l : list (Q * Q)) :
  Permutation (p :: l) (insert_by_key p l).
Proof.
  induction l as [|q t IH]; simpl; [apply Permutation_refl|].
  destruct (Qle_bool (fst p) (fst q)); [apply Permutation_refl|].
  eapply perm_trans; [apply perm_swap|]. apply perm_skip. exact IH.
Qed.

Lemma sort_by_key_perm (l : list (Q * Q)) : Permutation l (sort_by_key l).
Proof.
  induction l as [|p t IH]; simpl; [constructor|].
  eapply perm_trans; [apply perm_skip; exact IH|]. apply insert_by_key_perm.
Qed.

Lemma insert_by_key_sorted (p : Q * Q) (l : list (Q * Q)) :
  keys_sorted l -> keys_sorted (insert_by_key p l).
Proof.
  induction l as [|q t IH]; simpl; intros Hs.
  - split; [intros ? []|trivial].
  - destruct Hs as [Hq Ht].
    destruct (Qle_bool (fst p) (fst q)) eqn:Hle.
    + apply Qle_bool_iff in Hle. simpl. split; [|split; assumption].
      intros r [<-|Hr]; [assumption|].
      eapply Qle_trans; [exact Hle | apply Hq; assumption].
    + assert (Hqp : fst q <= fst p).
      { apply Qlt_le_weak. apply Qnot_le_lt. intros Hc.
        apply Qle_bool_iff in Hc. congruence. }
      simpl. split; [|apply IH; assumption].
      intros r Hr.
      apply (Permutation_in _ (Permutation_sym (insert_by_key_perm p t))) in Hr.
      destruct Hr as [<-|Hr]; [assumption | apply Hq; assumption].
Qed.

Lemma sort_by_key_sorted (l : list (Q * Q)) : keys_sorted (sort_by_key l).
Proof.
  induction l as [|p t IH]; simpl; [trivial|].
  apply insert_by_key_sorted. exact IH.
Qed.

Lemma distinct_perm (l l' : list Q) :
  Permutation l l' -> distinct l -> distinct l'.
Proof.
  induction 1 as [|a l l' Hp IH|a b l|l l' l'' _ IH1 _ IH2]; simpl.
  - trivial.
  - intros [Ha Hl]. split; [|apply IH; assumption].
    intros b Hb. apply Ha. apply (Permutation_in _ (Permutation_sym Hp)). exact Hb.
  - intros [Hb [Ha Hl]]. split; [|split].
    + intros c [<-|Hc]; [|apply Ha; assumption].
      intros E. apply (Hb a (or_introl eq_refl)). symmetry. exact E.
    + intros c Hc. apply Hb. right. exact Hc.
    + exact Hl.
  - auto.
Qed.

Lemma sorted_distinct_increasing (l : list (Q * Q)) :
  keys_sorted l -> distinct (map fst l) -> increasing (map fst l).
Proof.
  induction l as [|p t IH]; simpl; [trivial|].
  intros [Hp Ht] [Hd Hdt]. split; [|apply IH; assumption].
  intros b Hb. pose proof (Hd b Hb) as Hne.
  apply in_map_iff in Hb. destruct Hb as [q [<- Hq]].
  pose proof (Hp q Hq) as Hle. apply Qle_lt_or_eq in Hle.
  destruct Hle as [Hlt|Heq]; [assumption | contradiction].
Qed.

Lemma increasing_nth (l : list Q) (i j : nat) :
  increasing l -> (i < j < length l)%nat -> nth i l 0 < nth j l 0.
Proof.
  revert i j. induction l as [|a t IH]; intros i j Hinc Hij; simpl in *; [lia|].
  destruct Hinc as [Ha Ht].
  destruct j as [|j]; [lia|].
  destruct i as [|i].
  - apply Ha. apply nth_In. lia.
  - apply IH; [assumption | lia].
Qed.

Lemma combine_fst (x y : list Q) :
  length x = length y -> map fst (combine x y) = x.
Proof.
  revert y. induction x as [|a x IH]; intros [|b y] H; simpl in *;
    try reflexivity; try discriminate.
  f_equal. apply IH. lia.
Qed.

Lemma combine_snd (x y : list Q) :
  length x = length y -> map snd (combine x y) = y.
Proof.
  revert y. induction x as [|a x IH]; intros [|b y] H; simpl in *;
    try reflexivity; try discriminate.
  f_equal. apply IH. lia.
Qed.

Lemma combine_map_fst_snd (l : list (Q * Q)) :
  combine (map fst l) (map snd l) = l.
Proof.
  induction l as [|[a b] l IH]; simpl; [reflexivity|]. f_equal. exact IH.
Qed.

Lemma sort_points_spec (x y : list Q) :
  _validate_input x y = Ok tt ->
  sorted_samples x y (fst (_sort_points x y)) (snd (_sort_points x y)).
Proof.
  intros Hv. destruct (validate_input_ok x y Hv) as [Hlen [Hn Hd]].
  unfold _sort_points. simpl.
  pose proof (sort_by_key_perm (combine x y)) as Hp.
  constructor.
  - rewrite combine_map_fst_snd. exact Hp.
  - rewrite length_map, <- (Permutation_length Hp), length_combine. lia.
  - rewrite length_map, <- (Permutation_length Hp), length_combine. lia.
  - apply sorted_distinct_increasing; [apply sort_by_key_sorted|].
    apply (distinct_perm (map fst (combine x y))).
    + apply Permutation_map. exact Hp.
    + rewrite combine_fst by assumption. exact Hd.
Qed.

(** Every sample keeps its ordinate through the sort. *)
Lemma sorted_samples_position (x y xs ys : list Q) (i : nat) :
  length x = length y -> sorted_samples x y xs ys -> (i < length x)%nat ->
  exists k, (k < length xs)%nat /\ nth k xs 0 = nth i x 0 /\ nth k ys 0 = nth i y 0.
Proof.
  intros Hlen [Hp Hlx Hly _] Hi.
  assert (Hin : In (nth i x 0, nth i y 0) (combine xs ys)).
  { apply (Permutation_in _ Hp).
    rewrite <- (combine_nth x y i 0 0 Hlen). apply nth_In.
    rewrite length_combine. lia. }
  destruct (In_nth _ _ (0, 0) Hin) as [k [Hk Hnth]].
  rewrite length_combine in Hk.
  rewrite combine_nth in Hnth by lia.
  injection Hnth as H1 H2.
  exists k. split; [lia|]. split; assumption.
Qed.

End SortPoints.

(* ================================================================== *)
(** * Newton evaluation is the nested recurrence                       *)
(* ================================================================== *)

Module NewtonEval.

Import Interpolacion Props.

Lemma newton_loop_horner (x_nodes c : list Q) (xi : Q) (k : nat) (value : Q) :
  (k <= length x_nodes)%nat -> (k <= length c)%nat ->
  for_each (rev (seq 0 k)) value (fun i value =>
    xn <- getitem x_nodes i ;;
    ci <- getitem c i ;;
    Ok (value * (xi - xn) + ci))
  = Ok (horner_steps x_nodes c xi k value).
Proof.
  revert value. induction k as [|k IH]; intros value Hx Hc.
  - reflexivity.
  - rewrite range_down_S. simpl.
    rewrite (getitem_nth x_nodes k 0) by lia. simpl.
    rewrite (getitem_nth c k 0) by lia. simpl.
    apply IH; lia.
Qed.

Lemma newton_value_recurrence (x_nodes c : list Q) (xi : Q) :
  length x_nodes = length c -> (1 <= length c)%nat ->
  newton_value x_nodes c xi = Ok (newton_recurrence x_nodes c xi).
Proof.
  intros Hlen Hn. unfold newton_value, newton_recurrence.
  rewrite (getitem_neg_nth c 1 0) by lia. simpl.
  unfold range_down_from_nm2.
  apply newton_loop_horner; lia.
Qed.

(** C2. For node and coefficient vectors of equal length n >= 1,
    [eval_newton_poly] returns, for every query point, the value of the
    nested recurrence: start from c[n-1] and, for i = n-2 down to 0,
    replace value by value*(xi - x_nodes[i]) + c[i].  The equality is
    syntactic: the same operations in the same order. *)
Theorem eval_newton_poly_is_recurrence (x_nodes c xq : list Q) :
  length x_nodes = length c -> (1 <= length c)%nat ->
  eval_newton_poly x_nodes c xq = Ok (map (newton_recurrence x_nodes c) xq).
Proof.
  intros Hlen Hn. unfold eval_newton_poly.
  rewrite Hlen, Nat.eqb_refl. simpl.
  rewrite (for_each_collect (newton_value x_nodes c) (newton_recurrence x_nodes c)).
  - reflexivity.
  - intros xi _. apply newton_value_recurrence; assumption.
Qed.

Lemma eval_newton_poly_is_recurrence_witness :
  length ex_nodes = length ex_coeffs /\
  (1 <= length ex_coeffs)%nat /\
  eval_newton_poly ex_nodes ex_coeffs ex_queries
  = Ok (map (newton_recurrence ex_nodes ex_coeffs) ex_queries).
Proof.
  split; [reflexivity|]. split; [simpl; lia|].
  apply eval_newton_poly_is_recurrence; [reflexivity | simpl; lia].
Defined.

End NewtonEval.

(* ================================================================== *)
(** * Piecewise-linear interpolation reproduces the samples            *)
(* ================================================================== *)

Module LinearNodes.

Import Interpolacion Props ValidateInput SortPoints.

Lemma Qle_bool_false (a b : Q) : b < a -> Qle_bool a b = false.
Proof.
  intros H. destruct (Qle_bool a b) eqn:E; [|reflexivity].
  apply Qle_bool_iff in E. exfalso. exact (Qlt_not_le _ _ H E).
Qed.

Lemma Qle_bool_true (a b : Q) : a <= b -> Qle_bool a b = true.
Proof. intros H. apply Qle_bool_iff. exact H. Qed.

Lemma Qlt_bool_false (a b : Q) : b <= a -> Qlt_bool a b = false.
Proof. intros H. unfold Qlt_bool. rewrite Qle_bool_true by exact H. reflexivity. Qed.

Lemma Qlt_bool_true (a b : Q) : a < b -> Qlt_bool a b = true.
Proof. intros H. unfold Qlt_bool. rewrite Qle_bool_false by exact H. reflexivity. Qed.

Lemma py_div_ok (a b : Q) : ~ b == 0 -> py_div a b = Ok (a / b).
Proof.
  intros H. unfold py_div. destruct (Qeq_bool b 0) eqn:E; [|reflexivity].
  apply Qeq_bool_iff in E. contradiction.
Qed.

Lemma increasing_nth_le (l : list Q) (i j : nat) :
  increasing l -> (i <= j < length l)%nat -> nth i l 0 <= nth j l 0.
Proof.
  intros Hinc Hij. destruct (Nat.eq_dec i j) as [->|Hne].
  - apply Qle_refl.
  - apply Qlt_le_weak. apply increasing_nth; [assumption | lia].
Qed.

(** The scan passes over every segment that ends left of [xi]. *)
Lemma find_segment_skip (xs ys : list Q) (xi : Q) (idxs rest : list nat) :
  (forall i, In i idxs -> (i + 1 < length xs)%nat /\ nth (i + 1) xs 0 < xi) ->
  find_segment xs ys xi (idxs ++ rest) = find_segment xs ys xi rest.
Proof.
  induction idxs as [|i idxs IH]; intros H; simpl; [reflexivity|].
  destruct (H i (or_introl eq_refl)) as [Hi Hlt].
  rewrite (getitem_nth xs i 0) by lia. cbn [bind].
  rewrite (getitem_nth xs (i + 1) 0) by lia. cbn [bind].
  rewrite (Qle_bool_false xi (nth (i + 1) xs 0) Hlt).
  rewrite IH by (intros; apply H; right; assumption).
  destruct (Qle_bool (nth i xs 0) xi); reflexivity.
Qed.

(** The scan stops at the first segment that brackets [xi]. *)
Lemma find_segment_hit (xs ys : list Q) (xi : Q) (i : nat) (rest : list nat) :
  (i + 1 < length xs)%nat -> length ys = length xs ->
  nth i xs 0 <= xi -> xi <= nth (i + 1) xs 0 ->
  nth i xs 0 < nth (i + 1) xs 0 ->
  find_segment xs ys xi (i :: rest)
  = Ok (Some ((1 - (xi - nth i xs 0) / (nth (i + 1) xs 0 - nth i xs 0))
              * nth i ys 0
              + (xi - nth i xs 0) / (nth (i + 1) xs 0 - nth i xs 0)
                * nth (i + 1) ys 0)).
Proof.
  intros Hi Hlen Hlo Hhi Hlt. simpl.
  rewrite (getitem_nth xs i 0) by lia. cbn [bind].
  rewrite (Qle_bool_true _ _ Hlo).
  rewrite (getitem_nth xs (i + 1) 0) by lia. cbn [bind].
  rewrite (Qle_bool_true _ _ Hhi).
  rewrite py_div_ok by (intros E; lra). cbn [bind].
  rewrite (getitem_nth ys i 0) by lia. cbn [bind].
  rewrite (getitem_nth ys (i + 1) 0) by lia. reflexivity.
Qed.

Lemma find_segment_at_node (xs ys : list Q) (k : nat) :
  increasing xs -> length ys = length xs -> (2 <= length xs)%nat ->
  (k < length xs)%nat ->
  exists v, find_segment xs ys (nth k xs 0) (range (length xs - 1)) = Ok (Some v)
            /\ v == nth k ys 0.
Proof.
  intros Hinc Hlen Hn Hk. unfold range.
  destruct k as [|k].
  - replace (length xs - 1)%nat with (S (length xs - 2)) by lia.
    simpl seq.
    pose proof (increasing_nth xs 0 1 Hinc ltac:(lia)) as Hlt.
    rewrite (find_segment_hit xs ys (nth 0 xs 0) 0);
      [|simpl; lia|assumption|apply Qle_refl|apply Qlt_le_weak; exact Hlt|exact Hlt].
    eexists. split; [reflexivity|].
    change (0 + 1)%nat with 1%nat. field. lra.
  - replace (length xs - 1)%nat with (k + S (length xs - 2 - k))%nat by lia.
    rewrite seq_app. simpl seq at 2.
    rewrite find_segment_skip.
    2:{ intros i Hi. apply in_seq in Hi. split; [lia|].
        apply increasing_nth; [assumption | lia]. }
    change (0 + k)%nat with k.
    pose proof (increasing_nth xs k (S k) Hinc ltac:(lia)) as Hlt.
    replace (k + 1)%nat with (S k) in * by lia.
    assert (Hk1 : (k + 1 < length xs)%nat) by lia.
    pose proof (find_segment_hit xs ys (nth (S k) xs 0) k
                  (seq (S k) (length xs - 2 - k)) Hk1 Hlen) as Hhit.
    replace (k + 1)%nat with (S k) in Hhit by lia.
    rewrite Hhit; [|apply Qlt_le_weak; exact Hlt|apply Qle_refl|exact Hlt].
    eexists. split; [reflexivity|].
    field. lra.
Qed.

Lemma linear_step_at_node (xs ys : list Q) (k : nat) (yi : option Q) :
  increasing xs -> length ys = length xs -> (2 <= length xs)%nat ->
  (k < length xs)%nat ->
  exists v, linear_step xs ys (nth k xs 0) yi = Ok (Some v) /\ v == nth k ys 0.
Proof.
  intros Hinc Hlen Hn Hk. unfold linear_step.
  rewrite (getitem_nth xs 0 0) by lia. cbn [bind].
  rewrite (getitem_neg_nth xs 1 0) by lia. cbn [bind].
  rewrite (Qlt_bool_false (nth k xs 0) (nth 0 xs 0))
    by (apply increasing_nth_le; [assumption | lia]).
  rewrite (Qlt_bool_false (nth (length xs - 1) xs 0) (nth k xs 0))
    by (apply increasing_nth_le; [assumption | lia]).
  cbn [orb].
  destruct (find_segment_at_node xs ys k Hinc Hlen Hn Hk) as [v [Hf Hv]].
  rewrite Hf. cbn [bind]. exists v. split; [reflexivity | exact Hv].
Qed.



End LinearNodes.

(* ================================================================== *)
(** * Simpson rules: the subdivision count in use                      *)
(* ================================================================== *)

Module SimpsonAdjust.

Import Integracion Props.

Lemma validate_integration_ok (a b : pyfloat) (n : Z) :
  _validate_integration_params a b n = Ok tt ->
  exists qa qb, a = Fin qa /\ b = Fin qb /\ qa < qb /\ (1 <= n <= 10000)%Z.
Proof.
  unfold _validate_integration_params.
  destruct a as [qa| | |]; simpl; try discriminate.
  destruct b as [qb| | |]; simpl; try discriminate.
  unfold fge; simpl.
  destruct (Qle_bool qb qa) eqn:Hle; [discriminate|].
  destruct (Z.ltb_spec n 1); [discriminate|].
  destruct (n >? 10000)%Z eqn:Hgt; [discriminate|].
  intros _. exists qa, qb.
  split; [reflexivity|]. split; [reflexivity|]. split.
  - apply Qnot_le_lt. intros Hc. apply Qle_bool_iff in Hc. congruence.
  - rewrite Z.gtb_ltb in Hgt. apply Z.ltb_ge in Hgt. lia.
Qed.

Lemma validate_integration_intro (qa qb : Q) (n : Z) :
  qa < qb -> (1 <= n <= 10000)%Z ->
  _validate_integration_params (Fin qa) (Fin qb) n = Ok tt.
Proof.
  intros Hlt Hn. unfold _validate_integration_params; simpl.
  unfold fge; simpl.
  destruct (Qle_bool qb qa) eqn:Hle.
  - apply Qle_bool_iff in Hle. exfalso. apply (Qlt_not_le _ _ Hlt Hle).
  - destruct (Z.ltb_spec n 1); [lia|].
    destruct (n >? 10000)%Z eqn:Hgt; [|reflexivity].
    apply Z.gtb_lt in Hgt. lia.
Qed.

Lemma map_result_total {A B : Type} (f : A -> result B) (l : list A) :
  (forall a, exists b, f a = Ok b) ->
  exists l', map_result f l = Ok l' /\ length l' = length l.
Proof.
  intros Hf. induction l as [|a l [l' [IH Hlen]]]; simpl.
  - exists []. split; reflexivity.
  - destruct (Hf a) as [b Hb]. rewrite Hb, IH. simpl.
    exists (b :: l'). split; [reflexivity | simpl; congruence].
Qed.

Lemma sum_at_total (f_vals : list pyfloat) (idxs : list Z) (acc : pyfloat) :
  (forall i, In i idxs -> (Z.to_nat i < length f_vals)%nat) ->
  exists v, for_each idxs acc (fun i acc =>
              v <- getitem f_vals (Z.to_nat i) ;; Ok (fadd acc v)) = Ok v.
Proof.
  revert acc. induction idxs as [|i idxs IH]; intros acc H; simpl.
  - eauto.
  - rewrite (getitem_nth f_vals (Z.to_nat i) NaN) by (apply H; left; reflexivity).
    simpl. apply IH. intros; apply H; right; assumption.
Qed.

Lemma zrange_length (a b : Z) : length (zrange a b) = Z.to_nat (b - a).
Proof. unfold zrange. rewrite length_map, length_seq. reflexivity. Qed.

Lemma in_zrange (a b i : Z) : In i (zrange a b) <-> (a <= i < b)%Z.
Proof.
  unfold zrange. rewrite in_map_iff. split.
  - intros [k [<- Hk]]. apply in_seq in Hk. lia.
  - intros H. exists (Z.to_nat (i - a)). split; [lia|].
    apply in_seq. lia.
Qed.

Lemma in_zrange_step (a b step i : Z) :
  (0 < step)%Z -> In i (zrange_step a b step) -> (a <= i < b)%Z.
Proof.
  intros Hs. unfold zrange_step. rewrite in_map_iff.
  intros [k [<- Hk]]. apply in_seq in Hk.
  destruct Hk as [_ Hk]. simpl in Hk.
  set (q := ((b - a + step - 1) / step)%Z) in *.
  assert (Hq : (Z.of_nat k < q)%Z) by lia.
  assert (Hm : (step * q <= b - a + step - 1)%Z)
    by (apply Z.mul_div_le; lia).
  split; nia.
Qed.

Lemma simpson_13_run_returns (func : Callable) (a b : pyfloat) (n : Z) :
  (1 <= n)%Z -> total func ->
  exists r steps, simpson_13_run func a b n = Ok (r, steps).
Proof.
  intros Hn Hf. unfold simpson_13_run.
  destruct (map_result_total func
              (map (fun i => fadd a (fmul (of_int i) (fdiv (fsub b a) (of_int n))))
                   (zrange 0 (n + 1))) Hf) as [f_vals [-> Hlen]].
  rewrite length_map, zrange_length in Hlen. cbn [bind].
  assert (Hodd : forall i, In i (zrange_step 1 n 2) ->
                           (Z.to_nat i < length f_vals)%nat).
  { intros i Hi. apply in_zrange_step in Hi; lia. }
  assert (Heven : forall i, In i (zrange_step 2 n 2) ->
                            (Z.to_nat i < length f_vals)%nat).
  { intros i Hi. apply in_zrange_step in Hi; lia. }
  unfold sum_at.
  destruct (sum_at_total f_vals _ (Fin 0) Hodd) as [so ->].
  destruct (sum_at_total f_vals _ (Fin 0) Heven) as [se ->]. cbn [bind].
  rewrite (getitem_nth f_vals 0 NaN) by lia. cbn [bind].
  rewrite (getitem_nth f_vals (Z.to_nat n) NaN) by lia. cbn [bind].
  eauto.
Qed.

Lemma simpson_13_run_reports (func : Callable) (a b : pyfloat) (n : Z)
  (r : pyfloat) (steps : list step) :
  simpson_13_run func a b n = Ok (r, steps) -> reported_n steps = Some n.
Proof.
  unfold simpson_13_run. intros H.
  repeat (apply bind_inv_ok in H; destruct H as [? [_ H]]).
  injection H as _ <-. reflexivity.
Qed.

Lemma for_each_total {I S : Type} (idxs : list I) (s : S) (body : I -> S -> result S) :
  (forall i s, exists s', body i s = Ok s') ->
  exists s', for_each idxs s body = Ok s'.
Proof.
  intros Hb. revert s. induction idxs as [|i idxs IH]; intros s; simpl.
  - eauto.
  - destruct (Hb i s) as [s' ->]. simpl. apply IH.
Qed.

Lemma simpson_38_run_returns (func : Callable) (a b : pyfloat) (n : Z) :
  total func -> exists r steps, simpson_38_run func a b n = Ok (r, steps).
Proof.
  intros Hf. unfold simpson_38_run.
  destruct (Hf a) as [fa ->]. destruct (Hf b) as [fb ->]. cbn [bind].
  match goal with |- context [for_each ?l ?s ?body] =>
    destruct (for_each_total l s body) as [t ->] end.
  - intros i s. cbv beta.
    destruct (Hf (fadd a (fmul (of_int i) (fdiv (fsub b a) (of_int n))))) as [w ->].
    cbn [bind]. destruct (i mod 3 =? 0)%Z; eauto.
  - simpl. eauto.
Qed.

Lemma simpson_38_run_reports (func : Callable) (a b : pyfloat) (n : Z)
  (r : pyfloat) (steps : list step) :
  simpson_38_run func a b n = Ok (r, steps) -> reported_n steps = Some n.
Proof.
  unfold simpson_38_run. intros H.
  repeat (apply bind_inv_ok in H; destruct H as [? [_ H]]).
  injection H as _ <-. reflexivity.
Qed.

Lemma simpson_38_adjust_least (n : Z) :
  let m := simpson_38_adjust n in
  ((m mod 3 = 0) /\ n <= m /\
   (forall k, k mod 3 = 0 -> n <= k -> m <= k) /\
   (n mod 3 = 0 -> m = n))%Z.
Proof.
  unfold simpson_38_adjust.
  destruct (Z.eqb_spec (n mod 3) 0) as [H0|H0]; simpl.
  - repeat split; auto; lia.
  - pose proof (Z.div_mod n 3 ltac:(lia)) as Hdm.
    pose proof (Z.mod_pos_bound n 3 ltac:(lia)) as Hb.
    repeat split.
    + apply Z.mod_mul. lia.
    + lia.
    + intros k Hk Hle.
      pose proof (Z.div_mod k 3 ltac:(lia)) as Hk3. lia.
    + intros; contradiction.
Qed.

Lemma simpson_13_adjust_spec (n : Z) :
  simpson_13_adjust n = if Z.odd n then (n + 1)%Z else n.
Proof.
  unfold simpson_13_adjust.
  rewrite Zmod_odd. destruct (Z.odd n); reflexivity.
Qed.


Lemma parser_of_parses (func : Callable) (s : string) (v : pyfloat) :
  func (Fin 1) = Ok v -> np_isnan v = false ->
  string_is_empty s = false -> string_is_empty (py_strip s) = false ->
  _parse_function (parser_of func) s = Ok func.
Proof.
  intros H1 Hn He Hs. unfold _parse_function, parse_function_body.
  rewrite He, Hs. simpl. rewrite H1. simpl. rewrite Hn. reflexivity.
Qed.


Lemma simpson_38_compuesto_run (sl : string -> result Callable)
  (func_str : string) (func : Callable) (a b : pyfloat) (n : Z) :
  _validate_integration_params a b n = Ok tt ->
  _parse_function sl func_str = Ok func ->
  simpson_38_compuesto sl func_str a b n
  = simpson_38_run func a b (simpson_38_adjust n).
Proof.
  intros Hv Hp. unfold simpson_38_compuesto.
  rewrite Hv. cbn [bind]. rewrite Hp. reflexivity.
Qed.

Lemma simpson_38_adjust_over_cap (n : Z) :
  (1 <= n <= 10000)%Z ->
  (10000 < simpson_38_adjust n <-> n = 10000)%Z.
Proof.
  intros Hn. unfold simpson_38_adjust.
  pose proof (Z.div_mod n 3 ltac:(lia)) as Hdm.
  pose proof (Z.mod_pos_bound n 3 ltac:(lia)) as Hb.
  destruct (Z.eqb_spec (n mod 3) 0) as [H0|H0]; simpl.
  - split; [lia|]. intros ->. exfalso. vm_compute in H0. discriminate.
  - split; [lia|]. intros ->. vm_compute. reflexivity.
Qed.

(** C10 as stated fails at n = 9998: the parameters are accepted, 9998
    is not a multiple of 3, and the routine runs with 9999 subdivisions,
    not 10002. *)
Lemma simpson_38_at_9998 :
  (9998 <= 9998 <= 10000)%Z /\ (9998 mod 3 <> 0)%Z /\
  _validate_integration_params (Fin 0) (Fin 1) 9998 = Ok tt /\
  exists r steps,
    simpson_38_compuesto (parser_of func_id) "x" (Fin 0) (Fin 1) 9998
    = Ok (r, steps) /\
    reported_n steps = Some 9999%Z /\ reported_n steps <> Some 10002%Z.
Proof.
  split; [lia|]. split; [vm_compute; discriminate|]. split; [reflexivity|].
  rewrite (simpson_38_compuesto_run (parser_of func_id) "x" func_id
             (Fin 0) (Fin 1) 9998 eq_refl eq_refl).
  change (simpson_38_adjust 9998) with 9999%Z.
  destruct (simpson_38_run_returns func_id (Fin 0) (Fin 1) 9999) as [r [steps H]].
  - intros v. exists v. reflexivity.
  - exists r, steps. split; [exact H|].
    rewrite (simpson_38_run_reports _ _ _ _ _ _ H).
    split; [reflexivity | discriminate].
Qed.

(** C10, amended.  The cap of 10000 is tested on the n the caller
    passed, before Simpson 3/8 rounds it up.  Among the accepted n the
    rounded count exceeds the cap exactly for n = 10000: that call is
    accepted and runs with 10002 subdivisions, reported as [n_adjusted],
    a count that the same validation refuses. *)
Theorem simpson_38_exceeds_cap (sl : string -> result Callable)
  (func_str : string) (func : Callable) (qa qb : Q) :
  qa < qb ->
  _parse_function sl func_str = Ok func ->
  (forall n, (1 <= n <= 10000)%Z ->
     _validate_integration_params (Fin qa) (Fin qb) n = Ok tt /\
     simpson_38_compuesto sl func_str (Fin qa) (Fin qb) n
     = simpson_38_run func (Fin qa) (Fin qb) (simpson_38_adjust n) /\
     (10000 < simpson_38_adjust n <-> n = 10000)%Z) /\
  simpson_38_compuesto sl func_str (Fin qa) (Fin qb) 10000
  = simpson_38_run func (Fin qa) (Fin qb) 10002 /\
  (forall r steps, simpson_38_run func (Fin qa) (Fin qb) 10002 = Ok (r, steps) ->
                   reported_n steps = Some 10002%Z) /\
  (total func ->
   exists r steps, simpson_38_run func (Fin qa) (Fin qb) 10002 = Ok (r, steps)) /\
  _validate_integration_params (Fin qa) (Fin qb) 10002
  = Err (ValueError (MsgNTooLarge 10002)).
Proof.
  intros Hlt Hp.
  assert (Hv : forall n, (1 <= n <= 10000)%Z ->
               _validate_integration_params (Fin qa) (Fin qb) n = Ok tt)
    by (intros n Hn; apply validate_integration_intro; assumption).
  split; [|split; [|split; [|split]]].
  - intros n Hn. split; [apply Hv; assumption|]. split.
    + apply simpson_38_compuesto_run; [apply Hv; assumption | assumption].
    + apply simpson_38_adjust_over_cap; assumption.
  - rewrite (simpson_38_compuesto_run sl func_str func _ _ 10000);
      [reflexivity | apply Hv; lia | assumption].
  - intros r steps. apply simpson_38_run_reports.
  - intros Hf. apply simpson_38_run_returns; assumption.
  - unfold _validate_integration_params; simpl. unfold fge; simpl.
    destruct (Qle_bool qb qa) eqn:Hle; [|reflexivity].
    apply Qle_bool_iff in Hle. exfalso. apply (Qlt_not_le _ _ Hlt Hle).
Qed.

Lemma simpson_38_exceeds_cap_witness :
  0 < 1 /\
  _parse_function (parser_of func_id) "x" = Ok func_id /\
  simpson_38_compuesto (parser_of func_id) "x" (Fin 0) (Fin 1) 10000
  = simpson_38_run func_id (Fin 0) (Fin 1) 10002.
Proof.
  assert (H1 : 0 < 1) by reflexivity.
  split; [exact H1|]. split; [reflexivity|].
  apply (simpson_38_exceeds_cap (parser_of func_id) "x" func_id 0 1 H1 eq_refl).
Defined.

End SimpsonAdjust.

(* ================================================================== *)
(** * Validation comes first                                           *)
(* ================================================================== *)

Module Validation.

Import Props.

Lemma integration_rejects (a b : pyfloat) (n : Z) :
  fge a b = true ->
  exists e, Integracion._validate_integration_params a b n = Err e /\
            is_validation_error e = true.
Proof.
  intros H. unfold Integracion._validate_integration_params.
  destruct a as [qa| | |], b as [qb| | |]; simpl in *;
    try discriminate; try (eexists; split; reflexivity).
  rewrite H. eexists; split; reflexivity.
Qed.

Lemma derivative_rejects (x h : pyfloat) (order : Z) :
  fle h (Fin 0) = true \/ fgt h (Fin 1) = true ->
  exists e, Derivacion._validate_derivative_params x h order = Err e /\
            is_validation_error e = true.
Proof.
  intros H. unfold Derivacion._validate_derivative_params.
  destruct (np_isnan x || np_isinf x); [eexists; split; reflexivity|].
  destruct (fle h (Fin 0) || np_isnan h || np_isinf h) eqn:E1;
    [eexists; split; reflexivity|].
  destruct H as [H|H].
  - rewrite H in E1. discriminate.
  - rewrite H. eexists; split; reflexivity.
Qed.

(** C8. Validation raises before anything is computed.
    - Interpolation: when [x] holds the same value at two positions,
      each of the four routines fails with the error that
      [_validate_input] raises.
    - Integration: when [a >= b], each of the four routines fails with
      the error that [_validate_integration_params] raises, whatever
      the function text.
    - Differentiation: when [h <= 0] or [h > 1.0], each of the three
      routines fails with the error that [_validate_derivative_params]
      raises.
    In every case the error is one of the validation messages and no
    result is returned. *)
Theorem validation_rejects :
  (forall solve x y xq,
     has_duplicates x ->
     exists e,
       is_validation_error e = true /\
       Interpolacion._validate_input x y = Err e /\
       Interpolacion.linear_interpolate x y xq = Err e /\
       Interpolacion.newton_divided_diffs x y = Err e /\
       Interpolacion.lagrange_interpolate x y xq = Err e /\
       Interpolacion.cubic_spline_interpolate solve x y xq = Err e)
  /\
  (forall sl lg func_str a b n,
     fge a b = true ->
     exists e,
       is_validation_error e = true /\
       Integracion._validate_integration_params a b n = Err e /\
       Integracion.trapecio_compuesto sl func_str a b n = Err e /\
       Integracion.simpson_13_compuesto sl func_str a b n = Err e /\
       Integracion.simpson_38_compuesto sl func_str a b n = Err e /\
       Integracion.gauss_legendre sl lg func_str a b n = Err e)
  /\
  (forall sl func_str x h order,
     fle h (Fin 0) = true \/ fgt h (Fin 1) = true ->
     exists e,
       is_validation_error e = true /\
       Derivacion._validate_derivative_params x h order = Err e /\
       Derivacion.diff_adelante sl func_str x h order = Err e /\
       Derivacion.diff_atras sl func_str x h order = Err e /\
       Derivacion.diff_centrada sl func_str x h order = Err e).
Proof.
  split; [|split].
  - intros solve x y xq Hdup.
    destruct (ValidateInput.validate_input_dup x y Hdup) as [m [Hv Hm]].
    exists (ValueError m). split.
    { destruct Hm as [-> | [-> | ->]]; reflexivity. }
    split; [exact Hv|].
    unfold Interpolacion.linear_interpolate, Interpolacion.newton_divided_diffs,
      Interpolacion.lagrange_interpolate, Interpolacion.cubic_spline_interpolate.
    rewrite Hv. repeat split.
  - intros sl lg func_str a b n H.
    destruct (integration_rejects a b n H) as [e [Hv He]].
    exists e. split; [exact He|]. split; [exact Hv|].
    unfold Integracion.trapecio_compuesto, Integracion.simpson_13_compuesto,
      Integracion.simpson_38_compuesto, Integracion.gauss_legendre.
    rewrite Hv. repeat split.
  - intros sl func_str x h order H.
    destruct (derivative_rejects x h order H) as [e [Hv He]].
    exists e. split; [exact He|]. split; [exact Hv|].
    unfold Derivacion.diff_adelante, Derivacion.diff_atras,
      Derivacion.diff_centrada.
    rewrite Hv. repeat split.
Qed.

Lemma validation_rejects_witness :
  Interpolacion.linear_interpolate [1; 2; 1] [0; 0; 0] [1]
  = Err (ValueError MsgDuplicateX) /\
  Integracion.trapecio_compuesto (parser_of func_id) "x" (Fin 2) (Fin 2) 4
  = Err (ValueError (MsgLimitsOrder (Fin 2) (Fin 2))) /\
  Derivacion.diff_centrada (parser_of func_id) "x" (Fin 0) (Fin 2) 1
  = Err (ValueError (MsgStepTooLarge (Fin 2))).
Proof.
  destruct validation_rejects as [H1 [H2 H3]].
  split; [|split].
  - destruct (H1 (fun _ _ => Err LinAlgError) [1; 2; 1] [0; 0; 0] [1])
      as [e [_ [Hv [Hl _]]]].
    + exists 0%nat, 2%nat. split; [simpl; lia | reflexivity].
    + rewrite Hl. vm_compute in Hv. injection Hv as <-. reflexivity.
  - destruct (H2 (parser_of func_id) leggauss_zeros "x"%string (Fin 2) (Fin 2) 4%Z
                eq_refl) as [e [_ [Hv [Ht _]]]].
    rewrite Ht. vm_compute in Hv. injection Hv as <-. reflexivity.
  - destruct (H3 (parser_of func_id) "x"%string (Fin 0) (Fin 2) 1%Z
                (or_intror eq_refl)) as [e [_ [Hv [_ [_ Hc]]]]].
    rewrite Hc. vm_compute in Hv. injection Hv as <-. reflexivity.
Defined.

End Validation.

(* ================================================================== *)
(** * Finite differences: the check on the computed value             *)
(* ================================================================== *)

Module DiffCheck.

Import Derivacion Props.

Lemma validate_derivative_ok (x h : pyfloat) (order : Z) :
  _validate_derivative_params x h order = Ok tt ->
  exists qx qh, x = Fin qx /\ h = Fin qh /\ 0 < qh /\ qh <= 1 /\
                (order = 1 \/ order = 2 \/ order = 3 \/ order = 4)%Z.
Proof.
  unfold _validate_derivative_params.
  destruct x as [qx| | |]; simpl; try discriminate.
  destruct h as [qh| | |]; simpl; try discriminate.
  destruct (Qle_bool qh 0) eqn:H0; simpl; [discriminate|].
  unfold fgt, flt, Qlt_bool.
  destruct (Qle_bool qh 1) eqn:H1; simpl; [|discriminate].
  destruct (Qle_bool 1e-12 qh); simpl; [|discriminate].
  destruct (Z.ltb_spec order 1); simpl; [discriminate|].
  destruct (order >? 4)%Z eqn:H4; [discriminate|].
  intros _. exists qx, qh.
  split; [reflexivity|]. split; [reflexivity|]. split; [|split].
  - apply Qnot_le_lt. intros Hc. apply Qle_bool_iff in Hc. congruence.
  - apply Qle_bool_iff. assumption.
  - rewrite Z.gtb_ltb in H4. apply Z.ltb_ge in H4. lia.
Qed.

Ltac call_func Hf :=
  repeat match goal with
         | |- context [bind (?func ?p) _] =>
             let w := fresh "w" in
             let E := fresh "E" in
             destruct (Hf p) as [w E]; rewrite E; cbn [bind]
         end.

Lemma stencil_adelante_total (func : Callable) (x h : pyfloat) (order : Z) :
  total func -> (order = 1 \/ order = 2 \/ order = 3 \/ order = 4)%Z ->
  exists d formula, stencil_adelante func x h order = Ok (Some (d, formula)).
Proof.
  intros Hf [-> | [-> | [-> | ->]]]; unfold stencil_adelante;
    cbn [Z.eqb Pos.eqb]; call_func Hf; eauto.
Qed.

Lemma stencil_atras_total (func : Callable) (x h : pyfloat) (order : Z) :
  total func -> (order = 1 \/ order = 2 \/ order = 3 \/ order = 4)%Z ->
  exists d formula, stencil_atras func x h order = Ok (Some (d, formula)).
Proof.
  intros Hf [-> | [-> | [-> | ->]]]; unfold stencil_atras;
    cbn [Z.eqb Pos.eqb]; call_func Hf; eauto.
Qed.

Lemma stencil_centrada_total (func : Callable) (x h : pyfloat) (order : Z) :
  total func -> (order = 1 \/ order = 2 \/ order = 3 \/ order = 4)%Z ->
  exists d formula, stencil_centrada func x h order = Ok (Some (d, formula)).
Proof.
  intros Hf [-> | [-> | [-> | ->]]]; unfold stencil_centrada;
    cbn [Z.eqb Pos.eqb]; call_func Hf; eauto.
Qed.

Lemma check_result_cases (m : diff_method) (d : pyfloat) (formula : string) :
  (is_finite d = false ->
   try_except (check_result (Some (d, formula)))
     (fun e => ValueError (MsgDerivError m e))
   = Err (ValueError (MsgDerivError m (ValueError (MsgNonFinite d))))) /\
  (is_finite d = true ->
   try_except (check_result (Some (d, formula)))
     (fun e => ValueError (MsgDerivError m e))
   = Ok (d, formula)).
Proof.
  destruct d; simpl; split; intros H; try discriminate; reflexivity.
Qed.


Lemma func_undefined_below_0_total : total func_undefined_below_0.
Proof.
  intros [q| | |]; simpl; eauto.
  destruct (Qlt_bool q 0); eauto.
Qed.


End DiffCheck.

(* ================================================================== *)
(** * Quadrature: what happens when the integrand fails                *)
(* ================================================================== *)

Module IntegrandFailure.

Import Integracion Props.

Lemma for_each_first_failure {I S : Type} (func : Callable) (pt : I -> pyfloat)
  (idxs : list I) (body : I -> S -> result S) (s : S) :
  (forall i s, In i idxs ->
     match func (pt i) with
     | Err e => body i s = Err e
     | Ok _ => exists s', body i s = Ok s'
     end) ->
  (exists i e, In i idxs /\ func (pt i) = Err e) ->
  exists i e, In i idxs /\ func (pt i) = Err e /\ for_each idxs s body = Err e.
Proof.
  revert s. induction idxs as [|i idxs IH]; intros s Hb [j [e [Hj He]]].
  - destruct Hj.
  - simpl. pose proof (Hb i s (or_introl eq_refl)) as Hi.
    destruct (func (pt i)) as [v|e'] eqn:Ei.
    + destruct Hi as [s' Hs']. rewrite Hs'. cbn [bind].
      destruct (IH s') as [k [e'' [Hk [Hke Hfor]]]].
      * intros; apply Hb; right; assumption.
      * destruct Hj as [<-|Hj]; [congruence|]. eauto.
      * exists k, e''. split; [right; assumption|]. split; assumption.
    + rewrite Hi. cbn [bind]. exists i, e'.
      split; [left; reflexivity|]. split; [assumption | reflexivity].
Qed.

Ltac case_call :=
  match goal with
  | |- match ?func ?q with Ok _ => _ | Err _ => _ end => destruct (func q)
  end.

Lemma map_result_first_failure (func : Callable) (l : list pyfloat) :
  raises_on func l ->
  exists p e, In p l /\ func p = Err e /\ map_result func l = Err e.
Proof.
  induction l as [|a l IH]; intros [p [e [Hin He]]].
  - destruct Hin.
  - simpl. destruct (func a) as [v|e'] eqn:Ea.
    + destruct Hin as [<-|Hin]; [congruence|].
      destruct IH as [p' [e'' [Hin' [He' Hm]]]]; [exists p, e; auto|].
      exists p', e''. rewrite Hm. auto.
    + exists a, e'. auto.
Qed.

Lemma gauss_data_shape (n : Z) (nodes weights : list Q) :
  gauss_data n = Some (nodes, weights) ->
  length nodes = Z.to_nat n /\ length weights = Z.to_nat n.
Proof.
  unfold gauss_data.
  repeat match goal with
         | |- context [(n =? ?k)%Z] => destruct (Z.eqb_spec n k); [subst n|]
         end;
    intros H; try discriminate; injection H as <- <-; split; reflexivity.
Qed.

Lemma gauss_nodes_shape (lg : Z -> list Q * list Q) (n : Z) :
  leggauss_shape lg -> (1 <= n <= 10)%Z ->
  length (fst (gauss_nodes lg n)) = Z.to_nat n /\
  length (snd (gauss_nodes lg n)) = Z.to_nat n.
Proof.
  intros Hlg Hn. unfold gauss_nodes.
  destruct (gauss_data n) as [[nodes weights]|] eqn:E.
  - apply gauss_data_shape. assumption.
  - apply Hlg.
    unfold gauss_data in E.
    repeat match type of E with
           | context [(n =? ?k)%Z] => destruct (Z.eqb_spec n k); [discriminate|]
           end.
    lia.
Qed.

Lemma trapecio_run_failure (func : Callable) (a b : pyfloat) (n : Z) :
  raises_on func (trapecio_samples a b n) ->
  exists p e, In p (trapecio_samples a b n) /\ func p = Err e /\
              trapecio_run func a b n = Err e.
Proof.
  intros [p [e [Hin He]]]. unfold trapecio_run.
  destruct (func a) as [fa|ea] eqn:Ea.
  2:{ exists a, ea. split; [left; reflexivity|]. auto. }
  destruct (func b) as [fb|eb] eqn:Eb.
  2:{ exists b, eb. split; [right; left; reflexivity|]. auto. }
  cbn [bind].
  match goal with |- context [for_each ?l ?s ?body] =>
    destruct (for_each_first_failure func (grid a b n) l body s)
      as [i [e' [Hi [Hfi Hfor]]]] end.
  - intros i [sm st] _. unfold grid. case_call; cbn [bind]; eauto.
  - destruct Hin as [<-|[<-|Hin]]; try congruence.
    apply in_map_iff in Hin. destruct Hin as [i [<- Hi]]. eauto.
  - exists (grid a b n i), e'. rewrite Hfor.
    split; [right; right; apply in_map; assumption|]. auto.
Qed.

Lemma simpson_13_run_failure (func : Callable) (a b : pyfloat) (n : Z) :
  raises_on func (simpson_13_samples a b n) ->
  exists p e, In p (simpson_13_samples a b n) /\ func p = Err e /\
              simpson_13_run func a b n = Err e.
Proof.
  intros H. destruct (map_result_first_failure func _ H) as [p [e [Hin [He Hm]]]].
  exists p, e. split; [assumption|]. split; [assumption|].
  unfold simpson_13_run. unfold simpson_13_samples, grid in Hm.
  rewrite Hm. reflexivity.
Qed.

Lemma simpson_38_run_failure (func : Callable) (a b : pyfloat) (n : Z) :
  raises_on func (simpson_38_samples a b n) ->
  exists p e, In p (simpson_38_samples a b n) /\ func p = Err e /\
              simpson_38_run func a b n = Err e.
Proof.
  intros [p [e [Hin He]]]. unfold simpson_38_run.
  destruct (func a) as [fa|ea] eqn:Ea.
  2:{ exists a, ea. split; [left; reflexivity|]. auto. }
  destruct (func b) as [fb|eb] eqn:Eb.
  2:{ exists b, eb. split; [right; left; reflexivity|]. auto. }
  cbn [bind].
  match goal with |- context [for_each ?l ?s ?body] =>
    destruct (for_each_first_failure func (grid a b n) l body s)
      as [i [e' [Hi [Hfi Hfor]]]] end.
  - intros i s _. unfold grid. case_call; cbn [bind]; [|reflexivity].
    destruct (i mod 3 =? 0)%Z; eauto.
  - destruct Hin as [<-|[<-|Hin]]; try congruence.
    apply in_map_iff in Hin. destruct Hin as [i [<- Hi]]. eauto.
  - exists (grid a b n i), e'. rewrite Hfor.
    split; [right; right; apply in_map; assumption|]. auto.
Qed.

Lemma gauss_run_failure (lg : Z -> list Q * list Q) (func : Callable)
  (a b : pyfloat) (n : Z) :
  leggauss_shape lg -> (1 <= n <= 10)%Z ->
  raises_on func (gauss_samples lg a b n) ->
  exists p e, In p (gauss_samples lg a b n) /\ func p = Err e /\
              gauss_run lg func a b n = Err e.
Proof.
  intros Hlg Hn [p [e [Hin He]]].
  destruct (gauss_nodes_shape lg n Hlg Hn) as [Hln Hlw].
  unfold gauss_run, gauss_samples in *. unfold gauss_nodes in *.
  destruct (match gauss_data n with Some nw => nw | None => lg n end)
    as [nodes weights] eqn:Enw.
  simpl fst in *. simpl snd in *.
  rewrite map_map.
  set (tn := map (fun nd => fadd (fmul (fdiv (fsub b a) (Fin 2)) (Fin nd))
                                 (fdiv (fadd a b) (Fin 2))) nodes) in *.
  assert (Htn : length tn = Z.to_nat n) by (unfold tn; rewrite length_map; exact Hln).
  match goal with |- context [for_each ?l ?s ?body] =>
    destruct (for_each_first_failure func (fun i => nth (Z.to_nat i) tn NaN) l body s)
      as [i [e' [Hi [Hfi Hfor]]]] end.
  - intros i [sm st] Hi. apply SimpsonAdjust.in_zrange in Hi.
    rewrite (getitem_nth tn (Z.to_nat i) NaN) by lia. cbn [bind].
    case_call; cbn [bind]; [|reflexivity].
    rewrite (getitem_nth (map Fin weights) (Z.to_nat i) NaN)
      by (rewrite length_map; lia).
    cbn [bind]. eauto.
  - destruct (In_nth tn p NaN Hin) as [k [Hk Hp]].
    exists (Z.of_nat k), e. split.
    + apply SimpsonAdjust.in_zrange. lia.
    + rewrite Nat2Z.id, Hp. assumption.
  - exists (nth (Z.to_nat i) tn NaN), e'. rewrite Hfor.
    apply SimpsonAdjust.in_zrange in Hi.
    split; [apply nth_In; lia|]. auto.
Qed.



Lemma leggauss_zeros_shape : leggauss_shape leggauss_zeros.
Proof.
  intros k _. unfold leggauss_zeros. simpl. rewrite !repeat_length. auto.
Qed.


End IntegrandFailure.

(* ================================================================== *)
(** * Gauss-Legendre: the tabulated rules                              *)
(* ================================================================== *)

Module GaussTable.

Import Integracion Props.

(** With one node the rule is the midpoint rule, exact on every
    polynomial of degree at most 1. *)
Lemma gauss_one_node_exact (lg : Z -> list Q * list Q) (c0 c1 a b : Q) :
  exists r steps,
    gauss_run lg (poly_callable [c0; c1]) (Fin a) (Fin b) 1 = Ok (Fin r, steps) /\
    r == poly_integral [c0; c1] a b.
Proof.
  eexists. eexists. split; [reflexivity|].
  unfold poly_integral. simpl. field.
Qed.

(** C5 at two inputs.  The integrands are polynomials of degree 0 and 3,
    within 2n-1 for n = 3 and n = 2.  With three nodes the constant 1
    over [0, 1] gives 1.00000000005 (the tabulated weights add up to
    2.0000000001); with two nodes x^3 over [0, 1] gives
    0.25000000000449217574 (the tabulated node is not 1/sqrt 3).
    Neither is the integral of the polynomial, 1 and 1/4. *)
Theorem gauss_legendre_table_not_exact (lg : Z -> list Q * list Q) :
  (exists r steps,
      gauss_legendre (parser_of (poly_callable [1])) lg "1" (Fin 0) (Fin 1) 3
      = Ok (Fin r, steps) /\
      r == 1.00000000005 /\ ~ r == poly_integral [1] 0 1)
  /\
  (exists r steps,
      gauss_legendre (parser_of (poly_callable [0; 0; 0; 1])) lg "x**3"
        (Fin 0) (Fin 1) 2
      = Ok (Fin r, steps) /\
      r == 0.25000000000449217574 /\ ~ r == poly_integral [0; 0; 0; 1] 0 1).
Proof.
  split.
  - eexists. eexists. split; [vm_compute; reflexivity|].
    split; [vm_compute; reflexivity|].
    intros H. vm_compute in H. discriminate.
  - eexists. eexists. split; [vm_compute; reflexivity|].
    split; [vm_compute; reflexivity|].
    intros H. vm_compute in H. discriminate.
Qed.

End GaussTable.

(* ================================================================== *)
(** * Lagrange form and divided differences                            *)
(* ================================================================== *)

Module PolyFacts.

Import Interpolacion ValidateInput Props.

(** Closes the non-zero side conditions that [field] leaves. *)
Ltac nonzero :=
  repeat split;
  first [ assumption
        | lra
        | let E := fresh "E" in
          intros E;
          match goal with H : ~ _ == _ |- _ => apply H; lra end ].

Lemma sum_over_app {A : Type} (f : A -> Q) (l1 l2 : list A) :
  sum_over f (l1 ++ l2) == sum_over f l1 + sum_over f l2.
Proof.
  induction l1 as [|a l1 IH]; simpl; [ring|]. rewrite IH. ring.
Qed.

Lemma sum_over_ext {A : Type} (f g : A -> Q) (l : list A) :
  (forall a, In a l -> f a == g a) -> sum_over f l == sum_over g l.
Proof.
  induction l as [|a l IH]; intros H; simpl; [reflexivity|].
  rewrite (H a (or_introl eq_refl)), IH; [reflexivity|].
  intros; apply H; right; assumption.
Qed.

Lemma sum_over_plus {A : Type} (f g : A -> Q) (l : list A) :
  sum_over (fun a => f a + g a) l == sum_over f l + sum_over g l.
Proof.
  induction l as [|a l IH]; simpl; [ring|]. rewrite IH. ring.
Qed.

Lemma sum_over_scale {A : Type} (f : A -> Q) (c : Q) (l : list A) :
  sum_over (fun a => f a * c) l == sum_over f l * c.
Proof.
  induction l as [|a l IH]; simpl; [ring|]. rewrite IH. ring.
Qed.

Lemma sum_over_diff_quot {A : Type} (f g : A -> Q) (c : Q) (l : list A) :
  sum_over (fun a => (f a - g a) / c) l == (sum_over f l - sum_over g l) / c.
Proof.
  unfold Qdiv. induction l as [|a l IH]; simpl; [ring|]. rewrite IH. ring.
Qed.

Lemma sum_over_perm {A : Type} (f : A -> Q) (l l' : list A) :
  Permutation l l' -> sum_over f l == sum_over f l'.
Proof.
  induction 1; simpl.
  - reflexivity.
  - rewrite IHPermutation. reflexivity.
  - ring.
  - etransitivity; eassumption.
Qed.

Lemma prod_over_app {A : Type} (f : A -> Q) (l1 l2 : list A) :
  prod_over f (l1 ++ l2) == prod_over f l1 * prod_over f l2.
Proof.
  induction l1 as [|a l1 IH]; simpl; [ring|]. rewrite IH. ring.
Qed.

Lemma prod_over_nonzero {A : Type} (f : A -> Q) (l : list A) :
  (forall a, In a l -> ~ f a == 0) -> ~ prod_over f l == 0.
Proof.
  induction l as [|a l IH]; intros H; simpl.
  - intros E. discriminate.
  - intros E. apply Qmult_integral in E. destruct E as [E|E].
    + exact (H a (or_introl eq_refl) E).
    + apply IH; [|exact E]. intros; apply H; right; assumption.
Qed.

Lemma prod_over_perm {A : Type} (f : A -> Q) (l l' : list A) :
  Permutation l l' -> prod_over f l == prod_over f l'.
Proof.
  induction 1; simpl.
  - reflexivity.
  - rewrite IHPermutation. reflexivity.
  - ring.
  - etransitivity; eassumption.
Qed.

(** ** The other nodes *)

Lemma in_others (a b : Q) (l : list Q) :
  In b (others a l) <-> In b l /\ ~ b == a.
Proof.
  unfold others. rewrite filter_In. split; intros [H1 H2]; split; auto.
  - intros E. apply Qeq_bool_iff in E. rewrite E in H2. discriminate.
  - destruct (Qeq_bool b a) eqn:E; [|reflexivity].
    apply Qeq_bool_iff in E. contradiction.
Qed.

Lemma others_app (a : Q) (l1 l2 : list Q) :
  others a (l1 ++ l2) = others a l1 ++ others a l2.
Proof. unfold others. apply filter_app. Qed.

Lemma others_cons_neq (a b : Q) (l : list Q) :
  ~ b == a -> others a (b :: l) = b :: others a l.
Proof.
  intros H. unfold others. simpl.
  destruct (Qeq_bool b a) eqn:E; [|reflexivity].
  apply Qeq_bool_iff in E. contradiction.
Qed.

Lemma others_cons_eq (a b : Q) (l : list Q) :
  b == a -> others a (b :: l) = others a l.
Proof.
  intros H. unfold others. simpl.
  apply Qeq_bool_iff in H. rewrite H. reflexivity.
Qed.

Lemma others_notin (a : Q) (l : list Q) :
  (forall b, In b l -> ~ b == a) -> others a l = l.
Proof.
  induction l as [|b l IH]; intros H; [reflexivity|].
  rewrite others_cons_neq by (apply H; left; reflexivity).
  f_equal. apply IH. intros; apply H; right; assumption.
Qed.

Lemma others_perm (a : Q) (l l' : list Q) :
  Permutation l l' -> Permutation (others a l) (others a l').
Proof.
  induction 1 as [|b l l' Hp IH|b c l|l l' l'' _ IH1 _ IH2].
  - constructor.
  - unfold others in *. simpl. destruct (negb (Qeq_bool b a)); auto.
  - unfold others. simpl.
    destruct (negb (Qeq_bool b a)), (negb (Qeq_bool c a)); auto.
    apply perm_swap.
  - eapply perm_trans; eassumption.
Qed.

Lemma weight_nonzero (ctx : list Q) (a : Q) : ~ weight ctx a == 0.
Proof.
  unfold weight, prod_diff. apply prod_over_nonzero.
  intros b Hb E. apply in_others in Hb. destruct Hb as [_ Hne].
  apply Hne. lra.
Qed.

Lemma basis_quot (ctx : list Q) (q a : Q) :
  basis ctx q a == prod_diff q (others a ctx) / weight ctx a.
Proof.
  unfold basis, weight, prod_diff.
  assert (H : forall l, (forall b, In b l -> ~ b == a) ->
            prod_over (fun b => (q - b) / (a - b)) l
            == prod_over (fun b => q - b) l / prod_over (fun b => a - b) l).
  { induction l as [|b l IH]; intros Hl; simpl; [field; discriminate|].
    rewrite IH by (intros; apply Hl; right; assumption).
    assert (~ b == a) by (apply Hl; left; reflexivity).
    assert (~ prod_over (fun b0 => a - b0) l == 0).
    { apply prod_over_nonzero. intros c Hc E.
      apply (Hl c (or_intror Hc)). lra. }
    field. nonzero. }
  apply H. intros b Hb. apply in_others in Hb. tauto.
Qed.

(** ** Distinct nodes *)

Lemma distinct_app_inv (l1 l2 : list Q) :
  distinct (l1 ++ l2) ->
  distinct l1 /\ distinct l2 /\
  (forall a b, In a l1 -> In b l2 -> ~ a == b).
Proof.
  induction l1 as [|c l1 IH]; simpl; intros H.
  - split; [trivial|]. split; [assumption|]. intros a b [].
  - destruct H as [Hc Hd]. destruct (IH Hd) as [H1 [H2 H12]].
    split; [split; [|assumption]|split; [assumption|]].
    + intros b Hb. apply Hc. apply in_or_app. left. exact Hb.
    + intros a b [<-|Ha] Hb.
      * apply Hc. apply in_or_app. right. exact Hb.
      * apply H12; assumption.
Qed.

Lemma distinct_in_neq (a b : Q) (l1 l2 : list Q) :
  distinct (l1 ++ a :: l2) -> In b (l1 ++ l2) -> ~ b == a.
Proof.
  intros Hd Hb. apply distinct_app_inv in Hd.
  destruct Hd as [_ [[Ha _] H12]].
  apply in_app_or in Hb. destruct Hb as [Hb|Hb].
  - apply H12; [assumption | left; reflexivity].
  - intros E. apply (Ha b Hb). symmetry. exact E.
Qed.

Lemma prod_diff_split (q a : Q) (X : list Q) :
  distinct X -> In a X ->
  prod_diff q X == (q - a) * prod_diff q (others a X).
Proof.
  unfold prod_diff.
  induction X as [|b t IH]; intros Hd Hin; [destruct Hin|].
  destruct Hd as [Hb Ht]. destruct Hin as [->|Hin].
  - rewrite others_cons_eq by reflexivity.
    rewrite others_notin; [reflexivity|].
    intros c Hc E. apply (Hb c Hc). symmetry. exact E.
  - rewrite others_cons_neq by (apply Hb; exact Hin).
    simpl. rewrite IH by assumption. ring.
Qed.

(** ** Adding a node on the right *)

Lemma basis_snoc (X : list Q) (xp q a : Q) :
  ~ xp == a ->
  basis (X ++ [xp]) q a == basis X q a * ((q - xp) / (a - xp)).
Proof.
  intros Hne. unfold basis. rewrite others_app, prod_over_app.
  rewrite (others_cons_neq a xp []) by assumption.
  simpl. ring.
Qed.

Lemma weight_snoc (X : list Q) (xp a : Q) :
  ~ xp == a ->
  weight (X ++ [xp]) a == weight X a * (a - xp).
Proof.
  intros Hne. unfold weight, prod_diff. rewrite others_app, prod_over_app.
  rewrite (others_cons_neq a xp []) by assumption.
  simpl. ring.
Qed.

Lemma weight_cons (X : list Q) (x0 a : Q) :
  ~ x0 == a ->
  weight (x0 :: X) a == (a - x0) * weight X a.
Proof.
  intros Hne. unfold weight, prod_diff.
  rewrite others_cons_neq by assumption. reflexivity.
Qed.

Lemma others_last (X : list Q) (xp : Q) :
  (forall a, In a X -> ~ a == xp) -> others xp (X ++ [xp]) = X.
Proof.
  intros H. rewrite others_app, others_notin by assumption.
  rewrite (others_cons_eq xp xp []) by reflexivity.
  apply app_nil_r.
Qed.

Lemma others_first (X : list Q) (x0 : Q) :
  (forall a, In a X -> ~ a == x0) -> others x0 (x0 :: X) = X.
Proof.
  intros H. rewrite others_cons_eq by reflexivity.
  apply others_notin. assumption.
Qed.

(** The Lagrange interpolant of one more point differs from the
    previous one by the new divided difference times the node product:
    the step of Newton's form. *)
Lemma lagrange_poly_snoc (ps : list (Q * Q)) (p : Q * Q) (q : Q) :
  distinct (map fst (ps ++ [p])) ->
  lagrange_poly (ps ++ [p]) q
  == lagrange_poly ps q
     + divided_difference (ps ++ [p]) * prod_diff q (map fst ps).
Proof.
  intros Hd. rewrite map_app in Hd. simpl in Hd.
  destruct (distinct_app_inv _ _ Hd) as [HdX [_ Hxp]].
  set (X := map fst ps) in *. set (xp := fst p) in *.
  assert (Hne : forall a, In a X -> ~ a == xp).
  { intros a Ha. apply Hxp; [assumption | left; reflexivity]. }
  unfold lagrange_poly, divided_difference.
  rewrite map_app. simpl map. fold X. fold xp.
  rewrite !sum_over_app. simpl sum_over.
  rewrite Qmult_plus_distr_l.
  rewrite <- (sum_over_scale (fun p0 => snd p0 / weight (X ++ [xp]) (fst p0))).
  assert (Hmid : sum_over (fun p0 => snd p0 * basis (X ++ [xp]) q (fst p0)) ps
                 == sum_over (fun p0 => snd p0 * basis X q (fst p0)) ps
                    + sum_over (fun p0 => snd p0 / weight (X ++ [xp]) (fst p0)
                                          * prod_diff q X) ps).
  { rewrite <- sum_over_plus. apply sum_over_ext.
    intros [a y] Hin. simpl.
    assert (Ha : In a X) by (apply in_map_iff; exists (a, y); auto).
    assert (Hax : ~ xp == a) by (intros E; apply (Hne a Ha); symmetry; exact E).
    rewrite basis_snoc, weight_snoc by assumption.
    rewrite (prod_diff_split q a X HdX Ha).
    rewrite basis_quot.
    pose proof (weight_nonzero X a).
    field. nonzero. }
  rewrite Hmid.
  assert (Hlast : snd p * basis (X ++ [xp]) q xp
                  == snd p / weight (X ++ [xp]) xp * prod_diff q X).
  { rewrite basis_quot.
    unfold weight. rewrite (others_last X xp Hne).
    assert (~ prod_diff xp X == 0).
    { apply prod_over_nonzero. intros b Hb E. apply (Hne b Hb). lra. }
    field. assumption. }
  fold xp. rewrite Hlast. ring.
Qed.

(** ** The recurrence of the divided differences *)

(** f[x_0..x_k] = (f[x_1..x_k] - f[x_0..x_{k-1}]) / (x_k - x_0). *)
Lemma divided_difference_rec (p0 p1 : Q * Q) (mid : list (Q * Q)) :
  distinct (map fst (p0 :: mid ++ [p1])) ->
  divided_difference (p0 :: mid ++ [p1])
  == (divided_difference (mid ++ [p1]) - divided_difference (p0 :: mid))
     / (fst p1 - fst p0).
Proof.
  intros Hd. simpl in Hd. rewrite map_app in Hd. simpl in Hd.
  destruct Hd as [H0 Hd].
  destruct (distinct_app_inv _ _ Hd) as [HdM [_ HM1]].
  set (M := map fst mid) in *. set (x0 := fst p0) in *. set (x1 := fst p1) in *.
  assert (H01 : ~ x0 == x1).
  { apply H0. apply in_or_app. right. left. reflexivity. }
  assert (H0M : forall a, In a M -> ~ a == x0).
  { intros a Ha E. apply (H0 a); [apply in_or_app; left; exact Ha|].
    symmetry. exact E. }
  assert (H1M : forall a, In a M -> ~ a == x1).
  { intros a Ha. apply HM1; [assumption | left; reflexivity]. }
  unfold divided_difference.
  simpl map. rewrite map_app. simpl map. fold M x0 x1.
  simpl sum_over. rewrite !sum_over_app. simpl sum_over.
  (* the three kinds of terms *)
  assert (T0 : snd p0 / weight (x0 :: M ++ [x1]) x0
               == - (snd p0 / weight (x0 :: M) x0) / (x1 - x0)).
  { unfold weight.
    rewrite others_first.
    2:{ intros a Ha. apply in_app_or in Ha. destruct Ha as [Ha|[<-|[]]].
        - apply H0M. assumption.
        - intros E. apply H01. symmetry. exact E. }
    rewrite (others_first M x0 H0M).
    unfold prod_diff. rewrite prod_over_app. simpl.
    assert (~ prod_over (fun b => x0 - b) M == 0).
    { apply prod_over_nonzero. intros b Hb E. apply (H0M b Hb). lra. }
    field. nonzero. }
  assert (T1 : snd p1 / weight (x0 :: M ++ [x1]) x1
               == snd p1 / weight (M ++ [x1]) x1 / (x1 - x0)).
  { rewrite weight_cons by assumption.
    pose proof (weight_nonzero (M ++ [x1]) x1).
    field. nonzero. }
  assert (TM : sum_over (fun p => snd p / weight (x0 :: M ++ [x1]) (fst p)) mid
               == (sum_over (fun p => snd p / weight (M ++ [x1]) (fst p)) mid
                   - sum_over (fun p => snd p / weight (x0 :: M) (fst p)) mid)
                  / (x1 - x0)).
  { rewrite <- sum_over_diff_quot.
    apply sum_over_ext. intros [a y] Hin. simpl.
    assert (Ha : In a M) by (apply in_map_iff; exists (a, y); auto).
    assert (Ha0 : ~ x0 == a) by (intros E; apply (H0M a Ha); symmetry; exact E).
    assert (Ha1 : ~ x1 == a) by (intros E; apply (H1M a Ha); symmetry; exact E).
    rewrite (weight_cons (M ++ [x1]) x0 a Ha0).
    rewrite (weight_snoc M x1 a Ha1).
    rewrite (weight_cons M x0 a Ha0).
    pose proof (weight_nonzero M a).
    field. nonzero. }
  fold x0 x1. rewrite T0, T1, TM. unfold Qdiv. ring.
Qed.

(** ** The Lagrange form does not depend on the order of the points *)

Lemma basis_perm (X X' : list Q) (q a : Q) :
  Permutation X X' -> basis X q a == basis X' q a.
Proof.
  intros Hp. unfold basis. apply prod_over_perm. apply others_perm. exact Hp.
Qed.

Lemma lagrange_poly_perm (ps ps' : list (Q * Q)) (q : Q) :
  Permutation ps ps' -> lagrange_poly ps q == lagrange_poly ps' q.
Proof.
  intros Hp. unfold lagrange_poly.
  rewrite (sum_over_perm _ ps ps' Hp).
  apply sum_over_ext. intros p _.
  rewrite (basis_perm (map fst ps) (map fst ps')); [reflexivity|].
  apply Permutation_map. exact Hp.
Qed.

End PolyFacts.

(* ================================================================== *)
(** * The divided-difference table                                     *)
(* ================================================================== *)

Module Table.

Import Interpolacion ValidateInput SortPoints Props PolyFacts LinearNodes.

Lemma getitem_ok_iff {A : Type} (l : list A) (i : nat) (a : A) :
  getitem l i = Ok a <-> nth_error l i = Some a.
Proof.
  unfold getitem. destruct (nth_error l i); split; intros H;
    try discriminate; congruence.
Qed.

Lemma set_nth_spec {A : Type} (l : list A) (i : nat) (v : A) :
  (i < length l)%nat ->
  exists l', set_nth l i v = Ok l' /\ length l' = length l /\
             forall k, nth_error l' k
                       = if (k =? i)%nat then Some v else nth_error l k.
Proof.
  revert i. induction l as [|a l IH]; intros i Hi; simpl in Hi; [lia|].
  destruct i as [|i]; simpl.
  - exists (v :: l). split; [reflexivity|]. split; [reflexivity|].
    intros [|k]; reflexivity.
  - destruct (IH i ltac:(lia)) as [l' [Hs [Hlen Hnth]]].
    rewrite Hs. cbn [bind]. exists (a :: l').
    split; [reflexivity|]. split; [simpl; lia|].
    intros [|k]; [reflexivity|]. simpl. apply Hnth.
Qed.

Lemma shape_zeros (n : nat) : shape n (repeat (repeat 0 n) n).
Proof.
  split; [apply repeat_length|].
  intros row Hin. apply repeat_spec in Hin. subst row. apply repeat_length.
Qed.

Lemma get2_in_shape (n : nat) (F : list (list Q)) (i j : nat) :
  shape n F -> (i < n)%nat -> (j < n)%nat -> exists v, get2 F i j = Ok v.
Proof.
  intros [HF Hrows] Hi Hj. unfold get2.
  destruct (nth_error F i) as [row|] eqn:Er.
  2:{ apply nth_error_None in Er. lia. }
  rewrite (proj2 (getitem_ok_iff F i row) Er). cbn [bind].
  pose proof (Hrows row (nth_error_In _ _ Er)) as Hlen.
  destruct (nth_error row j) as [v|] eqn:Ev.
  2:{ apply nth_error_None in Ev. lia. }
  exists v. apply getitem_ok_iff. exact Ev.
Qed.

Lemma set2_spec (n : nat) (F : list (list Q)) (i j : nat) (v : Q) :
  shape n F -> (i < n)%nat -> (j < n)%nat ->
  exists F', set2 F i j v = Ok F' /\ shape n F' /\
             forall i' j', get2 F' i' j'
                           = if ((i' =? i) && (j' =? j))%nat then Ok v
                             else get2 F i' j'.
Proof.
  intros [HF Hrows] Hi Hj. unfold set2.
  destruct (nth_error F i) as [row|] eqn:Er.
  2:{ apply nth_error_None in Er. lia. }
  rewrite (proj2 (getitem_ok_iff F i row) Er). cbn [bind].
  pose proof (Hrows row (nth_error_In _ _ Er)) as Hlen.
  destruct (set_nth_spec row j v ltac:(lia)) as [row' [Hs [Hlen' Hrow']]].
  rewrite Hs. cbn [bind].
  destruct (set_nth_spec F i row' ltac:(lia)) as [F' [HsF [HlenF HF']]].
  rewrite HsF. exists F'. split; [reflexivity|]. split.
  - split; [lia|]. intros r Hin.
    destruct (In_nth_error _ _ Hin) as [k Hk].
    rewrite HF' in Hk. destruct (k =? i)%nat.
    + injection Hk as <-. lia.
    + apply Hrows. eapply nth_error_In. exact Hk.
  - intros i' j'. unfold get2, getitem. rewrite HF'.
    destruct (Nat.eqb_spec i' i) as [->|Hne]; simpl.
    + rewrite Hrow', Er. simpl.
      destruct (j' =? j)%nat; reflexivity.
    + reflexivity.
Qed.

(** ** Windows of a list *)

Lemma sub_cons {A : Type} (l : list A) (i len : nat) (d : A) :
  (i < length l)%nat -> sub l i (S len) = nth i l d :: sub l (S i) len.
Proof.
  revert i. induction l as [|a l IH]; intros i Hi; simpl in Hi; [lia|].
  destruct i as [|i]; unfold sub; simpl; [reflexivity|].
  apply (IH i). lia.
Qed.

Lemma sub_snoc {A : Type} (l : list A) (i len : nat) (d : A) :
  (i + len < length l)%nat -> sub l i (S len) = sub l i len ++ [nth (i + len) l d].
Proof.
  revert i l. induction len as [|len IH]; intros i l Hi.
  - rewrite (sub_cons l i 0 d) by lia. unfold sub. simpl.
    rewrite Nat.add_0_r. reflexivity.
  - rewrite (sub_cons l i (S len) d) by lia.
    rewrite (sub_cons l i len d) by lia.
    rewrite (IH (S i) l) by lia.
    replace (S i + len)%nat with (i + S len)%nat by lia. reflexivity.
Qed.

Lemma sub_map {A B : Type} (f : A -> B) (l : list A) (i len : nat) :
  map f (sub l i len) = sub (map f l) i len.
Proof. unfold sub. rewrite skipn_map, firstn_map. reflexivity. Qed.

Lemma sub_all {A : Type} (l : list A) : sub l 0 (length l) = l.
Proof. unfold sub. simpl. apply firstn_all. Qed.

Lemma sub_firstn {A : Type} (l : list A) (len : nat) : sub l 0 len = firstn len l.
Proof. reflexivity. Qed.

Lemma distinct_skipn (l : list Q) (i : nat) : distinct l -> distinct (skipn i l).
Proof.
  revert l. induction i as [|i IH]; intros l Hd; [exact Hd|].
  destruct l as [|a l]; [exact Hd|]. simpl. apply IH. simpl in Hd. tauto.
Qed.

Lemma distinct_firstn (l : list Q) (k : nat) : distinct l -> distinct (firstn k l).
Proof.
  revert l. induction k as [|k IH]; intros l Hd; [exact I|].
  destruct l as [|a l]; [exact I|]. simpl in *. destruct Hd as [Ha Hl].
  split; [|apply IH; assumption].
  intros b Hb. apply Ha. rewrite <- (firstn_skipn k l).
  apply in_or_app. left. exact Hb.
Qed.

Lemma distinct_sub (l : list Q) (i len : nat) : distinct l -> distinct (sub l i len).
Proof. intros Hd. unfold sub. apply distinct_firstn, distinct_skipn, Hd. Qed.

Lemma increasing_distinct (l : list Q) : increasing l -> distinct l.
Proof.
  induction l as [|a l IH]; simpl; [trivial|].
  intros [Ha Hl]. split; [|apply IH; assumption].
  intros b Hb E. pose proof (Ha b Hb). lra.
Qed.

Lemma distinct_nth (l : list Q) (i j : nat) :
  distinct l -> (i < length l)%nat -> (j < length l)%nat -> i <> j ->
  ~ nth i l 0 == nth j l 0.
Proof.
  revert i j. induction l as [|a l IH]; intros i j Hd Hi Hj Hne; simpl in *; [lia|].
  destruct Hd as [Ha Hl].
  destruct i as [|i], j as [|j]; try lia.
  - apply Ha. apply nth_In. lia.
  - intros E. apply (Ha (nth i l 0)); [apply nth_In; lia|]. symmetry. exact E.
  - apply IH; auto; lia.
Qed.

End Table.

Module NewtonTable.

Import Interpolacion ValidateInput SortPoints Props PolyFacts LinearNodes Table.

Lemma near_zero_false_nonzero (d : Q) : near_zero d = false -> ~ d == 0.
Proof.
  unfold near_zero, Qlt_bool. intros H E.
  destruct (Qle_bool eps15 (Qabs d)) eqn:Hle; [|discriminate].
  apply Qle_bool_iff in Hle. rewrite E in Hle. simpl in Hle.
  unfold eps15, Qle in Hle. simpl in Hle. lia.
Qed.

Section Points.

Variable pts : list (Q * Q).

Let xs : list Q := map fst pts.
Let ys : list Q := map snd pts.
Let n : nat := length pts.

Hypothesis Hinc : increasing xs.

Lemma xs_length : length xs = n.
Proof. apply length_map. Qed.

Lemma ys_length : length ys = n.
Proof. apply length_map. Qed.

Lemma window_dd_0 (i : nat) : (i < n)%nat -> window_dd pts i 0 == nth i ys 0.
Proof.
  intros Hi. unfold window_dd.
  rewrite (sub_cons pts i 0 (0, 0)) by exact Hi.
  unfold sub, divided_difference. simpl.
  unfold weight. rewrite (others_cons_eq _ _ []) by reflexivity.
  unfold prod_diff, prod_over, others. simpl filter.
  unfold ys. rewrite <- (map_nth snd pts (0, 0) i). simpl. field.
Qed.

Lemma window_dd_rec (i j : nat) :
  (i + S j < n)%nat ->
  window_dd pts i (S j)
  == (window_dd pts (i + 1) j - window_dd pts i j)
     / (nth (i + S j) xs 0 - nth i xs 0).
Proof.
  intros Hij. unfold window_dd.
  replace (i + 1)%nat with (S i) by lia.
  rewrite (sub_cons pts i (S j) (0, 0)) by (fold n; lia).
  rewrite (sub_cons pts i j (0, 0)) by (fold n; lia).
  rewrite (sub_snoc pts (S i) j (0, 0)) by (fold n; lia).
  set (mid := sub pts (S i) j).
  set (p0 := nth i pts (0, 0)).
  set (p1 := nth (S i + j) pts (0, 0)).
  assert (H0 : nth i xs 0 = fst p0).
  { unfold xs, p0. rewrite <- (map_nth fst pts (0, 0) i). reflexivity. }
  assert (H1 : nth (i + S j) xs 0 = fst p1).
  { unfold xs, p1. rewrite <- (map_nth fst pts (0, 0) (S i + j)).
    replace (i + S j)%nat with (S i + j)%nat by lia. reflexivity. }
  rewrite H0, H1.
  apply divided_difference_rec.
  assert (Hsub : map fst (p0 :: mid ++ [p1]) = sub xs i (S (S j))).
  { unfold xs. rewrite <- sub_map.
    rewrite (sub_cons pts i (S j) (0, 0)) by (fold n; lia).
    rewrite (sub_snoc pts (S i) j (0, 0)) by (fold n; lia).
    reflexivity. }
  rewrite Hsub. apply distinct_sub. apply increasing_distinct. exact Hinc.
Qed.

Lemma holds_dd_set (F F' : list (list Q)) (i j : nat) (v : Q) :
  (forall i' j', get2 F' i' j'
                 = if ((i' =? i) && (j' =? j))%nat then Ok v else get2 F i' j') ->
  forall i' j', (i', j') <> (i, j) -> holds_dd pts F i' j' -> holds_dd pts F' i' j'.
Proof.
  intros HF' i' j' Hne [w [Hw Hval]]. exists w. split; [|exact Hval].
  rewrite HF'.
  destruct (Nat.eqb_spec i' i) as [->|]; simpl; [|exact Hw].
  destruct (Nat.eqb_spec j' j) as [->|]; simpl; [|exact Hw].
  congruence.
Qed.

Lemma newton_init_loop (m s : nat) (F : list (list Q)) :
  (s + m = n)%nat -> (0 < n)%nat -> shape n F ->
  (forall i, (i < s)%nat -> holds_dd pts F i 0) ->
  exists F', for_each (seq s m) F (newton_init ys) = Ok F' /\ shape n F' /\
             forall i, (i < n)%nat -> holds_dd pts F' i 0.
Proof.
  revert s F. induction m as [|m IH]; intros s F Hsm Hn Hsh Hdone.
  - exists F. split; [reflexivity|]. split; [assumption|].
    intros i Hi. apply Hdone. lia.
  - simpl. unfold newton_init at 1.
    rewrite (getitem_nth ys s 0) by (rewrite ys_length; lia). cbn [bind].
    destruct (set2_spec n F s 0 (nth s ys 0) Hsh ltac:(lia) Hn)
      as [F1 [Hset [Hsh1 Hget1]]].
    rewrite Hset. cbn [bind].
    apply IH; [lia | assumption | assumption |].
    intros i Hi. destruct (Nat.eq_dec i s) as [->|Hne].
    + exists (nth s ys 0). split.
      * rewrite Hget1, !Nat.eqb_refl. reflexivity.
      * symmetry. apply window_dd_0. lia.
    + apply (holds_dd_set F F1 s 0 _ Hget1); [congruence|].
      apply Hdone. lia.
Qed.

Lemma newton_column_loop (j m s : nat) (F : list (list Q)) :
  (1 <= j)%nat -> (s + m = n - j)%nat -> shape n F ->
  columns_done pts n F j ->
  (forall i, (i < s)%nat -> holds_dd pts F i j) ->
  match for_each (seq s m) F (newton_cell xs j) with
  | Ok F' =>
      shape n F' /\ columns_done pts n F' (S j) /\
      (forall i, (s <= i)%nat -> (i + j < n)%nat ->
                 near_zero (nth (i + j) xs 0 - nth i xs 0) = false)
  | Err e => guard_failure xs n e
  end.
Proof.
  intros Hj. revert s F. induction m as [|m IH]; intros s F Hsm Hsh Hcols Hdone.
  - simpl. split; [assumption|]. split; [|intros; lia].
    intros i j' Hj' Hi. destruct (Nat.eq_dec j' j) as [->|Hne].
    + apply Hdone. lia.
    + apply Hcols; lia.
  - simpl. unfold newton_cell at 1.
    rewrite (getitem_nth xs (s + j) 0) by (rewrite xs_length; lia). cbn [bind].
    rewrite (getitem_nth xs s 0) by (rewrite xs_length; lia). cbn [bind].
    destruct (near_zero (nth (s + j) xs 0 - nth s xs 0)) eqn:Hnz.
    { exists (s + j)%nat, s. split; [reflexivity|]. split; [lia | exact Hnz]. }
    destruct (Hcols (s + 1)%nat (j - 1)%nat ltac:(lia) ltac:(lia)) as [a [Ha Hav]].
    destruct (Hcols s (j - 1)%nat ltac:(lia) ltac:(lia)) as [b [Hb Hbv]].
    rewrite Ha. cbn [bind]. rewrite Hb. cbn [bind].
    rewrite py_div_ok by (apply near_zero_false_nonzero; exact Hnz). cbn [bind].
    destruct (set2_spec n F s j ((a - b) / (nth (s + j) xs 0 - nth s xs 0))
                Hsh ltac:(lia) ltac:(lia)) as [F1 [Hset [Hsh1 Hget1]]].
    rewrite Hset. cbn [bind].
    specialize (IH (S s) F1 ltac:(lia) Hsh1).
    destruct (for_each (seq (S s) m) F1 (newton_cell xs j)) as [F'|e].
    + destruct IH as [Hsh' [Hcols' Hguards]].
      * intros i j' Hj' Hi.
        apply (holds_dd_set F F1 s j _ Hget1); [intros E; injection E; lia|].
        apply Hcols; assumption.
      * intros i Hi. destruct (Nat.eq_dec i s) as [->|Hne].
        -- eexists. split; [rewrite Hget1, !Nat.eqb_refl; reflexivity|].
           destruct j as [|j0]; [lia|].
           rewrite (window_dd_rec s j0) by lia.
           replace (S j0 - 1)%nat with j0 in * by lia.
           rewrite Hav, Hbv. reflexivity.
        -- apply (holds_dd_set F F1 s j _ Hget1); [intros E; injection E; lia|].
           apply Hdone. lia.
      * split; [assumption|]. split; [assumption|].
        intros i Hi Hij. destruct (Nat.eq_dec i s) as [->|Hne]; [exact Hnz|].
        apply Hguards; lia.
    + apply IH.
      * intros i j' Hj' Hi.
        apply (holds_dd_set F F1 s j _ Hget1); [intros E; injection E; lia|].
        apply Hcols; assumption.
      * intros i Hi. destruct (Nat.eq_dec i s) as [->|Hne].
        -- eexists. split; [rewrite Hget1, !Nat.eqb_refl; reflexivity|].
           destruct j as [|j0]; [lia|].
           rewrite (window_dd_rec s j0) by lia.
           replace (S j0 - 1)%nat with j0 in * by lia.
           rewrite Hav, Hbv. reflexivity.
        -- apply (holds_dd_set F F1 s j _ Hget1); [intros E; injection E; lia|].
           apply Hdone. lia.
Qed.

Lemma newton_outer_loop (m j : nat) (F : list (list Q)) :
  (1 <= j)%nat -> (j + m = n)%nat -> shape n F -> columns_done pts n F j ->
  match for_each (seq j m) F (newton_column xs n) with
  | Ok F' =>
      shape n F' /\ columns_done pts n F' n /\
      (forall i j', (j <= j')%nat -> (i + j' < n)%nat ->
                    near_zero (nth (i + j') xs 0 - nth i xs 0) = false)
  | Err e => guard_failure xs n e
  end.
Proof.
  revert j F. induction m as [|m IH]; intros j F Hj Hjm Hsh Hcols.
  - simpl. split; [assumption|]. split; [|intros; lia].
    intros i j' Hj' Hi. apply Hcols; lia.
  - simpl. unfold newton_column at 1. unfold range.
    pose proof (newton_column_loop j (n - j) 0 F Hj ltac:(lia) Hsh Hcols
                  ltac:(intros; lia)) as Hcol.
    destruct (for_each (seq 0 (n - j)) F (newton_cell xs j)) as [F1|e];
      [|exact Hcol].
    cbn [bind]. destruct Hcol as [Hsh1 [Hcols1 Hg1]].
    specialize (IH (S j) F1 ltac:(lia) ltac:(lia) Hsh1 Hcols1).
    destruct (for_each (seq (S j) m) F1 (newton_column xs n)) as [F'|e];
      [|exact IH].
    destruct IH as [Hsh' [Hcols' Hg']].
    split; [assumption|]. split; [assumption|].
    intros i j' Hj' Hi. destruct (Nat.eq_dec j' j) as [->|Hne].
    + apply Hg1; lia.
    + apply Hg'; lia.
Qed.

End Points.

(** What [newton_divided_diffs] returns on accepted samples: either the
    guard fired, or the sorted nodes with the divided differences
    f[x_0], f[x_0,x_1], ... of the sorted points, every guard having
    passed. *)
Lemma newton_divided_diffs_result (x y : list Q) :
  _validate_input x y = Ok tt ->
  let pts := sort_by_key (combine x y) in
  let xs := map fst pts in
  let n := length pts in
  match newton_divided_diffs x y with
  | Ok (nodes, c) =>
      nodes = xs /\ length c = n /\
      (forall j, (j < n)%nat -> nth j c 0 == window_dd pts 0 j) /\
      (forall lo hi, (lo < hi < n)%nat ->
                     near_zero (nth hi xs 0 - nth lo xs 0) = false)
  | Err e => guard_failure xs n e
  end.
Proof.
  intros Hv pts xs n.
  destruct (validate_input_ok x y Hv) as [Hlen [Hn2 _]].
  pose proof (sort_points_spec x y Hv) as [_ Hlx _ Hinc].
  unfold _sort_points in Hlx, Hinc. simpl in Hlx, Hinc.
  fold pts in Hlx, Hinc. fold xs in Hinc.
  assert (Hn : (2 <= n)%nat) by (unfold n; rewrite length_map in Hlx; lia).
  unfold newton_divided_diffs. rewrite Hv. cbn [bind].
  unfold _sort_points. fold pts. fold xs.
  replace (length xs) with n by (unfold xs; rewrite length_map; reflexivity).
  unfold range.
  destruct (newton_init_loop pts n 0 (repeat (repeat 0 n) n)
              ltac:(fold n; lia) ltac:(fold n; lia) (shape_zeros n)
              ltac:(intros; lia)) as [F1 [Hinit [Hsh1 Hcol0]]].
  fold n in Hinit, Hsh1, Hcol0. rewrite Hinit. cbn [bind].
  unfold range2.
  pose proof (newton_outer_loop pts Hinc (n - 1) 1 F1 ltac:(lia)
                ltac:(fold n; lia) Hsh1) as Hout.
  fold xs n in Hout.
  destruct (for_each (seq 1 (n - 1)) F1 (newton_column xs n)) as [F2|e].
  2:{ apply Hout. intros i j' Hj' Hi. replace j' with 0%nat by lia.
      apply Hcol0. lia. }
  destruct Hout as [Hsh2 [Hcols2 Hguards]].
  { intros i j' Hj' Hi. replace j' with 0%nat by lia. apply Hcol0. lia. }
  cbn [bind].
  set (g' := fun j => match get2 F2 0 j with Ok v => v | Err _ => 0 end).
  rewrite (for_each_collect (fun j => get2 F2 0 j) g').
  2:{ intros j Hj. apply in_seq in Hj.
      destruct (Hcols2 0%nat j ltac:(lia) ltac:(lia)) as [v [Hg _]].
      unfold g'. rewrite Hg. reflexivity. }
  cbn [bind app]. split; [reflexivity|]. split; [|split].
  - rewrite length_map, length_seq. reflexivity.
  - intros j Hj.
    rewrite (nth_indep _ 0 (g' 0%nat)) by (rewrite length_map, length_seq; lia).
    rewrite map_nth, seq_nth by lia. simpl.
    destruct (Hcols2 0%nat j ltac:(lia) ltac:(lia)) as [v [Hg Hval]].
    unfold g'. rewrite Hg. exact Hval.
  - intros lo hi Hlh.
    replace hi with (lo + (hi - lo))%nat by lia.
    apply Hguards; lia.
Qed.

(** ** From the nested evaluation to Newton's sum *)

Lemma firstn_S_snoc {A : Type} (l : list A) (k : nat) (d : A) :
  (k < length l)%nat -> firstn (S k) l = firstn k l ++ [nth k l d].
Proof. intros H. apply (sub_snoc l 0 k d). simpl. exact H. Qed.

Lemma prod_diff_firstn_S (q : Q) (l : list Q) (k : nat) :
  (k < length l)%nat ->
  prod_diff q (firstn (S k) l) == prod_diff q (firstn k l) * (q - nth k l 0).
Proof.
  intros H. rewrite (firstn_S_snoc l k 0 H). unfold prod_diff.
  rewrite prod_over_app. simpl. ring.
Qed.

Lemma horner_steps_sum (nodes c : list Q) (q : Q) (k : nat) (value : Q) :
  (k <= length nodes)%nat ->
  horner_steps nodes c q k value
  == value * prod_diff q (firstn k nodes) + newton_sum nodes c q k.
Proof.
  revert value. induction k as [|k IH]; intros value Hk.
  - simpl. unfold newton_sum, prod_diff. simpl. ring.
  - simpl horner_steps. rewrite IH by lia.
    rewrite prod_diff_firstn_S by lia.
    unfold newton_sum. simpl sum_upto. ring.
Qed.

Lemma newton_recurrence_sum (nodes c : list Q) (q : Q) :
  length nodes = length c -> (1 <= length c)%nat ->
  newton_recurrence nodes c q == newton_sum nodes c q (length c).
Proof.
  intros Hlen Hn. unfold newton_recurrence. cbv zeta.
  remember (length c - 1)%nat as k eqn:Ek.
  assert (E : length c = S k) by lia.
  rewrite horner_steps_sum by lia.
  rewrite E. unfold newton_sum. simpl sum_upto. ring.
Qed.

Lemma sum_upto_ext (m : nat) (f g : nat -> Q) :
  (forall j, (j < m)%nat -> f j == g j) -> sum_upto m f == sum_upto m g.
Proof.
  induction m as [|m IH]; intros H; simpl; [reflexivity|].
  rewrite IH by (intros; apply H; lia). rewrite (H m) by lia. reflexivity.
Qed.

(** Newton's sum with the divided differences of the prefixes is the
    Lagrange interpolant. *)
Lemma lagrange_poly_prefix (pts : list (Q * Q)) (q : Q) (m : nat) :
  distinct (map fst pts) -> (m <= length pts)%nat ->
  lagrange_poly (firstn m pts) q
  == sum_upto m (fun j => window_dd pts 0 j * prod_diff q (firstn j (map fst pts))).
Proof.
  intros Hd. induction m as [|m IH]; intros Hm.
  - reflexivity.
  - rewrite (firstn_S_snoc pts m (0, 0)) by lia.
    rewrite lagrange_poly_snoc.
    + rewrite IH by lia. simpl sum_upto.
      rewrite <- (firstn_S_snoc pts m (0, 0)) by lia.
      rewrite <- firstn_map. reflexivity.
    + rewrite <- (firstn_S_snoc pts m (0, 0)) by lia.
      rewrite <- firstn_map. apply distinct_firstn. exact Hd.
Qed.

End NewtonTable.

Module LagrangeCode.

Import Interpolacion ValidateInput SortPoints Props PolyFacts LinearNodes Table
  NewtonTable.

Lemma Qle_bool_compat (a a' b b' : Q) :
  a == a' -> b == b' -> Qle_bool a b = Qle_bool a' b'.
Proof.
  intros Ha Hb.
  destruct (Qle_bool a b) eqn:E1, (Qle_bool a' b') eqn:E2; try reflexivity.
  - apply Qle_bool_iff in E1. rewrite Ha, Hb in E1.
    apply Qle_bool_iff in E1. congruence.
  - apply Qle_bool_iff in E2. rewrite <- Ha, <- Hb in E2.
    apply Qle_bool_iff in E2. congruence.
Qed.

Lemma near_zero_sym (a b : Q) : near_zero (a - b) = near_zero (b - a).
Proof.
  unfold near_zero. rewrite (Qabs_Qminus a b). reflexivity.
Qed.

(** ** Separation of the nodes *)

Lemma separatedb_cons (a : Q) (l : list Q) :
  separatedb (a :: l) = true <->
  (forall b, In b l -> near_zero (a - b) = false) /\ separatedb l = true.
Proof.
  simpl. rewrite andb_true_iff, forallb_forall. split; intros [H1 H2]; split; auto.
  - intros b Hb. specialize (H1 b Hb). apply negb_true_iff in H1. exact H1.
  - intros b Hb. apply negb_true_iff. apply H1. exact Hb.
Qed.

Lemma separatedb_perm (l l' : list Q) :
  Permutation l l' -> separatedb l = true -> separatedb l' = true.
Proof.
  induction 1 as [|a l l' Hp IH|a b l|l l' l'' _ IH1 _ IH2].
  - trivial.
  - rewrite !separatedb_cons. intros [Ha Hl]. split; [|apply IH; assumption].
    intros b Hb. apply Ha. apply (Permutation_in _ (Permutation_sym Hp)). exact Hb.
  - rewrite !separatedb_cons. intros [Hb [Ha Hl]]. split; [|split].
    + intros c [<-|Hc]; [|apply Ha; assumption].
      rewrite near_zero_sym. apply Hb. left. reflexivity.
    + intros c Hc. apply Hb. right. exact Hc.
    + exact Hl.
  - auto.
Qed.

Lemma separatedb_nth (l : list Q) (i j : nat) :
  separatedb l = true -> (i < length l)%nat -> (j < length l)%nat -> i <> j ->
  near_zero (nth i l 0 - nth j l 0) = false.
Proof.
  revert i j. induction l as [|a l IH]; intros i j Hs Hi Hj Hne; simpl in Hi; [lia|].
  apply separatedb_cons in Hs. destruct Hs as [Ha Hl]. simpl in Hj.
  destruct i as [|i], j as [|j]; try lia; simpl.
  - apply Ha. apply nth_In. lia.
  - rewrite near_zero_sym. apply Ha. apply nth_In. lia.
  - apply IH; auto; lia.
Qed.

Lemma separatedb_of_guards (l : list Q) :
  (forall i j, (i < j < length l)%nat ->
               near_zero (nth j l 0 - nth i l 0) = false) ->
  separatedb l = true.
Proof.
  induction l as [|a l IH]; intros H; [reflexivity|].
  apply separatedb_cons. split.
  - intros b Hb. destruct (In_nth l b 0 Hb) as [k [Hk <-]].
    rewrite near_zero_sym. apply (H 0%nat (S k)). simpl. lia.
  - apply IH. intros i j Hij. apply (H (S i) (S j)). simpl. lia.
Qed.

(** ** The loops of [lagrange_interpolate] *)

Lemma lagrange_li_S (x : list Q) (m : nat) (xi : Q) (i : nat) :
  lagrange_li x (S m) xi i
  = (li <- lagrange_li x m xi i ;; lagrange_factor x xi i m li).
Proof.
  unfold lagrange_li, range. rewrite seq_S, for_each_app. simpl.
  destruct (for_each (seq 0 m) 1 (lagrange_factor x xi i)) as [li|e];
    [|reflexivity].
  cbn [bind]. destruct (lagrange_factor x xi i m li); reflexivity.
Qed.

Lemma lagrange_li_loop (x : list Q) (xi : Q) (i m : nat) :
  distinct x -> (i < length x)%nat -> (m <= length x)%nat ->
  match lagrange_li x m xi i with
  | Ok li =>
      li == prod_over (fun b => (xi - b) / (nth i x 0 - b))
                      (others (nth i x 0) (firstn m x)) /\
      (forall j, (j < m)%nat -> j <> i ->
                 near_zero (nth i x 0 - nth j x 0) = false)
  | Err e => lagrange_failure x e
  end.
Proof.
  intros Hd Hi. induction m as [|m IH]; intros Hm.
  - simpl. split; [reflexivity | intros; lia].
  - rewrite lagrange_li_S. specialize (IH ltac:(lia)).
    destruct (lagrange_li x m xi i) as [li|e]; [|exact IH].
    destruct IH as [Hli Hg]. cbn [bind]. unfold lagrange_factor.
    rewrite (firstn_S_snoc x m 0) by lia. rewrite others_app.
    destruct (Nat.eqb_spec i m) as [->|Hne]; simpl negb; cbv iota.
    + rewrite (others_cons_eq _ _ []) by reflexivity.
      rewrite app_nil_r. split; [exact Hli|].
      intros j Hj Hjm. apply Hg; lia.
    + rewrite (getitem_nth x i 0) by lia. cbn [bind].
      rewrite (getitem_nth x m 0) by lia. cbn [bind].
      destruct (near_zero (nth i x 0 - nth m x 0)) eqn:Hnz.
      { exists i, m. repeat split; try lia; assumption. }
      cbn [bind].
      rewrite py_div_ok by (apply near_zero_false_nonzero; exact Hnz).
      cbn [bind]. split.
      * rewrite (others_cons_neq _ _ [])
          by (apply distinct_nth; [assumption | lia | lia | lia]).
        rewrite prod_over_app. simpl. rewrite Hli. ring.
      * intros j Hj Hji. destruct (Nat.eq_dec j m) as [->|Hjm]; [exact Hnz|].
        apply Hg; lia.
Qed.

Lemma lagrange_value_loop (x y : list Q) (xi : Q) (m : nat) :
  distinct x -> length x = length y -> (m <= length x)%nat ->
  match for_each (seq 0 m) 0 (lagrange_term x y (length x) xi) with
  | Ok total =>
      total == sum_over (fun p => snd p * basis x xi (fst p))
                        (firstn m (combine x y)) /\
      (forall i j, (i < m)%nat -> (j < length x)%nat -> j <> i ->
                   near_zero (nth i x 0 - nth j x 0) = false)
  | Err e => lagrange_failure x e
  end.
Proof.
  intros Hd Hlen. induction m as [|m IH]; intros Hm.
  - simpl. split; [reflexivity | intros; lia].
  - rewrite seq_S, for_each_app. specialize (IH ltac:(lia)).
    destruct (for_each (seq 0 m) 0 (lagrange_term x y (length x) xi))
      as [total|e]; [|exact IH].
    destruct IH as [Htot Hg]. cbn [bind for_each Nat.add].
    unfold lagrange_term.
    pose proof (lagrange_li_loop x xi m (length x) Hd ltac:(lia) ltac:(lia)) as Hli.
    destruct (lagrange_li x (length x) xi m) as [li|e]; [|exact Hli].
    destruct Hli as [Hli Hgi]. cbn [bind].
    rewrite (getitem_nth y m 0) by lia. cbn [bind]. split.
    + rewrite (firstn_S_snoc (combine x y) m (0, 0))
        by (rewrite length_combine; lia).
      rewrite sum_over_app, combine_nth by assumption. simpl.
      rewrite Htot, Hli. unfold basis. rewrite firstn_all. ring.
    + intros i j Hi Hj Hji. destruct (Nat.eq_dec i m) as [->|Him].
      * apply Hgi; assumption.
      * apply Hg; lia.
Qed.

(** What [lagrange_value] returns on accepted samples: either a guard
    fired, or the value of the Lagrange form, every guard having
    passed. *)
Lemma lagrange_value_result (x y : list Q) (xi : Q) :
  distinct x -> length x = length y ->
  match lagrange_value x y (length x) xi with
  | Ok total =>
      total == lagrange_poly (combine x y) xi /\
      (forall i j, (i < length x)%nat -> (j < length x)%nat -> j <> i ->
                   near_zero (nth i x 0 - nth j x 0) = false)
  | Err e => lagrange_failure x e
  end.
Proof.
  intros Hd Hlen. unfold lagrange_value, range.
  pose proof (lagrange_value_loop x y xi (length x) Hd Hlen (le_n _)) as H.
  destruct (for_each (seq 0 (length x)) 0 (lagrange_term x y (length x) xi));
    [|exact H].
  destruct H as [Htot Hg]. split; [|exact Hg].
  rewrite Htot. unfold lagrange_poly.
  rewrite combine_fst by assumption.
  rewrite firstn_all2 by (rewrite length_combine; lia). reflexivity.
Qed.

End LagrangeCode.

(* ================================================================== *)
(** * Newton and Lagrange interpolation agree                          *)
(* ================================================================== *)

Module NewtonLagrange.

Import Interpolacion ValidateInput SortPoints Props PolyFacts LinearNodes Table
  NewtonTable LagrangeCode.

Lemma sorted_nodes_perm (x y : list Q) :
  length x = length y ->
  Permutation x (map fst (sort_by_key (combine x y))).
Proof.
  intros Hlen. rewrite <- (combine_fst x y Hlen) at 1.
  apply Permutation_map. apply sort_by_key_perm.
Qed.

(** The value of the Newton form on accepted, separated samples. *)
Lemma newton_value_is_lagrange (x y : list Q) (nodes c : list Q) (q : Q) :
  _validate_input x y = Ok tt ->
  newton_divided_diffs x y = Ok (nodes, c) ->
  length nodes = length c /\ (1 <= length c)%nat /\
  newton_recurrence nodes c q == lagrange_poly (combine x y) q.
Proof.
  intros Hv Hnd.
  destruct (validate_input_ok x y Hv) as [Hlen [Hn2 Hd]].
  pose proof (newton_divided_diffs_result x y Hv) as Hres.
  cbv zeta in Hres. rewrite Hnd in Hres.
  destruct Hres as [-> [Hlc [Hc _]]].
  set (pts := sort_by_key (combine x y)) in *.
  assert (Hp : Permutation (combine x y) pts) by apply sort_by_key_perm.
  assert (Hlp : length pts = length x).
  { rewrite <- (Permutation_length Hp), length_combine. lia. }
  assert (Hdx : distinct (map fst pts)).
  { apply (distinct_perm x); [|exact Hd]. apply sorted_nodes_perm. exact Hlen. }
  split; [rewrite length_map; lia|]. split; [lia|].
  rewrite newton_recurrence_sum by (rewrite ?length_map; lia).
  rewrite Hlc. unfold newton_sum.
  rewrite (sum_upto_ext _ _
             (fun j => window_dd pts 0 j * prod_diff q (firstn j (map fst pts)))).
  2:{ intros j Hj. rewrite (Hc j Hj). reflexivity. }
  rewrite <- (lagrange_poly_prefix pts q (length pts) Hdx (le_n _)).
  rewrite firstn_all.
  symmetry. apply lagrange_poly_perm. exact Hp.
Qed.

Lemma Forall2_map_pointwise {A : Type} (f g : A -> Q) (l : list A) :
  (forall a, f a == g a) -> Forall2 Qeq (map f l) (map g l).
Proof.
  intros H. induction l as [|a l IH]; simpl; constructor; auto.
Qed.

(** The claim as stated fails on samples that are distinct but closer
    than 1e-15: the sample set is accepted and neither routine yields a
    value. *)
Lemma newton_lagrange_clustered :
  _validate_input [0; 1e-16] [0; 1] = Ok tt /\
  newton_divided_diffs [0; 1e-16] [0; 1]
  = Err (ValueError (MsgDivZeroNewton 1 0)) /\
  lagrange_interpolate [0; 1e-16] [0; 1] [0]
  = Err (ValueError (MsgDivZeroLagrange 0 1)).
Proof. repeat split; vm_compute; reflexivity. Qed.

(** C3, amended.  On an accepted sample set whose x values are pairwise
    at least 1e-15 apart, the Newton form ([newton_divided_diffs], then
    [eval_newton_poly]) and [lagrange_interpolate] both return, and
    their values are equal at every query point: both are the value of
    the Lagrange interpolating polynomial of the samples.  When two x
    values are closer than 1e-15, [newton_divided_diffs] fails with its
    near-singular error and so does [lagrange_interpolate] on any
    non-empty query list. *)
Theorem newton_lagrange_agree (x y xq : list Q) :
  _validate_input x y = Ok tt ->
  (separatedb x = true ->
   exists nodes c vs ws,
     newton_divided_diffs x y = Ok (nodes, c) /\
     eval_newton_poly nodes c xq = Ok vs /\
     lagrange_interpolate x y xq = Ok ws /\
     Forall2 Qeq vs ws /\
     Forall2 Qeq vs (map (lagrange_poly (combine x y)) xq))
  /\
  (separatedb x = false ->
   (exists hi lo,
       newton_divided_diffs x y = Err (ValueError (MsgDivZeroNewton hi lo))) /\
   (xq <> [] ->
    exists i j,
      lagrange_interpolate x y xq = Err (ValueError (MsgDivZeroLagrange i j)))).
Proof.
  intros Hv.
  destruct (validate_input_ok x y Hv) as [Hlen [Hn2 Hd]].
  pose proof (newton_divided_diffs_result x y Hv) as Hres. cbv zeta in Hres.
  pose proof (sorted_nodes_perm x y Hlen) as Hperm.
  set (pts := sort_by_key (combine x y)) in *.
  split.
  - intros Hsep.
    assert (Hsep' : separatedb (map fst pts) = true)
      by (apply (separatedb_perm x); assumption).
    destruct (newton_divided_diffs x y) as [[nodes c]|e] eqn:Hnd.
    2:{ exfalso. destruct Hres as [hi [lo [_ [Hlh Hnz]]]].
        rewrite (separatedb_nth (map fst pts) hi lo Hsep') in Hnz;
          try (rewrite length_map; lia); [discriminate | lia]. }
    destruct (newton_value_is_lagrange x y nodes c 0 Hv Hnd) as [Hlc [Hc1 _]].
    set (lv := fun xi => match lagrange_value x y (length x) xi with
                         | Ok v => v
                         | Err _ => 0
                         end).
    exists nodes, c, (map (newton_recurrence nodes c) xq), (map lv xq).
    split; [reflexivity|].
    assert (Hlv : forall xi, lagrange_value x y (length x) xi = Ok (lv xi) /\
                             lv xi == lagrange_poly (combine x y) xi).
    { intros xi. pose proof (lagrange_value_result x y xi Hd Hlen) as Hl.
      unfold lv. destruct (lagrange_value x y (length x) xi) as [v|e].
      - split; [reflexivity | apply Hl].
      - exfalso. destruct Hl as [i [j [Hi [Hj [Hij [_ Hnz]]]]]].
        rewrite (separatedb_nth x i j Hsep Hi Hj Hij) in Hnz. discriminate. }
    assert (Hnv : forall xi, newton_recurrence nodes c xi
                             == lagrange_poly (combine x y) xi).
    { intros xi. apply (newton_value_is_lagrange x y nodes c xi Hv Hnd). }
    split; [|split; [|split]].
    + unfold eval_newton_poly. rewrite Hlc, Nat.eqb_refl. simpl negb. cbv iota.
      rewrite (for_each_collect (newton_value nodes c) (newton_recurrence nodes c)).
      * reflexivity.
      * intros xi _. apply NewtonEval.newton_value_recurrence; assumption.
    + unfold lagrange_interpolate. rewrite Hv. cbn [bind].
      rewrite (for_each_collect (lagrange_value x y (length x)) lv).
      * reflexivity.
      * intros xi _. apply Hlv.
    + apply Forall2_map_pointwise. intros xi.
      rewrite Hnv. symmetry. apply Hlv.
    + apply Forall2_map_pointwise. exact Hnv.
  - intros Hsep. split.
    + destruct (newton_divided_diffs x y) as [[nodes c]|e].
      * exfalso. destruct Hres as [_ [_ [_ Hg]]].
        assert (Hs : separatedb (map fst pts) = true).
        { apply separatedb_of_guards. intros i j Hij. apply Hg.
          rewrite length_map in Hij. exact Hij. }
        apply (separatedb_perm _ x (Permutation_sym Hperm)) in Hs. congruence.
      * destruct Hres as [hi [lo [-> _]]]. eauto.
    + intros Hxq. destruct xq as [|xi rest]; [contradiction|].
      unfold lagrange_interpolate. rewrite Hv. cbn [bind for_each].
      pose proof (lagrange_value_result x y xi Hd Hlen) as Hl.
      destruct (lagrange_value x y (length x) xi) as [v|e].
      * exfalso. destruct Hl as [_ Hg].
        assert (Hs : separatedb x = true).
        { apply separatedb_of_guards. intros i j Hij. apply Hg; lia. }
        congruence.
      * destruct Hl as [i [j [_ [_ [_ [-> _]]]]]]. cbn [bind]. eauto.
Qed.

Lemma newton_lagrange_agree_witness :
  _validate_input ex_x ex_y = Ok tt /\
  separatedb ex_x = true /\
  exists nodes c vs ws,
    newton_divided_diffs ex_x ex_y = Ok (nodes, c) /\
    eval_newton_poly nodes c ex_queries = Ok vs /\
    lagrange_interpolate ex_x ex_y ex_queries = Ok ws /\
    Forall2 Qeq vs ws.
Proof.
  split; [reflexivity|]. split; [reflexivity|].
  destruct (newton_lagrange_agree ex_x ex_y ex_queries eq_refl) as [Hsep _].
  destruct (Hsep eq_refl) as [nodes [c [vs [ws [Hnd [Hev [Hlg [Hvw _]]]]]]]].
  exists nodes, c, vs, ws. repeat split; assumption.
Defined.

End NewtonLagrange.

(* ================================================================== *)
(** * The spline system and the empty query list                       *)
(* ================================================================== *)

Module EmptyQuery.

Import Interpolacion ValidateInput SortPoints Props PolyFacts LinearNodes Table.

Lemma set_nth_nth (l l' : list Q) (k : nat) (v : Q) :
  set_nth l k v = Ok l' ->
  length l' = length l /\
  forall j, nth j l' 0 = if (j =? k)%nat then v else nth j l 0.
Proof.
  revert k l'. induction l as [|a l IH]; intros k l' H; simpl in H; [discriminate|].
  destruct k as [|k].
  - injection H as <-. split; [reflexivity|]. intros [|j]; reflexivity.
  - destruct (set_nth l k v) as [t|] eqn:Et; [|discriminate].
    injection H as <-. destruct (IH k t Et) as [Hlen Hnth].
    split; [simpl; lia|]. intros [|j]; [reflexivity|]. simpl. apply Hnth.
Qed.

Lemma set_nth_sum_abs (l l' : list Q) (k : nat) (v : Q) :
  set_nth l k v = Ok l' ->
  sum_over Qabs l' == sum_over Qabs l - Qabs (nth k l 0) + Qabs v.
Proof.
  revert k l'. induction l as [|a l IH]; intros k l' H; simpl in H; [discriminate|].
  destruct k as [|k].
  - injection H as <-. simpl. ring.
  - destruct (set_nth l k v) as [t|] eqn:Et; [|discriminate].
    injection H as <-. simpl. rewrite (IH k t Et). ring.
Qed.

(** Writing an entry that was 0, off the diagonal. *)
Lemma off_diagonal_set_other (i k : nat) (row row' : list Q) (v : Q) :
  set_nth row k v = Ok row' -> k <> i -> nth k row 0 = 0 ->
  off_diagonal i row' == off_diagonal i row + Qabs v /\
  nth i row' 0 = nth i row 0.
Proof.
  intros Hs Hne H0. destruct (set_nth_nth _ _ _ _ Hs) as [_ Hnth].
  unfold off_diagonal. rewrite (set_nth_sum_abs _ _ _ _ Hs), H0, (Hnth i).
  destruct (Nat.eqb_spec i k); [lia|]. split; [|reflexivity].
  simpl (Qabs 0). ring.
Qed.

(** Writing the diagonal entry. *)
Lemma off_diagonal_set_diag (i : nat) (row row' : list Q) (v : Q) :
  set_nth row i v = Ok row' ->
  off_diagonal i row' == off_diagonal i row /\ nth i row' 0 = v.
Proof.
  intros Hs. destruct (set_nth_nth _ _ _ _ Hs) as [_ Hnth].
  unfold off_diagonal. rewrite (set_nth_sum_abs _ _ _ _ Hs), (Hnth i).
  rewrite Nat.eqb_refl. split; [ring | reflexivity].
Qed.

Lemma set2_rows (n : nat) (F : list (list Q)) (i j : nat) (v : Q) (row : list Q) :
  shape n F -> (i < n)%nat -> (j < n)%nat -> nth_error F i = Some row ->
  exists row' F',
    set_nth row j v = Ok row' /\ set2 F i j v = Ok F' /\ shape n F' /\
    forall k, nth_error F' k = if (k =? i)%nat then Some row' else nth_error F k.
Proof.
  intros [HF Hrows] Hi Hj Er. unfold set2.
  rewrite (proj2 (getitem_ok_iff F i row) Er). cbn [bind].
  pose proof (Hrows row (nth_error_In _ _ Er)) as Hlen.
  destruct (set_nth_spec row j v ltac:(lia)) as [row' [Hs [Hlen' _]]].
  rewrite Hs. cbn [bind].
  destruct (set_nth_spec F i row' ltac:(lia)) as [F' [HsF [HlenF HF']]].
  rewrite HsF. exists row', F'.
  split; [reflexivity|]. split; [reflexivity|]. split; [|exact HF'].
  split; [lia|]. intros r Hin.
  destruct (In_nth_error _ _ Hin) as [k Hk].
  rewrite HF' in Hk. destruct (k =? i)%nat.
  - injection Hk as <-. lia.
  - apply Hrows. eapply nth_error_In. exact Hk.
Qed.

(** ** The segment widths *)

Lemma spline_widths_spec (xs : list Q) :
  increasing xs ->
  exists h, spline_widths xs = Ok h /\ length h = (length xs - 1)%nat /\
            forall i, (i < length xs - 1)%nat ->
                      nth i h 0 = nth (i + 1) xs 0 - nth i xs 0 /\ 0 < nth i h 0.
Proof.
  intros Hinc. unfold spline_widths, range.
  set (w := fun i => nth (i + 1) xs 0 - nth i xs 0).
  rewrite (for_each_ext _ _ _
             (fun i acc => v <- Ok (w i) ;; Ok (acc ++ [v]))).
  2:{ intros i acc Hi. apply in_seq in Hi.
      rewrite (getitem_nth xs (i + 1) 0) by lia. cbn [bind].
      rewrite (getitem_nth xs i 0) by lia. reflexivity. }
  rewrite (for_each_collect (fun i => Ok (w i)) w) by reflexivity.
  eexists. split; [reflexivity|]. simpl app.
  split; [rewrite length_map, length_seq; reflexivity|].
  intros i Hi.
  rewrite (nth_indep _ 0 (w 0%nat)) by (rewrite length_map, length_seq; lia).
  rewrite map_nth, seq_nth by lia. simpl. split; [reflexivity|].
  unfold w. pose proof (increasing_nth xs i (i + 1) Hinc ltac:(lia)). lra.
Qed.

(** ** The rows of the system *)

Section System.

Variables (n : nat) (h ys : list Q).

Hypothesis Hn : (3 <= n)%nat.
Hypothesis Hh : length h = (n - 1)%nat.
Hypothesis Hhpos : forall i, (i < n - 1)%nat -> 0 < nth i h 0.
Hypothesis Hys : length ys = n.

Let zero_row : list Q := repeat 0 (n - 2).

Lemma zero_row_nth (j : nat) : nth j zero_row 0 = 0.
Proof. unfold zero_row. apply nth_repeat. Qed.

Lemma zero_row_off (i : nat) : off_diagonal i zero_row == 0.
Proof.
  unfold off_diagonal. rewrite zero_row_nth.
  assert (H : forall m, sum_over Qabs (repeat 0 m) == 0).
  { induction m as [|m IH]; simpl; [reflexivity|]. rewrite IH. reflexivity. }
  unfold zero_row. rewrite H. reflexivity.
Qed.

(** One pass of the body on a row that is still zero makes it
    dominant and leaves the other rows alone. *)
Lemma spline_row_step (i : nat) (A : list (list Q)) (b : list Q) :
  (i < n - 2)%nat -> shape (n - 2) A -> length b = (n - 2)%nat ->
  nth_error A i = Some zero_row ->
  exists A' b' row',
    spline_row n h ys i (A, b) = Ok (A', b') /\
    shape (n - 2) A' /\ length b' = (n - 2)%nat /\
    (forall k, nth_error A' k = if (k =? i)%nat then Some row' else nth_error A k) /\
    length row' = (n - 2)%nat /\
    off_diagonal i row' < Qabs (nth i row' 0).
Proof.
  intros Hi Hsh Hb Hrow.
  pose proof (Hhpos i ltac:(lia)) as Hp0.
  pose proof (Hhpos (i + 1)%nat ltac:(lia)) as Hp1.
  unfold spline_row.
  rewrite !(getitem_nth h i 0), !(getitem_nth h (i + 1) 0),
    !(getitem_nth ys i 0), !(getitem_nth ys (i + 1) 0),
    !(getitem_nth ys (i + 2) 0) by lia.
  cbn [bind]. rewrite !py_div_ok by lra. cbn [bind].
  (* A[i, i-1] *)
  assert (S1 : exists A1 row1,
             (if (0 <? i)%nat
              then set2 A i (i - 1) (nth i h 0)
              else Ok A) = Ok A1 /\
             shape (n - 2) A1 /\
             (forall k, nth_error A1 k
                        = if (k =? i)%nat then Some row1 else nth_error A k) /\
             length row1 = (n - 2)%nat /\
             off_diagonal i row1 <= nth i h 0 /\
             nth i row1 0 = 0 /\ nth (i + 1) row1 0 = 0).
  { destruct (Nat.ltb_spec 0 i) as [Hpos|Hz].
    - destruct (set2_rows (n - 2) A i (i - 1) (nth i h 0) zero_row Hsh Hi
                  ltac:(lia) Hrow) as [row1 [A1 [Hs [Hset [Hsh1 Hrows1]]]]].
      exists A1, row1. split; [exact Hset|]. split; [exact Hsh1|].
      split; [exact Hrows1|].
      destruct (set_nth_nth _ _ _ _ Hs) as [Hlen Hnth].
      destruct (off_diagonal_set_other i (i - 1) _ _ _ Hs ltac:(lia)
                  (zero_row_nth _)) as [Hoff Hd].
      split; [rewrite Hlen; apply repeat_length|].
      split.
      + rewrite Hoff, zero_row_off. rewrite Qabs_pos by lra. lra.
      + split.
        * rewrite Hd. apply zero_row_nth.
        * rewrite Hnth. destruct (Nat.eqb_spec (i + 1) (i - 1)); [lia|].
          apply zero_row_nth.
    - exists A, zero_row. split; [reflexivity|]. split; [exact Hsh|].
      split.
      { intros k. destruct (Nat.eqb_spec k i) as [->|]; [exact Hrow | reflexivity]. }
      split; [apply repeat_length|].
      split; [rewrite zero_row_off; lra|].
      split; apply zero_row_nth. }
  destruct S1 as [A1 [row1 [-> [Hsh1 [Hrows1 [Hl1 [Hoff1 [Hd1 Hn1]]]]]]]].
  cbn [bind].
  (* A[i, i] *)
  assert (Hr1 : nth_error A1 i = Some row1) by (rewrite Hrows1, Nat.eqb_refl; reflexivity).
  destruct (set2_rows (n - 2) A1 i i (2 * (nth i h 0 + nth (i + 1) h 0)) row1
              Hsh1 Hi Hi Hr1) as [row2 [A2 [Hs2 [-> [Hsh2 Hrows2]]]]].
  cbn [bind].
  destruct (off_diagonal_set_diag i _ _ _ Hs2) as [Hoff2 Hd2].
  destruct (set_nth_nth _ _ _ _ Hs2) as [Hl2 Hnth2].
  assert (Hr2 : nth_error A2 i = Some row2) by (rewrite Hrows2, Nat.eqb_refl; reflexivity).
  (* A[i, i+1] *)
  assert (S3 : exists A3 row3,
             (if (i <? n - 3)%nat
              then set2 A2 i (i + 1) (nth (i + 1) h 0)
              else Ok A2) = Ok A3 /\
             shape (n - 2) A3 /\
             (forall k, nth_error A3 k
                        = if (k =? i)%nat then Some row3 else nth_error A2 k) /\
             length row3 = (n - 2)%nat /\
             off_diagonal i row3 <= nth i h 0 + nth (i + 1) h 0 /\
             nth i row3 0 = 2 * (nth i h 0 + nth (i + 1) h 0)).
  { destruct (Nat.ltb_spec i (n - 3)) as [Hlt|Hge].
    - destruct (set2_rows (n - 2) A2 i (i + 1) (nth (i + 1) h 0) row2 Hsh2 Hi
                  ltac:(lia) Hr2) as [row3 [A3 [Hs3 [Hset3 [Hsh3 Hrows3]]]]].
      exists A3, row3. split; [exact Hset3|]. split; [exact Hsh3|].
      split; [exact Hrows3|].
      destruct (set_nth_nth _ _ _ _ Hs3) as [Hl3 _].
      assert (H0 : nth (i + 1) row2 0 = 0).
      { rewrite Hnth2. destruct (Nat.eqb_spec (i + 1) i); [lia | exact Hn1]. }
      destruct (off_diagonal_set_other i (i + 1) _ _ _ Hs3 ltac:(lia) H0)
        as [Hoff3 Hd3].
      split; [lia|]. split.
      + rewrite Hoff3, Hoff2. rewrite Qabs_pos by lra. lra.
      + rewrite Hd3. exact Hd2.
    - exists A2, row2. split; [reflexivity|]. split; [exact Hsh2|].
      split.
      { intros k. destruct (Nat.eqb_spec k i) as [->|]; [exact Hr2 | reflexivity]. }
      split; [lia|]. split; [rewrite Hoff2; lra | exact Hd2]. }
  destruct S3 as [A3 [row3 [-> [Hsh3 [Hrows3 [Hl3 [Hoff3 Hd3]]]]]]].
  cbn [bind].
  (* b[i] *)
  match goal with |- context [set_nth b i ?v] =>
    destruct (set_nth_spec b i v ltac:(lia)) as [b' [-> [Hb' _]]] end.
  cbn [bind].
  exists A3, b', row3. split; [reflexivity|]. split; [exact Hsh3|].
  split; [lia|]. split.
  - intros k. rewrite Hrows3. destruct (Nat.eqb_spec k i); [reflexivity|].
    rewrite Hrows2. destruct (Nat.eqb_spec k i); [contradiction|].
    rewrite Hrows1. destruct (Nat.eqb_spec k i); [contradiction | reflexivity].
  - split; [exact Hl3|].
    rewrite Hd3. rewrite Qabs_pos by lra. lra.
Qed.

Lemma spline_system_loop (m s : nat) (A : list (list Q)) (b : list Q) :
  (s + m = n - 2)%nat -> shape (n - 2) A -> length b = (n - 2)%nat ->
  (forall k, (s <= k < n - 2)%nat -> nth_error A k = Some zero_row) ->
  (forall k row, (k < s)%nat -> nth_error A k = Some row ->
                 length row = (n - 2)%nat /\
                 off_diagonal k row < Qabs (nth k row 0)) ->
  exists A' b',
    for_each (seq s m) (A, b) (spline_row n h ys) = Ok (A', b') /\
    length A' = (n - 2)%nat /\ length b' = (n - 2)%nat /\ diag_dominant A'.
Proof.
  revert s A b. induction m as [|m IH]; intros s A b Hsm Hsh Hb Hzero Hdone.
  - exists A, b. split; [reflexivity|]. destruct Hsh as [HlA HrA].
    split; [exact HlA|]. split; [exact Hb|].
    intros i row Hrow.
    assert (Hi : (i < length A)%nat) by (apply nth_error_Some; congruence).
    rewrite HlA. apply Hdone; [lia | exact Hrow].
  - cbn [seq for_each].
    destruct (spline_row_step s A b ltac:(lia) Hsh Hb (Hzero s ltac:(lia)))
      as [A1 [b1 [row1 [-> [Hsh1 [Hb1 [Hrows1 [Hl1 Hdom1]]]]]]]].
    cbn [bind]. apply IH; [lia | exact Hsh1 | exact Hb1 | |].
    + intros k Hk. rewrite Hrows1. destruct (Nat.eqb_spec k s); [lia|].
      apply Hzero. lia.
    + intros k row Hk Hrow. rewrite Hrows1 in Hrow.
      destruct (Nat.eqb_spec k s) as [->|Hne].
      * injection Hrow as <-. split; assumption.
      * apply Hdone; [lia | exact Hrow].
Qed.

Lemma spline_system_spec :
  exists A b, spline_system n h ys = Ok (A, b) /\
              length A = (n - 2)%nat /\ length b = (n - 2)%nat /\
              diag_dominant A.
Proof.
  unfold spline_system, range.
  apply spline_system_loop.
  - lia.
  - fold zero_row. split; [apply repeat_length|].
    intros row Hin. apply repeat_spec in Hin. subst row. apply repeat_length.
  - apply repeat_length.
  - intros k Hk. fold zero_row. apply nth_error_repeat. lia.
  - intros; lia.
Qed.

End System.

(** C9. On an accepted sample set and an empty query list,
    [linear_interpolate] raises "xq no puede estar vacío", while
    [lagrange_interpolate] returns the empty list, [eval_newton_poly]
    returns the empty list (for the output of [newton_divided_diffs],
    and for any node and coefficient vectors of equal length), and so
    does [cubic_spline_interpolate] on at least 3 samples, with a
    linear solver that returns on strictly diagonally dominant
    systems.  On 2 samples the spline routine hands over to
    [linear_interpolate] and raises as it does. *)
Theorem empty_query_list (solve : list (list Q) -> list Q -> result (list Q))
  (x y : list Q) :
  _validate_input x y = Ok tt ->
  linear_interpolate x y [] = Err (ValueError MsgEmptyXq) /\
  lagrange_interpolate x y [] = Ok [] /\
  (forall nodes c, newton_divided_diffs x y = Ok (nodes, c) ->
                   eval_newton_poly nodes c [] = Ok []) /\
  (forall nodes c, length nodes = length c ->
                   eval_newton_poly nodes c [] = Ok []) /\
  ((3 <= length x)%nat -> solves_dominant solve ->
   cubic_spline_interpolate solve x y [] = Ok []) /\
  (length x = 2%nat ->
   cubic_spline_interpolate solve x y [] = Err (ValueError MsgEmptyXq)).
Proof.
  intros Hv.
  assert (Heval : forall nodes c, length nodes = length c ->
                                  eval_newton_poly nodes c [] = Ok []).
  { intros nodes c Hlen. unfold eval_newton_poly.
    rewrite Hlen, Nat.eqb_refl. reflexivity. }
  split; [|split; [|split; [|split; [|split]]]].
  - unfold linear_interpolate. rewrite Hv. cbn [bind].
    destruct (_sort_points x y). reflexivity.
  - unfold lagrange_interpolate. rewrite Hv. reflexivity.
  - intros nodes c Hnd. apply Heval.
    apply (NewtonLagrange.newton_value_is_lagrange x y nodes c 0 Hv Hnd).
  - exact Heval.
  - intros Hn Hsolve.
    destruct (validate_input_ok x y Hv) as [Hlen _].
    pose proof (sort_points_spec x y Hv) as Hs.
    unfold cubic_spline_interpolate. rewrite Hv. cbn [bind].
    destruct (_sort_points x y) as [xs ys]. simpl fst in Hs. simpl snd in Hs.
    destruct Hs as [_ Hlx Hly Hinc].
    destruct (Nat.ltb_spec (length xs) 3) as [Hlt|_]; [lia|].
    destruct (spline_widths_spec xs Hinc) as [h [-> [Hlh Hh]]]. cbn [bind].
    destruct (spline_system_spec (length xs) h ys ltac:(lia) Hlh
                ltac:(intros i Hi; apply Hh; exact Hi) ltac:(lia))
      as [A [b [-> [HlA [Hlb Hdom]]]]].
    cbn [bind].
    destruct (Nat.ltb_spec 2 (length xs)) as [_|Hge]; [|lia].
    destruct (Hsolve A b Hdom ltac:(lia)) as [s [-> Hls]]. cbn [bind].
    unfold assign_inner. rewrite Hls, Hlb, Nat.eqb_refl. reflexivity.
  - intros H2.
    pose proof (sort_points_spec x y Hv) as Hs.
    unfold cubic_spline_interpolate. rewrite Hv. cbn [bind].
    destruct (_sort_points x y) as [xs ys]. simpl fst in Hs. simpl snd in Hs.
    destruct Hs as [_ Hlx Hly Hinc].
    destruct (Nat.ltb_spec (length xs) 3) as [_|Hge]; [|lia].
    unfold linear_interpolate.
    rewrite (validate_input_intro xs ys) by
      (try apply increasing_distinct; try assumption; lia).
    cbn [bind]. destruct (_sort_points xs ys). reflexivity.
Qed.

Lemma solve_stub_dominant : solves_dominant solve_stub.
Proof. intros A b _ _. exists b. split; reflexivity. Qed.

Lemma empty_query_list_witness :
  _validate_input ex_x ex_y = Ok tt /\
  (3 <= length ex_x)%nat /\ solves_dominant solve_stub /\
  linear_interpolate ex_x ex_y [] = Err (ValueError MsgEmptyXq) /\
  cubic_spline_interpolate solve_stub ex_x ex_y [] = Ok [].
Proof.
  destruct (empty_query_list solve_stub ex_x ex_y eq_refl)
    as [Hlin [_ [_ [_ [Hspl _]]]]].
  assert (H3 : (3 <= length ex_x)%nat) by (simpl; lia).
  split; [reflexivity|]. split; [exact H3|].
  split; [exact solve_stub_dominant|]. split; [exact Hlin|].
  apply Hspl; [exact H3 | exact solve_stub_dominant].
Defined.


End EmptyQuery.

(* ================================================================== *)
(** * Accepting and ordering the samples                               *)
(* ================================================================== *)

Module SamplePrep.

Import Interpolacion Props ValidateInput SortPoints.

(** X1. [_validate_input] accepts exactly the sample sets with as many
    x as y values, at least two of them, and pairwise different x
    values; every rejection is a [ValueError] with one of its first four
    messages (on numbers that are finite the two loops over the values
    never raise). *)
Theorem validate_input_accepts_iff (x y : list Q) :
  (_validate_input x y = Ok tt <->
   length x = length y /\ (2 <= length x)%nat /\ distinct x) /\
  (forall e, _validate_input x y = Err e ->
     e = ValueError MsgListsEmpty \/
     e = ValueError (MsgLengthMismatch (length x) (length y)) \/
     e = ValueError MsgTooFewPoints \/
     e = ValueError MsgDuplicateX).
Proof.
  split.
  - split; [apply validate_input_ok|].
    intros (H1 & H2 & H3). now apply validate_input_intro.
  - intros e. unfold _validate_input.
    destruct ((length x =? 0)%nat || (length y =? 0)%nat);
      [intros [= <-]; auto|].
    destruct (negb (length x =? length y)%nat); [intros [= <-]; auto|].
    destruct (length x <? 2)%nat; [intros [= <-]; auto|].
    destruct (negb (length (py_set x) =? length x)%nat); [intros [= <-]; auto 6|].
    rewrite (check_numbers_ok MsgInvalidX 0 x). cbn [bind].
    rewrite (check_numbers_ok MsgInvalidY 0 y). discriminate.
Qed.

(** ** The sort is stable *)

Lemma Qle_bool_false_neq (a b : Q) : Qle_bool a b = false -> ~ b == a.
Proof.
  intros H E. assert (Hle : a <= b) by (rewrite E; apply Qle_refl).
  apply Qle_bool_iff in Hle. congruence.
Qed.

Lemma insert_by_key_filter (k : Q) (p : Q * Q) (l : list (Q * Q)) :
  filter (fun r => Qeq_bool (fst r) k) (insert_by_key p l)
  = filter (fun r => Qeq_bool (fst r) k) (p :: l).
Proof.
  induction l as [|q t IH]; [reflexivity|].
  cbn [insert_by_key].
  destruct (Qle_bool (fst p) (fst q)) eqn:Hle; [reflexivity|].
  cbn [filter] in *. rewrite IH.
  destruct (Qeq_bool (fst p) k) eqn:Hp; [|reflexivity].
  destruct (Qeq_bool (fst q) k) eqn:Hq; [|reflexivity].
  exfalso. apply Qeq_bool_iff in Hp, Hq.
  apply (Qle_bool_false_neq _ _ Hle). rewrite Hp, Hq. reflexivity.
Qed.

Lemma sort_by_key_filter (k : Q) (l : list (Q * Q)) :
  filter (fun r => Qeq_bool (fst r) k) (sort_by_key l)
  = filter (fun r => Qeq_bool (fst r) k) l.
Proof.
  induction l as [|p t IH]; [reflexivity|].
  cbn [sort_by_key fold_right]. fold (sort_by_key t).
  rewrite insert_by_key_filter. cbn [filter]. rewrite IH. reflexivity.
Qed.

(** X2. [_sort_points] returns the zipped samples rearranged (nothing
    lost, nothing added, each y still beside its x), in non-decreasing
    order of x, and samples with equal x keep the order they came in. *)
Theorem sort_points_sorted_permutation (x y : list Q) :
  let xs := fst (_sort_points x y) in
  let ys := snd (_sort_points x y) in
  Permutation (combine x y) (combine xs ys) /\
  length xs = length ys /\
  keys_sorted (combine xs ys) /\
  forall k, filter (fun r => Qeq_bool (fst r) k) (combine xs ys)
            = filter (fun r => Qeq_bool (fst r) k) (combine x y).
Proof.
  unfold _sort_points. cbn [fst snd].
  rewrite combine_map_fst_snd.
  split; [apply sort_by_key_perm|].
  split; [now rewrite !length_map|].
  split; [apply sort_by_key_sorted|].
  intros k. apply sort_by_key_filter.
Qed.

(** ** Sorted lists with different keys are determined by their items *)

Lemma keys_sorted_unique (l l' : list (Q * Q)) :
  keys_sorted l -> keys_sorted l' -> distinct (map fst l) ->
  Permutation l l' -> l = l'.
Proof.
  revert l'. induction l as [|p t IH]; intros l' Hs Hs' Hd Hp.
  - apply Permutation_nil in Hp. now subst.
  - destruct l' as [|q t'].
    + apply Permutation_sym, Permutation_nil in Hp. discriminate.
    + assert (Hpq : p = q).
      { assert (Hin : In p (q :: t')) by (apply (Permutation_in _ Hp); now left).
        assert (Hin' : In q (p :: t))
          by (apply (Permutation_in _ (Permutation_sym Hp)); now left).
        destruct Hin as [E|Hin]; [now subst|].
        destruct Hin' as [E|Hin']; [now subst|].
        exfalso. destruct Hs as [Hs _]. destruct Hs' as [Hs' _].
        cbn [map distinct] in Hd. destruct Hd as [Hd _].
        apply (Hd (fst q)); [apply in_map; exact Hin'|].
        apply Qle_antisym; [apply Hs; exact Hin' | apply Hs'; exact Hin]. }
      subst q. f_equal.
      apply IH.
      * apply Hs.
      * apply Hs'.
      * apply Hd.
      * apply (Permutation_cons_inv Hp).
Qed.

Lemma sort_by_key_order_irrelevant (l l' : list (Q * Q)) :
  distinct (map fst l) -> Permutation l l' -> sort_by_key l = sort_by_key l'.
Proof.
  intros Hd Hp. apply keys_sorted_unique.
  - apply sort_by_key_sorted.
  - apply sort_by_key_sorted.
  - apply (distinct_perm (map fst l)); [|exact Hd].
    apply Permutation_map. apply sort_by_key_perm.
  - eapply perm_trans; [apply Permutation_sym, sort_by_key_perm|].
    eapply perm_trans; [exact Hp|]. apply sort_by_key_perm.
Qed.

Lemma sort_by_key_sorted_id (l : list (Q * Q)) :
  distinct (map fst l) -> sort_by_key (sort_by_key l) = sort_by_key l.
Proof.
  intros Hd. symmetry. apply sort_by_key_order_irrelevant; [exact Hd|].
  apply sort_by_key_perm.
Qed.

Lemma combine_lengths (x y : list Q) :
  length x = length y -> map fst (combine x y) = x /\ map snd (combine x y) = y.
Proof.
  revert y. induction x as [|a x IH]; intros [|b y] H; try discriminate.
  - split; reflexivity.
  - injection H as H. destruct (IH y H) as [H1 H2].
    cbn [combine map fst snd]. now rewrite H1, H2.
Qed.

(** Two sample sets that hold the same pairs are accepted or rejected
    together, with the same error. *)
Lemma validate_input_perm (x y x' y' : list Q) :
  length x = length y -> length x' = length y' ->
  Permutation (combine x y) (combine x' y') ->
  _validate_input x y = _validate_input x' y'.
Proof.
  intros Hl Hl' Hp.
  destruct (combine_lengths x y Hl) as [Hx _].
  destruct (combine_lengths x' y' Hl') as [Hx' _].
  assert (Hpx : Permutation x x').
  { rewrite <- Hx, <- Hx'. apply Permutation_map. exact Hp. }
  assert (Hlen : length x = length x') by (apply Permutation_length; exact Hpx).
  destruct (_validate_input x y) as [[]|e] eqn:Hv.
  - destruct (validate_input_ok x y Hv) as (_ & H2 & H3).
    symmetry. apply validate_input_intro; [exact Hl' | lia|].
    apply (distinct_perm x); assumption.
  - destruct (_validate_input x' y') as [[]|e'] eqn:Hv'.
    + destruct (validate_input_ok x' y' Hv') as (_ & H2 & H3).
      rewrite validate_input_intro in Hv; [discriminate | exact Hl | lia|].
      apply (distinct_perm x'); [apply Permutation_sym|]; assumption.
    + revert Hv Hv'. unfold _validate_input.
      rewrite <- Hl, <- Hl', <- Hlen.
      destruct ((length x =? 0)%nat || (length x =? 0)%nat); [congruence|].
      rewrite Nat.eqb_refl. cbn [negb].
      destruct (length x <? 2)%nat; [congruence|].
      rewrite (check_numbers_ok MsgInvalidX 0 x), (check_numbers_ok MsgInvalidX 0 x').
      cbn [bind].
      rewrite (check_numbers_ok MsgInvalidY 0 y), (check_numbers_ok MsgInvalidY 0 y').
      destruct (negb (length (py_set x) =? length x)%nat);
        destruct (negb (length (py_set x') =? length x)%nat); congruence.
Qed.

Lemma sort_points_perm (x y x' y' : list Q) :
  _validate_input x y = Ok tt -> length x' = length y' ->
  Permutation (combine x y) (combine x' y') ->
  _sort_points x y = _sort_points x' y'.
Proof.
  intros Hv Hl' Hp. unfold _sort_points.
  destruct (validate_input_ok x y Hv) as (Hl & _ & Hd).
  rewrite (sort_by_key_order_irrelevant (combine x y) (combine x' y')); [reflexivity| |exact Hp].
  destruct (combine_lengths x y Hl) as [-> _]. exact Hd.
Qed.

End SamplePrep.

(* ================================================================== *)
(** * The polygon through the samples                                  *)
(* ================================================================== *)

Module LinearValues.

Import Interpolacion Props ValidateInput SortPoints LinearNodes SamplePrep.

(** The first segment whose right end is not left of [q], among the
    first [m]. *)
Lemma first_right_end (xs : list Q) (q : Q) (m : nat) :
  (exists k, (k < m)%nat /\ q <= nth (k + 1) xs 0 /\
             forall j, (j < k)%nat -> nth (j + 1) xs 0 < q)
  \/ (forall j, (j < m)%nat -> nth (j + 1) xs 0 < q).
Proof.
  induction m as [|m [(k & Hk & Hq & Hj)|Hall]].
  - right. intros j Hj. lia.
  - left. exists k. split; [lia|]. split; assumption.
  - destruct (Qlt_le_dec (nth (m + 1) xs 0) q) as [Hlt|Hle].
    + right. intros j Hj. destruct (Nat.eq_dec j m) as [->|]; [exact Hlt|].
      apply Hall. lia.
    + left. exists m. split; [lia|]. split; [exact Hle|exact Hall].
Qed.

Lemma range_split (n k : nat) :
  (k < n)%nat -> range n = seq 0 k ++ k :: seq (S k) (n - S k).
Proof.
  intros Hk. unfold range.
  replace n with (k + (S (n - S k)))%nat at 1 by lia.
  rewrite seq_app. reflexivity.
Qed.

Lemma find_segment_found (xs ys : list Q) (q : Q) :
  increasing xs -> length ys = length xs -> (2 <= length xs)%nat ->
  nth 0 xs 0 <= q -> q <= nth (length xs - 1) xs 0 ->
  exists k v, (k + 1 < length xs)%nat /\
    find_segment xs ys q (range (length xs - 1)) = Ok (Some v) /\
    v == chord xs ys k q /\ nth k xs 0 <= q <= nth (k + 1) xs 0.
Proof.
  intros Hinc Hlen Hn Hlo Hhi.
  destruct (first_right_end xs q (length xs - 1)) as [(k & Hk & Hq & Hj)|Hall].
  - assert (Hxk : nth k xs 0 <= q).
    { destruct k as [|k]; [exact Hlo|].
      apply Qlt_le_weak. replace (S k) with (k + 1)%nat by lia. apply Hj. lia. }
    assert (Hlt : nth k xs 0 < nth (k + 1) xs 0)
      by (apply increasing_nth; [exact Hinc | lia]).
    rewrite (range_split (length xs - 1) k Hk).
    rewrite find_segment_skip.
    2:{ intros i Hi. apply in_seq in Hi. split; [lia|]. apply Hj. lia. }
    rewrite (find_segment_hit xs ys q k _ ltac:(lia) Hlen Hxk Hq Hlt).
    exists k. eexists. split; [lia|]. split; [reflexivity|].
    split; [|split; assumption].
    unfold chord. field. lra.
  - exfalso. specialize (Hall (length xs - 2)%nat ltac:(lia)).
    replace (length xs - 2 + 1)%nat with (length xs - 1)%nat in Hall by lia.
    lra.
Qed.

(** One query: the loop over the segments always assigns [yi], so the
    value left by the previous query is never used. *)
Lemma linear_step_value (xs ys : list Q) (q : Q) (yi : option Q) :
  increasing xs -> length ys = length xs -> (2 <= length xs)%nat ->
  exists v, linear_step xs ys q yi = Ok (Some v) /\ piecewise_linear xs ys q v.
Proof.
  intros Hinc Hlen Hn. unfold linear_step.
  rewrite (getitem_nth xs 0 0) by lia. cbn [bind].
  rewrite (getitem_neg_nth xs 1 0) by lia. cbn [bind].
  assert (H01 : nth 0 xs 0 < nth 1 xs 0) by (apply increasing_nth; [exact Hinc | lia]).
  assert (Hl : nth (length xs - 2) xs 0 < nth (length xs - 1) xs 0)
    by (apply increasing_nth; [exact Hinc | lia]).
  destruct (Qlt_le_dec q (nth 0 xs 0)) as [Hleft|Hge].
  - rewrite (Qlt_bool_true _ _ Hleft). cbn [orb].
    rewrite (getitem_nth ys 1 0) by lia. cbn [bind].
    rewrite (getitem_nth ys 0 0) by lia. cbn [bind].
    rewrite (getitem_nth xs 1 0) by lia. cbn [bind].
    rewrite py_div_ok by lra. cbn [bind].
    eexists. split; [reflexivity|].
    exists 0%nat. split; [lia|]. split; [|right; left; split; [reflexivity|exact Hleft]].
    unfold chord. cbn [Nat.add]. field. lra.
  - rewrite (Qlt_bool_false _ _ Hge). cbn [orb].
    destruct (Qlt_le_dec (nth (length xs - 1) xs 0) q) as [Hright|Hle].
    + rewrite (Qlt_bool_true _ _ Hright).
      rewrite (getitem_neg_nth ys 1 0) by lia. cbn [bind].
      rewrite (getitem_neg_nth ys 2 0) by lia. cbn [bind].
      rewrite (getitem_neg_nth xs 2 0) by lia. cbn [bind].
      rewrite py_div_ok by lra. cbn [bind].
      eexists. split; [reflexivity|].
      exists (length xs - 2)%nat. split; [lia|].
      replace (length xs - 2 + 1)%nat with (length xs - 1)%nat by lia.
      split; [|right; right; split; [lia|exact Hright]].
      unfold chord.
      replace (length xs - 2 + 1)%nat with (length xs - 1)%nat by lia.
      rewrite Hlen. field. lra.
    + rewrite (Qlt_bool_false _ _ Hle).
      destruct (find_segment_found xs ys q Hinc Hlen Hn Hge Hle)
        as (k & v & Hk & Hf & Hv & Hb).
      rewrite Hf. cbn [bind].
      exists v. split; [reflexivity|].
      exists k. split; [exact Hk|]. split; [exact Hv|]. left. exact Hb.
Qed.

Lemma linear_loop_values (xs ys xq : list Q) (yi : option Q) (res : list Q) :
  increasing xs -> length ys = length xs -> (2 <= length xs)%nat ->
  exists r, linear_loop xs ys xq yi res = Ok (res ++ r) /\
            Forall2 (piecewise_linear xs ys) xq r.
Proof.
  intros Hinc Hlen Hn. revert yi res.
  induction xq as [|q xq IH]; intros yi res.
  - exists []. split; [cbn; now rewrite app_nil_r | constructor].
  - cbn [linear_loop].
    destruct (linear_step_value xs ys q yi Hinc Hlen Hn) as (v & Hs & Hv).
    rewrite Hs. cbn [bind].
    destruct (IH (Some v) (res ++ [v])) as (r & Hr & Hall).
    exists (v :: r). split; [|constructor; assumption].
    rewrite Hr, <- app_assoc. reflexivity.
Qed.

Lemma linear_interpolate_values (x y xq : list Q) :
  _validate_input x y = Ok tt -> xq <> [] ->
  exists r, linear_interpolate x y xq = Ok r /\
    Forall2 (piecewise_linear (fst (_sort_points x y)) (snd (_sort_points x y)))
            xq r.
Proof.
  intros Hv Hq.
  destruct (validate_input_ok x y Hv) as (Hlen & Hn & _).
  pose proof (sort_points_spec x y Hv) as Hs.
  unfold linear_interpolate. rewrite Hv. cbn [bind].
  destruct (_sort_points x y) as [xs ys]. cbn [fst snd] in *.
  destruct Hs as [_ Hlx Hly Hinc].
  destruct xq as [|q0 xq]; [contradiction|].
  cbn [length Nat.eqb].
  destruct (linear_loop_values xs ys (q0 :: xq) None [] Hinc ltac:(lia) ltac:(lia))
    as (r & Hr & Hall).
  exists r. split; assumption.
Qed.



(** ** Samples on a line *)

Lemma on_line_nth (m c : Q) (xs ys : list Q) (k : nat) :
  length xs = length ys -> on_line m c xs ys -> (k < length xs)%nat ->
  nth k ys 0 == m * nth k xs 0 + c.
Proof.
  intros Hlen Hline Hk. unfold on_line in Hline.
  rewrite Forall_forall in Hline.
  specialize (Hline (nth k xs 0, nth k ys 0)).
  apply Hline. rewrite <- combine_nth by exact Hlen.
  apply nth_In. rewrite length_combine. lia.
Qed.

Lemma piecewise_linear_on_line (m c : Q) (xs ys : list Q) (q v : Q) :
  increasing xs -> length xs = length ys -> on_line m c xs ys ->
  piecewise_linear xs ys q v -> v == m * q + c.
Proof.
  intros Hinc Hlen Hline (k & Hk & Hv & _).
  pose proof (on_line_nth m c xs ys k Hlen Hline ltac:(lia)) as H0.
  pose proof (on_line_nth m c xs ys (k + 1) Hlen Hline ltac:(lia)) as H1.
  assert (Hlt : nth k xs 0 < nth (k + 1) xs 0)
    by (apply increasing_nth; [exact Hinc | lia]).
  rewrite Hv. unfold chord. rewrite H0, H1. field. lra.
Qed.



(** ** No overshoot between the samples *)

Lemma chord_between (xs ys : list Q) (k : nat) (q : Q) :
  nth k xs 0 < nth (k + 1) xs 0 ->
  nth k xs 0 <= q <= nth (k + 1) xs 0 ->
  (nth k ys 0 <= chord xs ys k q <= nth (k + 1) ys 0) \/
  (nth (k + 1) ys 0 <= chord xs ys k q <= nth k ys 0).
Proof.
  intros Hlt [Hlo Hhi]. unfold chord.
  set (x0 := nth k xs 0) in *. set (x1 := nth (k + 1) xs 0) in *.
  set (y0 := nth k ys 0). set (y1 := nth (k + 1) ys 0).
  set (t := (q - x0) / (x1 - x0)).
  assert (Ht0 : 0 <= t) by (apply Qle_shift_div_l; lra).
  assert (Ht1 : t <= 1) by (apply Qle_shift_div_r; lra).
  assert (E : y0 + (y1 - y0) / (x1 - x0) * (q - x0) == y0 + (y1 - y0) * t)
    by (unfold t; field; lra).
  rewrite E.
  destruct (Qlt_le_dec y1 y0) as [Hd|Hd].
  - right.
    pose proof (Qmult_le_0_compat (y0 - y1) t ltac:(lra) Ht0).
    pose proof (Qmult_le_0_compat (y0 - y1) (1 - t) ltac:(lra) ltac:(lra)).
    split; lra.
  - left.
    pose proof (Qmult_le_0_compat (y1 - y0) t ltac:(lra) Ht0).
    pose proof (Qmult_le_0_compat (y1 - y0) (1 - t) ltac:(lra) ltac:(lra)).
    split; lra.
Qed.



(** ** The order of the samples *)

Lemma linear_interpolate_perm (x y x' y' xq : list Q) :
  length x = length y -> length x' = length y' ->
  Permutation (combine x y) (combine x' y') ->
  linear_interpolate x y xq = linear_interpolate x' y' xq.
Proof.
  intros Hl Hl' Hp. unfold linear_interpolate.
  rewrite <- (validate_input_perm x y x' y' Hl Hl' Hp).
  destruct (_validate_input x y) as [[]|e] eqn:Hv; [|reflexivity].
  cbn [bind]. rewrite (sort_points_perm x y x' y' Hv Hl' Hp). reflexivity.
Qed.

Section Solver.

Variable solve : list (list Q) -> list Q -> result (list Q).


(** X6. With fewer than three samples [cubic_spline_interpolate] is
    [linear_interpolate]: same values, same errors (an empty query list
    included), whatever the linear solver does. *)
Theorem cubic_spline_two_points_is_linear (x y xq : list Q) :
  (length x < 3)%nat ->
  cubic_spline_interpolate solve x y xq = linear_interpolate x y xq.
Proof.
  intros Hn. unfold cubic_spline_interpolate.
  destruct (_validate_input x y) as [[]|e] eqn:Hv.
  - cbn [bind].
    destruct (validate_input_ok x y Hv) as (Hlen & _ & _).
    pose proof (sort_points_spec x y Hv) as [Hp Hlx Hly _].
    destruct (_sort_points x y) as [xs ys]. cbn [fst snd] in *.
    destruct (Nat.ltb_spec (length xs) 3) as [_|Hge]; [|lia].
    apply linear_interpolate_perm; [lia | exact Hlen|].
    apply Permutation_sym. exact Hp.
  - unfold linear_interpolate. rewrite Hv. reflexivity.
Qed.

End Solver.


Lemma cubic_spline_two_points_is_linear_witness :
  (length [0%Q; 1%Q] < 3)%nat /\
  cubic_spline_interpolate solve_stub [0; 1] [3; 5] ex_queries
  = linear_interpolate [0; 1] [3; 5] ex_queries.
Proof.
  assert (H : (length [0%Q; 1%Q] < 3)%nat) by (cbn; lia).
  split; [exact H|].
  apply (cubic_spline_two_points_is_linear solve_stub [0; 1] [3; 5] ex_queries H).
Defined.

End LinearValues.

(* ================================================================== *)
(** * The interpolating polynomial: Newton and Lagrange forms          *)
(* ================================================================== *)

Module PolyInterp.

Import Interpolacion ValidateInput SortPoints Props PolyFacts LinearNodes Table
  NewtonTable LagrangeCode NewtonLagrange NewtonEval SamplePrep.

(** ** The Lagrange polynomial at a node *)

Lemma prod_over_zero {A : Type} (f : A -> Q) (l : list A) (a : A) :
  In a l -> f a == 0 -> prod_over f l == 0.
Proof.
  induction l as [|b l IH]; intros Hin Hz; [contradiction|].
  cbn [prod_over]. destruct Hin as [->|Hin].
  - rewrite Hz. ring.
  - rewrite (IH Hin Hz). ring.
Qed.

Lemma prod_over_all_one {A : Type} (f : A -> Q) (l : list A) :
  (forall a, In a l -> f a == 1) -> prod_over f l == 1.
Proof.
  induction l as [|b l IH]; intros H; cbn [prod_over]; [reflexivity|].
  rewrite (H b (or_introl eq_refl)), IH; [ring|].
  intros a Ha. apply H. now right.
Qed.

Lemma sum_over_all_zero {A : Type} (f : A -> Q) (l : list A) :
  (forall a, In a l -> f a == 0) -> sum_over f l == 0.
Proof.
  induction l as [|b l IH]; intros H; cbn [sum_over]; [reflexivity|].
  rewrite (H b (or_introl eq_refl)), IH; [ring|].
  intros a Ha. apply H. now right.
Qed.

Lemma basis_self (ctx : list Q) (a : Q) : basis ctx a a == 1.
Proof.
  unfold basis. apply prod_over_all_one. intros b Hb.
  apply in_others in Hb. destruct Hb as [_ Hb]. field.
  intros E. apply Hb. lra.
Qed.

Lemma basis_other (ctx : list Q) (q a : Q) :
  In q ctx -> ~ q == a -> basis ctx q a == 0.
Proof.
  intros Hin Hne. unfold basis. apply (prod_over_zero _ _ q).
  - apply in_others. split; assumption.
  - field. intros E. apply Hne. lra.
Qed.

Lemma lagrange_poly_at_node (ps : list (Q * Q)) (p : Q * Q) :
  distinct (map fst ps) -> In p ps -> lagrange_poly ps (fst p) == snd p.
Proof.
  intros Hd Hin. destruct (in_split p ps Hin) as (l1 & l2 & ->).
  unfold lagrange_poly.
  set (X := map fst (l1 ++ p :: l2)).
  assert (HinX : In (fst p) X) by (apply in_map; exact Hin).
  assert (Hother : forall p', In p' (l1 ++ l2) ->
                     snd p' * basis X (fst p) (fst p') == 0).
  { intros p' Hp'. rewrite basis_other; [ring | exact HinX|].
    intros E. unfold X in Hd. rewrite map_app in Hd. cbn [map] in Hd.
    apply (distinct_in_neq (fst p) (fst p') _ _ Hd).
    - rewrite <- map_app. apply in_map. exact Hp'.
    - symmetry. exact E. }
  rewrite sum_over_app. cbn [sum_over].
  rewrite (sum_over_all_zero _ l1)
    by (intros a Ha; apply Hother; apply in_or_app; now left).
  rewrite (sum_over_all_zero _ l2)
    by (intros a Ha; apply Hother; apply in_or_app; now right).
  rewrite basis_self. ring.
Qed.

Lemma sample_in_combine (x y : list Q) (i : nat) :
  length x = length y -> (i < length x)%nat ->
  In (nth i x 0, nth i y 0) (combine x y).
Proof.
  intros Hlen Hi. rewrite <- combine_nth by exact Hlen.
  apply nth_In. rewrite length_combine. lia.
Qed.

(** ** Both routines return on separated samples *)

Lemma newton_divided_diffs_returns (x y : list Q) :
  _validate_input x y = Ok tt -> separatedb x = true ->
  exists c, newton_divided_diffs x y = Ok (fst (_sort_points x y), c) /\
    length c = length x /\
    forall j, (j < length x)%nat ->
      nth j c 0 == window_dd (sort_by_key (combine x y)) 0 j.
Proof.
  intros Hv Hsep.
  destruct (validate_input_ok x y Hv) as (Hlen & Hn2 & Hd).
  pose proof (newton_divided_diffs_result x y Hv) as Hres. cbv zeta in Hres.
  pose proof (sorted_nodes_perm x y Hlen) as Hperm.
  assert (Hlp : length (sort_by_key (combine x y)) = length x).
  { rewrite <- (Permutation_length (sort_by_key_perm _)), length_combine. lia. }
  assert (Hsep' : separatedb (map fst (sort_by_key (combine x y))) = true)
    by (apply (separatedb_perm x); assumption).
  destruct (newton_divided_diffs x y) as [[nodes c]|e].
  - destruct Hres as (-> & Hlc & Hc & _).
    exists c. split; [reflexivity|]. split; [lia|].
    intros j Hj. apply Hc. lia.
  - exfalso. destruct Hres as (hi & lo & _ & Hlh & Hnz).
    rewrite (separatedb_nth _ hi lo Hsep') in Hnz;
      try (rewrite length_map; lia); [discriminate | lia].
Qed.

Lemma lagrange_value_returns (x y : list Q) (q : Q) :
  _validate_input x y = Ok tt -> separatedb x = true ->
  exists v, lagrange_value x y (length x) q = Ok v /\
            v == lagrange_poly (combine x y) q.
Proof.
  intros Hv Hsep.
  destruct (validate_input_ok x y Hv) as (Hlen & Hn2 & Hd).
  pose proof (lagrange_value_result x y q Hd Hlen) as Hl.
  destruct (lagrange_value x y (length x) q) as [v|e].
  - exists v. split; [reflexivity | apply Hl].
  - exfalso. destruct Hl as (i & j & Hi & Hj & Hij & _ & Hnz).
    rewrite (separatedb_nth x i j Hsep Hi Hj Hij) in Hnz. discriminate.
Qed.

(** A loop that appends one computed value per item. *)
Lemma for_each_collect_rel {I B : Type} (g : I -> result B) (P : I -> B -> Prop)
  (l : list I) (res : list B) :
  (forall i, In i l -> exists v, g i = Ok v /\ P i v) ->
  exists r, for_each l res (fun i res => v <- g i ;; Ok (res ++ [v]))
            = Ok (res ++ r) /\ Forall2 P l r.
Proof.
  revert res. induction l as [|i l IH]; intros res H.
  - exists []. split; [cbn; now rewrite app_nil_r | constructor].
  - destruct (H i (or_introl eq_refl)) as (v & Hg & Hp).
    destruct (IH (res ++ [v])) as (r & Hr & Hall).
    { intros j Hj. apply H. now right. }
    exists (v :: r). split; [|constructor; assumption].
    cbn [for_each]. rewrite Hg. cbn [bind]. rewrite Hr, <- app_assoc. reflexivity.
Qed.

Lemma lagrange_interpolate_values (x y xq : list Q) :
  _validate_input x y = Ok tt -> separatedb x = true ->
  exists r, lagrange_interpolate x y xq = Ok r /\
            Forall2 (fun q v => v == lagrange_poly (combine x y) q) xq r.
Proof.
  intros Hv Hsep. unfold lagrange_interpolate. rewrite Hv. cbn [bind].
  destruct (for_each_collect_rel (lagrange_value x y (length x))
              (fun q v => v == lagrange_poly (combine x y) q) xq [])
    as (r & Hr & Hall).
  { intros q _. apply lagrange_value_returns; assumption. }
  exists r. split; [exact Hr | exact Hall].
Qed.











End PolyInterp.

(* ================================================================== *)
(** * The values of the cubic spline                                   *)
(* ================================================================== *)

Module SplineValues.

Import Interpolacion ValidateInput SortPoints Props LinearNodes Table SamplePrep
  LinearValues EmptyQuery.

(** The spline value at a sample is the sample's y, whichever branch
    produced it. *)
Lemma spline_value_at_sample (xs ys sd : list Q) (k : nat) (v : Q) :
  increasing xs -> (3 <= length xs)%nat ->
  (k < length xs)%nat -> spline_value xs ys sd (nth k xs 0) v -> v == nth k ys 0.
Proof.
  intros Hinc Hn Hk [[Hle Hv]|[[Hge Hv]|(_ & i & Hi & [Hlo Hhi] & Hv)]].
  - assert (k = 0%nat) as ->.
    { destruct k as [|k]; [reflexivity|]. exfalso.
      pose proof (increasing_nth xs 0 (S k) Hinc ltac:(lia)). lra. }
    rewrite Hv. unfold chord. cbn [Nat.add].
    assert (H01 : nth 0 xs 0 < nth 1 xs 0) by (apply increasing_nth; [exact Hinc | lia]).
    field. lra.
  - assert (k = (length xs - 1)%nat) as ->.
    { destruct (Nat.eq_dec k (length xs - 1)) as [E|NE]; [exact E|]. exfalso.
      pose proof (increasing_nth xs k (length xs - 1) Hinc ltac:(lia)). lra. }
    rewrite Hv. unfold chord.
    replace (length xs - 2 + 1)%nat with (length xs - 1)%nat by lia.
    assert (Hl : nth (length xs - 2) xs 0 < nth (length xs - 1) xs 0)
      by (apply increasing_nth; [exact Hinc | lia]).
    field. lra.
  - assert (Hlt : nth i xs 0 < nth (i + 1) xs 0)
      by (apply increasing_nth; [exact Hinc | lia]).
    assert (Hcase : k = i \/ k = (i + 1)%nat).
    { destruct (Nat.lt_ge_cases k i) as [Hki|Hki].
      - exfalso. pose proof (increasing_nth xs k i Hinc ltac:(lia)). lra.
      - destruct (Nat.lt_ge_cases (i + 1) k) as [Hik|Hik]; [|lia].
        exfalso. pose proof (increasing_nth xs (i + 1) k Hinc ltac:(lia)). lra. }
    rewrite Hv. unfold cubic_piece. cbv zeta.
    destruct Hcase as [->| ->]; field; lra.
Qed.

Section Segments.

Variables (xs ys h sd : list Q).

Hypothesis Hinc : increasing xs.
Hypothesis Hn : (3 <= length xs)%nat.
Hypothesis Hys : length ys = length xs.
Hypothesis Hh : length h = (length xs - 1)%nat.
Hypothesis Hw : forall i, (i < length xs - 1)%nat ->
                          nth i h 0 = nth (i + 1) xs 0 - nth i xs 0.
Hypothesis Hsd : length sd = length xs.

Lemma find_spline_segment_skip (q : Q) (idxs rest : list nat) :
  (forall i, In i idxs -> (i + 1 < length xs)%nat /\ nth (i + 1) xs 0 < q) ->
  find_spline_segment xs ys h sd q (idxs ++ rest)
  = find_spline_segment xs ys h sd q rest.
Proof.
  induction idxs as [|i idxs IH]; intros H; [reflexivity|].
  destruct (H i (or_introl eq_refl)) as [Hi Hlt].
  cbn [app find_spline_segment].
  rewrite (getitem_nth xs i 0) by lia. cbn [bind].
  rewrite (getitem_nth xs (i + 1) 0) by lia. cbn [bind].
  rewrite (Qle_bool_false q (nth (i + 1) xs 0)) by exact Hlt.
  destruct (Qle_bool (nth i xs 0) q); apply IH; intros j Hj; apply H; now right.
Qed.

Lemma find_spline_segment_hit (q : Q) (i : nat) (rest : list nat) :
  (i + 1 < length xs)%nat ->
  nth i xs 0 <= q -> q <= nth (i + 1) xs 0 ->
  exists v, find_spline_segment xs ys h sd q (i :: rest) = Ok (Some v) /\
            v == cubic_piece xs ys sd i q.
Proof.
  intros Hi Hlo Hhi.
  assert (Hlt : nth i xs 0 < nth (i + 1) xs 0)
    by (apply increasing_nth; [exact Hinc | lia]).
  cbn [find_spline_segment].
  rewrite (getitem_nth xs i 0) by lia. cbn [bind].
  rewrite (Qle_bool_true _ _ Hlo).
  rewrite (getitem_nth xs (i + 1) 0) by lia. cbn [bind].
  rewrite (Qle_bool_true _ _ Hhi).
  rewrite (getitem_nth ys i 0) by lia. cbn [bind].
  rewrite (getitem_nth ys (i + 1) 0) by lia. cbn [bind].
  rewrite (getitem_nth h i 0) by lia. cbn [bind].
  rewrite (Hw i) by lia.
  rewrite py_div_ok by lra. cbn [bind].
  rewrite (getitem_nth sd i 0) by lia. cbn [bind].
  rewrite (getitem_nth sd (i + 1) 0) by lia. cbn [bind].
  eexists. split; [reflexivity|].
  unfold cubic_piece. cbv zeta. reflexivity.
Qed.

(** One query: a value is always assigned. *)
Lemma spline_step_value (q : Q) (yi : option Q) :
  exists v, spline_step (length xs) xs ys h sd q yi = Ok (Some v) /\
            spline_value xs ys sd q v.
Proof.
  unfold spline_step.
  rewrite (getitem_nth xs 0 0) by lia. cbn [bind].
  assert (H01 : nth 0 xs 0 < nth 1 xs 0) by (apply increasing_nth; [exact Hinc | lia]).
  assert (Hl : nth (length xs - 2) xs 0 < nth (length xs - 1) xs 0)
    by (apply increasing_nth; [exact Hinc | lia]).
  destruct (Qlt_le_dec (nth 0 xs 0) q) as [Hgt|Hle].
  - rewrite (Qle_bool_false _ _ Hgt).
    rewrite (getitem_neg_nth xs 1 0) by lia. cbn [bind].
    destruct (Qlt_le_dec q (nth (length xs - 1) xs 0)) as [Hin|Hright].
    + rewrite (Qle_bool_false _ _ Hin).
      destruct (first_right_end xs q (length xs - 1)) as [(k & Hk & Hq & Hj)|Hall].
      * assert (Hxk : nth k xs 0 <= q).
        { destruct k as [|k]; [apply Qlt_le_weak; exact Hgt|].
          apply Qlt_le_weak. replace (S k) with (k + 1)%nat by lia. apply Hj. lia. }
        rewrite (range_split (length xs - 1) k Hk).
        rewrite find_spline_segment_skip.
        2:{ intros i Hi. apply in_seq in Hi. split; [lia|]. apply Hj. lia. }
        destruct (find_spline_segment_hit q k (seq (S k) (length xs - 1 - S k))
                    ltac:(lia) Hxk Hq) as (v & Hf & Hv).
        rewrite Hf. cbn [bind].
        exists v. split; [reflexivity|]. right; right.
        split; [split; assumption|].
        exists k. split; [lia|]. split; [split; assumption | exact Hv].
      * exfalso. specialize (Hall (length xs - 2)%nat ltac:(lia)).
        replace (length xs - 2 + 1)%nat with (length xs - 1)%nat in Hall by lia.
        lra.
    + rewrite (Qle_bool_true _ _ Hright).
      rewrite (getitem_neg_nth ys 1 0) by lia. cbn [bind].
      rewrite (getitem_neg_nth ys 2 0) by lia. cbn [bind].
      rewrite (getitem_neg_nth h 1 0) by lia. cbn [bind].
      rewrite Hh.
      replace (length xs - 1 - 1)%nat with (length xs - 2)%nat by lia.
      rewrite (Hw (length xs - 2)%nat) by lia.
      replace (length xs - 2 + 1)%nat with (length xs - 1)%nat by lia.
      rewrite py_div_ok by lra. cbn [bind].
      eexists. split; [reflexivity|]. right; left.
      split; [exact Hright|].
      unfold chord.
      replace (length xs - 2 + 1)%nat with (length xs - 1)%nat by lia.
      rewrite Hys. field. lra.
  - rewrite (Qle_bool_true _ _ Hle).
    rewrite (getitem_nth ys 1 0) by lia. cbn [bind].
    rewrite (getitem_nth ys 0 0) by lia. cbn [bind].
    rewrite (getitem_nth h 0 0) by lia. cbn [bind].
    rewrite (Hw 0%nat) by lia. cbn [Nat.add].
    rewrite py_div_ok by lra. cbn [bind].
    eexists. split; [reflexivity|]. left.
    split; [exact Hle|].
    unfold chord. cbn [Nat.add]. field. lra.
Qed.

Lemma spline_loop_values (xq : list Q) (yi : option Q) (res : list Q) :
  exists r, spline_loop (length xs) xs ys h sd xq yi res = Ok (res ++ r) /\
            Forall2 (spline_value xs ys sd) xq r.
Proof.
  revert yi res. induction xq as [|q xq IH]; intros yi res.
  - exists []. split; [cbn; now rewrite app_nil_r | constructor].
  - cbn [spline_loop].
    destruct (spline_step_value q yi) as (v & Hs & Hv).
    rewrite Hs. cbn [bind].
    destruct (IH (Some v) (res ++ [v])) as (r & Hr & Hall).
    exists (v :: r). split; [|constructor; assumption].
    rewrite Hr, <- app_assoc. reflexivity.
Qed.

End Segments.

Section Solver.

Variable solve : list (list Q) -> list Q -> result (list Q).

Hypothesis Hsolve : solves_dominant solve.

(** The routine on at least three accepted samples: it returns, and its
    values are those of a spline with some second derivatives that
    vanish at both ends. *)
Lemma cubic_spline_values (x y xq : list Q) :
  _validate_input x y = Ok tt -> (3 <= length x)%nat ->
  exists sd r,
    length sd = length x /\ nth 0 sd 0 = 0 /\ nth (length x - 1) sd 0 = 0 /\
    cubic_spline_interpolate solve x y xq = Ok r /\
    Forall2 (spline_value (fst (_sort_points x y)) (snd (_sort_points x y)) sd)
            xq r.
Proof.
  intros Hv Hn.
  destruct (validate_input_ok x y Hv) as [Hlen _].
  pose proof (sort_points_spec x y Hv) as Hs.
  unfold cubic_spline_interpolate. rewrite Hv. cbn [bind].
  destruct (_sort_points x y) as [xs ys]. cbn [fst snd] in *.
  destruct Hs as [_ Hlx Hly Hinc].
  destruct (Nat.ltb_spec (length xs) 3) as [Hlt|_]; [lia|].
  destruct (spline_widths_spec xs Hinc) as [h [-> [Hlh Hh]]]. cbn [bind].
  destruct (spline_system_spec (length xs) h ys ltac:(lia) Hlh
              ltac:(intros i Hi; apply Hh; exact Hi) ltac:(lia))
    as [A [b [-> [HlA [Hlb Hdom]]]]].
  cbn [bind].
  destruct (Nat.ltb_spec 2 (length xs)) as [_|Hge]; [|lia].
  destruct (Hsolve A b Hdom ltac:(lia)) as [s [-> Hls]]. cbn [bind].
  unfold assign_inner. rewrite Hls, Hlb, Nat.eqb_refl. cbn [bind].
  assert (Hsd : length (0 :: s ++ [0]) = length xs).
  { cbn [length]. rewrite length_app. cbn [length]. lia. }
  destruct (spline_loop_values xs ys h (0 :: s ++ [0]) Hinc ltac:(lia) ltac:(lia)
              Hlh ltac:(intros i Hi; apply Hh; exact Hi) Hsd xq None [])
    as (r & Hr & Hall).
  exists (0 :: s ++ [0]), r.
  split; [lia|]. split; [reflexivity|]. split.
  - rewrite <- Hlx.
    replace (length xs - 1)%nat with (S (length s)) by lia.
    cbn [nth]. rewrite app_nth2 by lia. now rewrite Nat.sub_diag.
  - split; [exact Hr | exact Hall].
Qed.



End Solver.



End SplineValues.

(* ================================================================== *)
(** * Quadrature: what is accepted, and exactness on polynomials       *)
(* ================================================================== *)

Module Quadrature.

Import Integracion Props SimpsonAdjust PolyFacts.

(** X15. [_validate_integration_params] accepts exactly finite limits
    with a < b and a subdivision count between 1 and 10000; every
    rejection is a [ValueError]. *)
Theorem validate_integration_accepts_iff (a b : pyfloat) (n : Z) :
  (_validate_integration_params a b n = Ok tt <->
   exists qa qb, a = Fin qa /\ b = Fin qb /\ qa < qb /\ (1 <= n <= 10000)%Z) /\
  (forall e, _validate_integration_params a b n = Err e ->
             exists m, e = ValueError m).
Proof.
  split.
  - split; [apply validate_integration_ok|].
    intros (qa & qb & -> & -> & Hlt & Hn). now apply validate_integration_intro.
  - intros e. unfold _validate_integration_params.
    repeat match goal with
           | |- (if ?c then _ else _) = _ -> _ => destruct c
           end; intros [= <-] || discriminate; eauto.
Qed.

(** ** The parser *)


(** ** Arithmetic on finite floats *)

Lemma inject_Z_nonzero (n : Z) : (1 <= n)%Z -> ~ inject_Z n == 0.
Proof.
  intros Hn E. unfold Qeq, inject_Z in E. cbn in E. lia.
Qed.

Lemma step_width (qa qb : Q) (n : Z) :
  (1 <= n)%Z ->
  fdiv (fsub (Fin qb) (Fin qa)) (of_int n) = Fin ((qb + - qa) / inject_Z n).
Proof.
  intros Hn. unfold of_int, fsub, fneg, fadd, fdiv.
  destruct (Qeq_bool (inject_Z n) 0) eqn:E; [|reflexivity].
  apply Qeq_bool_iff in E. exfalso. exact (inject_Z_nonzero n Hn E).
Qed.

Lemma fadd_Fin (p q : Q) : fadd (Fin p) (Fin q) = Fin (p + q).
Proof. reflexivity. Qed.

Lemma fmul_Fin (p q : Q) : fmul (Fin p) (Fin q) = Fin (p * q).
Proof. reflexivity. Qed.

Lemma fdiv_Fin (p q : Q) :
  Qeq_bool q 0 = false -> fdiv (Fin p) (Fin q) = Fin (p / q).
Proof. intros H. unfold fdiv. now rewrite H. Qed.

Ltac fin_arith :=
  repeat first [ rewrite fmul_Fin | rewrite fadd_Fin
               | rewrite fdiv_Fin by reflexivity ].

Lemma poly_eval_compat (c : list Q) (x y : Q) :
  x == y -> poly_eval c x == poly_eval c y.
Proof.
  intros E. induction c as [|a c IH]; cbn [poly_eval]; [reflexivity|].
  rewrite IH, E. reflexivity.
Qed.

#[global] Instance poly_eval_proper (c : list Q) :
  Proper (Qeq ==> Qeq) (poly_eval c).
Proof. intros x y E. apply poly_eval_compat. exact E. Qed.

(** ** Sums along a loop *)

Lemma for_each_sum {I S : Type} (proj : S -> pyfloat) (gq : I -> Q)
  (l : list I) (body : I -> S -> result S) :
  (forall i s q, In i l -> proj s = Fin q ->
     exists s' v, body i s = Ok s' /\ proj s' = Fin (q + v) /\ v == gq i) ->
  forall s q, proj s = Fin q ->
  exists s' r, for_each l s body = Ok s' /\ proj s' = Fin r /\
               r == q + sum_over gq l.
Proof.
  induction l as [|i l IH]; intros H s q Hs.
  - exists s, q. split; [reflexivity|]. split; [exact Hs|]. cbn. ring.
  - destruct (H i s q (or_introl eq_refl) Hs) as (s1 & v & Hb & Hp & Hv).
    destruct (IH (fun j s q Hj => H j s q (or_intror Hj)) s1 (q + v) Hp)
      as (s' & r & Hf & Hp' & Hr).
    exists s', r. split; [cbn [for_each]; rewrite Hb; exact Hf|].
    split; [exact Hp'|]. rewrite Hr. cbn [sum_over]. rewrite Hv. ring.
Qed.

Lemma zrange_snoc (a b : Z) :
  (a <= b)%Z -> zrange a (b + 1) = zrange a b ++ [b].
Proof.
  intros Hab. unfold zrange.
  replace (Z.to_nat (b + 1 - a)) with (S (Z.to_nat (b - a))) by lia.
  rewrite seq_S, map_app. cbn [map Nat.add]. do 2 f_equal. lia.
Qed.

Lemma zrange_nil (a : Z) : zrange a a = [].
Proof. unfold zrange. now rewrite Z.sub_diag. Qed.

Lemma zrange_step_odd (m : nat) :
  zrange_step 1 (2 * Z.of_nat m) 2
  = map (fun k => (1 + 2 * Z.of_nat k)%Z) (seq 0 m).
Proof.
  unfold zrange_step.
  replace ((2 * Z.of_nat m - 1 + 2 - 1) / 2)%Z with (Z.of_nat m)
    by (apply Z.div_unique with 0%Z; lia).
  now rewrite Nat2Z.id.
Qed.

Lemma zrange_step_even (m : nat) :
  zrange_step 2 (2 * Z.of_nat (S m)) 2
  = map (fun k => (2 + 2 * Z.of_nat k)%Z) (seq 0 m).
Proof.
  unfold zrange_step.
  replace ((2 * Z.of_nat (S m) - 2 + 2 - 1) / 2)%Z with (Z.of_nat m)
    by (apply Z.div_unique with 1%Z; lia).
  now rewrite Nat2Z.id.
Qed.

Lemma sum_over_map_seq (g : Z -> Q) (f : nat -> Z) (m : nat) :
  sum_over g (map f (seq 0 m)) == sum_upto m (fun k => g (f k)).
Proof.
  induction m as [|m IH]; [reflexivity|].
  rewrite seq_S, map_app, sum_over_app. cbn [map sum_over sum_upto Nat.add].
  rewrite IH. ring.
Qed.

(** ** Composite rules telescope over their panels *)

Section Telescope.

Variables (g F : Z -> Q) (h : Q).

Lemma trapezoid_telescope :
  (forall i, h / 2 * (g i + g (i + 1)) == F (i + 1) - F i) ->
  forall m : nat,
    h * (g 0 + 2 * sum_over g (zrange 1 (Z.of_nat (S m))) + g (Z.of_nat (S m))) / 2
    == F (Z.of_nat (S m)) - F 0.
Proof.
  intros Hp. induction m as [|m IH].
  - change (Z.of_nat 1) with 1%Z. rewrite zrange_nil. cbn [sum_over].
    pose proof (Hp 0%Z) as H0. simpl Z.add in H0.
    rewrite <- H0. field.
  - pose proof (Hp (Z.of_nat (S m))) as Hk.
    replace (Z.of_nat (S (S m))) with (Z.of_nat (S m) + 1)%Z by lia.
    rewrite zrange_snoc by lia. rewrite sum_over_app. cbn [sum_over].
    setoid_replace (F (Z.of_nat (S m) + 1) - F 0)
      with ((F (Z.of_nat (S m) + 1) - F (Z.of_nat (S m)))
            + (F (Z.of_nat (S m)) - F 0)) by ring.
    rewrite <- Hk, <- IH. field.
Qed.

Lemma simpson_13_telescope :
  (forall k, h / 3 * (g (2 * k) + 4 * g (2 * k + 1) + g (2 * k + 2))
             == F (k + 1) - F k) ->
  forall m : nat,
    h * (g 0
         + 4 * sum_upto (S m) (fun k => g (1 + 2 * Z.of_nat k))
         + 2 * sum_upto m (fun k => g (2 + 2 * Z.of_nat k))
         + g (2 * Z.of_nat (S m))) / 3
    == F (Z.of_nat (S m)) - F 0.
Proof.
  intros Hp. induction m as [|m IH].
  - cbn [sum_upto]. change (Z.of_nat 1) with 1%Z. change (Z.of_nat 0) with 0%Z.
    simpl Z.mul. simpl Z.add.
    pose proof (Hp 0%Z) as H0. simpl Z.mul in H0. simpl Z.add in H0.
    rewrite <- H0. field.
  - pose proof (Hp (Z.of_nat (S m))) as Hk.
    replace (Z.of_nat (S (S m))) with (Z.of_nat (S m) + 1)%Z by lia.
    replace (2 * (Z.of_nat (S m) + 1))%Z with (2 * Z.of_nat (S m) + 2)%Z by lia.
    cbn [sum_upto] in *.
    replace (1 + 2 * Z.of_nat (S m))%Z with (2 * Z.of_nat (S m) + 1)%Z by lia.
    replace (2 + 2 * Z.of_nat m)%Z with (2 * Z.of_nat (S m))%Z by lia.
    setoid_replace (F (Z.of_nat (S m) + 1) - F 0)
      with ((F (Z.of_nat (S m) + 1) - F (Z.of_nat (S m)))
            + (F (Z.of_nat (S m)) - F 0)) by ring.
    rewrite <- Hk, <- IH. field.
Qed.

(** The weights of the 3/8 rule at the interior points. *)
Lemma simpson_38_telescope (w38 : Z -> Q) :
  (forall i, w38 i = if (i mod 3 =? 0)%Z then 2 * g i else 3 * g i) ->
  (forall k, 3 * h * (g (3 * k) + 3 * g (3 * k + 1) + 3 * g (3 * k + 2)
                      + g (3 * k + 3)) / 8
             == F (k + 1) - F k) ->
  forall m : nat,
    3 * h * (g 0 + sum_over w38 (zrange 1 (3 * Z.of_nat (S m)))
             + g (3 * Z.of_nat (S m))) / 8
    == F (Z.of_nat (S m)) - F 0.
Proof.
  intros Hw Hp.
  assert (W0 : forall k : Z, w38 (3 * k)%Z = 2 * g (3 * k)).
  { intros k. rewrite Hw. replace ((3 * k) mod 3)%Z with 0%Z; [reflexivity|].
    rewrite Z.mul_comm, Z.mod_mul by lia. reflexivity. }
  assert (W1 : forall k : Z, w38 (3 * k + 1)%Z = 3 * g (3 * k + 1)).
  { intros k. rewrite Hw. replace ((3 * k + 1) mod 3)%Z with 1%Z; [reflexivity|].
    apply Z.mod_unique with k; lia. }
  assert (W2 : forall k : Z, w38 (3 * k + 2)%Z = 3 * g (3 * k + 2)).
  { intros k. rewrite Hw. replace ((3 * k + 2) mod 3)%Z with 2%Z; [reflexivity|].
    apply Z.mod_unique with k; lia. }
  induction m as [|m IH].
  - change (Z.of_nat 1) with 1%Z. change (3 * 1)%Z with 3%Z.
    change (zrange 1 3) with [(3 * 0 + 1)%Z; (3 * 0 + 2)%Z].
    cbn [sum_over]. rewrite W1, W2.
    pose proof (Hp 0%Z) as H0. simpl Z.mul in *. simpl Z.add in *.
    rewrite <- H0. field.
  - pose proof (Hp (Z.of_nat (S m))) as Hk.
    replace (Z.of_nat (S (S m))) with (Z.of_nat (S m) + 1)%Z by lia.
    replace (3 * (Z.of_nat (S m) + 1))%Z
      with (3 * Z.of_nat (S m) + 1 + 1 + 1)%Z by lia.
    rewrite !zrange_snoc by lia. rewrite !sum_over_app. cbn [sum_over].
    replace (3 * Z.of_nat (S m) + 1 + 1)%Z with (3 * Z.of_nat (S m) + 2)%Z by lia.
    replace (3 * Z.of_nat (S m) + 2 + 1)%Z with (3 * Z.of_nat (S m) + 3)%Z by lia.
    rewrite W0, W1, W2.
    setoid_replace (F (Z.of_nat (S m) + 1) - F 0)
      with ((F (Z.of_nat (S m) + 1) - F (Z.of_nat (S m)))
            + (F (Z.of_nat (S m)) - F 0)) by ring.
    rewrite <- Hk, <- IH. field.
Qed.

End Telescope.

(** ** One panel of each rule on a polynomial *)

Lemma trapezoid_panel (c : list Q) (u h : Q) :
  (length c <= 2)%nat ->
  h / 2 * (poly_eval c u + poly_eval c (u + h))
  == antiderivative c (u + h) - antiderivative c u.
Proof.
  intros Hc. unfold antiderivative.
  destruct c as [|c0 [|c1 [|c2 c]]]; cbn in *; try lia; field.
Qed.

Lemma simpson_13_panel (c : list Q) (u h : Q) :
  (length c <= 4)%nat ->
  h / 3 * (poly_eval c u + 4 * poly_eval c (u + h) + poly_eval c (u + 2 * h))
  == antiderivative c (u + 2 * h) - antiderivative c u.
Proof.
  intros Hc. unfold antiderivative.
  destruct c as [|c0 [|c1 [|c2 [|c3 [|c4 c]]]]]; cbn in *; try lia; field.
Qed.

Lemma simpson_38_panel (c : list Q) (u h : Q) :
  (length c <= 4)%nat ->
  3 * h * (poly_eval c u + 3 * poly_eval c (u + h) + 3 * poly_eval c (u + 2 * h)
           + poly_eval c (u + 3 * h)) / 8
  == antiderivative c (u + 3 * h) - antiderivative c u.
Proof.
  intros Hc. unfold antiderivative.
  destruct c as [|c0 [|c1 [|c2 [|c3 [|c4 c]]]]]; cbn in *; try lia; field.
Qed.

(** ** The rules on a function that computes a polynomial *)

Section Exactness.

Variables (func : Callable) (c : list Q).

Hypothesis Hf : computes func c.

Variables (qa qb : Q) (n : Z).

Hypothesis Hn : (1 <= n)%Z.

(** The step, the integrand on the grid, the antiderivative on the grid. *)
Let hq : Q := (qb + - qa) / inject_Z n.
Let gq (i : Z) : Q := poly_eval c (qa + inject_Z i * hq).
Let Aq (i : Z) : Q := antiderivative c (qa + inject_Z i * hq).

Lemma grid_call (i : Z) :
  exists v, func (fadd (Fin qa) (fmul (of_int i) (Fin hq))) = Ok (Fin v) /\
            v == gq i.
Proof. apply (Hf (qa + inject_Z i * hq)). Qed.

Lemma grid_first : qa + inject_Z 0 * hq == qa.
Proof. unfold hq. field. apply inject_Z_nonzero. exact Hn. Qed.

Lemma grid_last : qa + inject_Z n * hq == qb.
Proof. unfold hq. field. apply inject_Z_nonzero. exact Hn. Qed.

Lemma grid_shift (i k : Z) :
  qa + inject_Z (i + k) * hq == qa + inject_Z i * hq + inject_Z k * hq.
Proof. rewrite inject_Z_plus. ring. Qed.

Lemma ends_exact :
  Aq n - Aq 0 == poly_integral c qa qb.
Proof.
  unfold Aq, poly_integral, antiderivative. cbv zeta.
  rewrite grid_last, grid_first. reflexivity.
Qed.

Lemma map_result_grid (l : list Z) :
  exists vals,
    map_result func (map (fun i => fadd (Fin qa) (fmul (of_int i) (Fin hq))) l)
    = Ok (map Fin vals) /\
    Forall2 (fun i v => v == gq i) l vals.
Proof.
  induction l as [|i l (vals & Hm & Hall)].
  - exists []. split; [reflexivity | constructor].
  - destruct (grid_call i) as (v & Hv & Ev).
    exists (v :: vals). split; [|constructor; assumption].
    cbn [map map_result]. rewrite Hv. cbn [bind]. rewrite Hm. reflexivity.
Qed.

(** *** Trapezoid *)

Lemma trapezoid_panels (i : Z) :
  (length c <= 2)%nat ->
  hq / 2 * (gq i + gq (i + 1)) == Aq (i + 1) - Aq i.
Proof.
  intros Hc. unfold gq, Aq, antiderivative.
  rewrite !(grid_shift i 1).
  setoid_replace (inject_Z 1 * hq) with hq by ring.
  apply (trapezoid_panel c (qa + inject_Z i * hq) hq Hc).
Qed.

Lemma trapecio_run_exact :
  (length c <= 2)%nat ->
  exists r steps, trapecio_run func (Fin qa) (Fin qb) n = Ok (Fin r, steps) /\
                  r == poly_integral c qa qb.
Proof.
  intros Hc. unfold trapecio_run.
  rewrite (step_width qa qb n Hn). fold hq.
  destruct (Hf qa) as (va & -> & Eva). cbn [bind].
  destruct (Hf qb) as (vb & -> & Evb). cbn [bind].
  match goal with |- context [for_each ?l ?st0 ?body] =>
    assert (Hloop : exists s' r, for_each l st0 body = Ok s' /\ fst s' = Fin r /\
                                 r == 0 + sum_over gq l) end.
  { apply (for_each_sum fst gq); [|reflexivity].
    intros i [sm st] q _ Hs. cbn [fst] in Hs. subst sm.
    destruct (grid_call i) as (v & Hv & Ev). rewrite Hv. cbn [bind].
    eexists. exists v. split; [reflexivity|]. split; [reflexivity | exact Ev]. }
  destruct Hloop as ([sm st] & r & Hfor & Hp & Hr).
  rewrite Hfor. cbn [fst] in Hp. subst sm. cbn [bind].
  fin_arith.
  eexists. eexists. split; [reflexivity|].
  rewrite Hr, Eva, Evb.
  rewrite <- ends_exact.
  pose proof (trapezoid_telescope gq Aq hq (fun i => trapezoid_panels i Hc)
                (Z.to_nat (n - 1))) as Ht.
  replace (Z.of_nat (S (Z.to_nat (n - 1)))) with n in Ht by lia.
  rewrite <- Ht. unfold gq.
  rewrite grid_first, grid_last. field.
Qed.

(** *** Simpson 1/3 *)

Lemma simpson_13_panels (k : Z) :
  (length c <= 4)%nat ->
  hq / 3 * (gq (2 * k) + 4 * gq (2 * k + 1) + gq (2 * k + 2))
  == Aq (2 * (k + 1)) - Aq (2 * k).
Proof.
  intros Hc. unfold gq, Aq, antiderivative.
  replace (2 * (k + 1))%Z with (2 * k + 2)%Z by lia.
  rewrite !(grid_shift (2 * k) 1), !(grid_shift (2 * k) 2).
  setoid_replace (inject_Z 1 * hq) with hq by ring.
  apply (simpson_13_panel c (qa + inject_Z (2 * k) * hq) hq Hc).
Qed.

Lemma zrange_nth (m k : nat) :
  (k < m)%nat -> nth k (zrange 0 (Z.of_nat m)) 0%Z = Z.of_nat k.
Proof.
  intros Hk. unfold zrange.
  replace (Z.to_nat (Z.of_nat m - 0)) with m by lia.
  rewrite (nth_indep _ 0%Z (0 + Z.of_nat 0)%Z)
    by (rewrite length_map, length_seq; exact Hk).
  etransitivity;
    [exact (map_nth (fun j => (0 + Z.of_nat j)%Z) (seq 0 m) 0%nat k)|].
  rewrite seq_nth by exact Hk. reflexivity.
Qed.

Lemma Forall2_nth_rel {A B : Type} (R : A -> B -> Prop) (l : list A) (l' : list B)
  (k : nat) (d : A) (d' : B) :
  Forall2 R l l' -> (k < length l)%nat -> R (nth k l d) (nth k l' d').
Proof.
  intros H. revert k. induction H as [|a b l l' Hab _ IH]; intros k Hk.
  - cbn in Hk. lia.
  - destruct k as [|k]; [exact Hab|]. cbn in *. apply IH. lia.
Qed.

Lemma grid_values_item (vals : list Q) (i : Z) :
  Forall2 (fun i v => v == gq i) (zrange 0 (n + 1)) vals ->
  (0 <= i <= n)%Z ->
  getitem (map Fin vals) (Z.to_nat i) = Ok (Fin (nth (Z.to_nat i) vals 0)) /\
  nth (Z.to_nat i) vals 0 == gq i.
Proof.
  intros Hall Hi.
  assert (Hlen : length vals = Z.to_nat (n + 1)).
  { rewrite <- (Forall2_length Hall), zrange_length. f_equal. lia. }
  split.
  - rewrite (getitem_nth _ _ (Fin 0)) by (rewrite length_map; lia).
    now rewrite map_nth.
  - pose proof (Forall2_nth_rel _ _ _ (Z.to_nat i) 0%Z 0 Hall) as Hk.
    cbv beta in Hk.
    assert (Hz : nth (Z.to_nat i) (zrange 0 (n + 1)) 0%Z = i).
    { replace (n + 1)%Z with (Z.of_nat (Z.to_nat (n + 1))) by lia.
      rewrite zrange_nth by lia. lia. }
    rewrite Hz in Hk.
    apply Hk. rewrite zrange_length. lia.
Qed.

Lemma sum_at_grid (vals : list Q) (idxs : list Z) :
  Forall2 (fun i v => v == gq i) (zrange 0 (n + 1)) vals ->
  (forall i, In i idxs -> (0 <= i <= n)%Z) ->
  exists r, sum_at (map Fin vals) idxs = Ok (Fin r) /\ r == sum_over gq idxs.
Proof.
  intros Hall Hin. unfold sum_at.
  match goal with |- context [for_each ?l ?st0 ?body] =>
    assert (Hloop : exists s' r, for_each l st0 body = Ok s' /\ s' = Fin r /\
                                 r == 0 + sum_over gq l) end.
  { apply (for_each_sum (fun v : pyfloat => v) gq); [|reflexivity].
    intros i s q Hi ->.
    destruct (grid_values_item vals i Hall (Hin i Hi)) as [Hg Ev].
    rewrite Hg. cbn [bind]. eexists. eexists.
    split; [reflexivity|]. split; [reflexivity | exact Ev]. }
  destruct Hloop as (s' & r & Hfor & Hp & Hr).
  subst s'. exists r. split; [exact Hfor|]. rewrite Hr. ring.
Qed.

Lemma simpson_13_run_exact (m : nat) :
  n = (2 * Z.of_nat (S m))%Z -> (length c <= 4)%nat ->
  exists r steps, simpson_13_run func (Fin qa) (Fin qb) n = Ok (Fin r, steps) /\
                  r == poly_integral c qa qb.
Proof.
  intros Hm Hc. unfold simpson_13_run.
  rewrite (step_width qa qb n Hn). fold hq.
  destruct (map_result_grid (zrange 0 (n + 1))) as (vals & -> & Hall).
  cbn [bind].
  destruct (sum_at_grid vals (zrange_step 1 n 2) Hall) as (so & -> & Eso).
  { intros i Hi. apply in_zrange_step in Hi; lia. }
  destruct (sum_at_grid vals (zrange_step 2 n 2) Hall) as (se & -> & Ese).
  { intros i Hi. apply in_zrange_step in Hi; lia. }
  cbn [bind].
  destruct (grid_values_item vals 0 Hall ltac:(lia)) as [H0 E0].
  destruct (grid_values_item vals n Hall ltac:(lia)) as [Hl El].
  change (Z.to_nat 0) with 0%nat in H0, E0.
  rewrite H0, Hl. cbn [bind]. cbv zeta. cbn [bind].
  fin_arith.
  eexists. eexists. split; [reflexivity|].
  rewrite Eso, Ese, E0, El.
  rewrite <- ends_exact.
  pose proof (simpson_13_telescope gq (fun k => Aq (2 * k)) hq
                (fun k => simpson_13_panels k Hc) m) as Ht.
  cbv beta in Ht. rewrite <- !sum_over_map_seq in Ht.
  rewrite <- zrange_step_odd, <- zrange_step_even in Ht.
  rewrite <- Hm in Ht.
  change (2 * 0)%Z with 0%Z in Ht. rewrite <- Ht. field.
Qed.

(** *** Simpson 3/8 *)

Lemma simpson_38_panels (k : Z) :
  (length c <= 4)%nat ->
  3 * hq * (gq (3 * k) + 3 * gq (3 * k + 1) + 3 * gq (3 * k + 2)
            + gq (3 * k + 3)) / 8
  == Aq (3 * (k + 1)) - Aq (3 * k).
Proof.
  intros Hc. unfold gq, Aq, antiderivative.
  replace (3 * (k + 1))%Z with (3 * k + 3)%Z by lia.
  rewrite !(grid_shift (3 * k) 1), !(grid_shift (3 * k) 2), !(grid_shift (3 * k) 3).
  setoid_replace (inject_Z 1 * hq) with hq by ring.
  apply (simpson_38_panel c (qa + inject_Z (3 * k) * hq) hq Hc).
Qed.

Lemma simpson_38_run_exact (m : nat) :
  n = (3 * Z.of_nat (S m))%Z -> (length c <= 4)%nat ->
  exists r steps, simpson_38_run func (Fin qa) (Fin qb) n = Ok (Fin r, steps) /\
                  r == poly_integral c qa qb.
Proof.
  intros Hm Hc. unfold simpson_38_run.
  rewrite (step_width qa qb n Hn). fold hq.
  destruct (Hf qa) as (va & -> & Eva). cbn [bind].
  destruct (Hf qb) as (vb & -> & Evb). cbn [bind].
  rewrite fadd_Fin.
  set (w38 := fun i : Z => if (i mod 3 =? 0)%Z then 2 * gq i else 3 * gq i).
  match goal with |- context [for_each ?l ?st0 ?body] =>
    assert (Hloop : exists s' r, for_each l st0 body = Ok s' /\ s' = Fin r /\
                                 r == (va + vb) + sum_over w38 l) end.
  { apply (for_each_sum (fun v : pyfloat => v) w38); [|reflexivity].
    intros i s q _ ->.
    destruct (grid_call i) as (v & Hv & Ev). rewrite Hv. cbn [bind].
    unfold w38. destruct (i mod 3 =? 0)%Z.
    - eexists. exists (2 * v). split; [reflexivity|]. split; [reflexivity|].
      rewrite Ev. reflexivity.
    - eexists. exists (3 * v). split; [reflexivity|]. split; [reflexivity|].
      rewrite Ev. reflexivity. }
  destruct Hloop as (s' & r & Hfor & Hp & Hr).
  subst s'. rewrite Hfor. cbn [bind].
  fin_arith.
  eexists. eexists. split; [reflexivity|].
  rewrite Hr, Eva, Evb.
  rewrite <- ends_exact.
  pose proof (simpson_38_telescope gq (fun k => Aq (3 * k)) hq w38
                (fun i => eq_refl) (fun k => simpson_38_panels k Hc) m) as Ht.
  cbv beta in Ht. rewrite <- Hm in Ht.
  change (3 * 0)%Z with 0%Z in Ht. rewrite <- Ht. unfold gq at 1 2.
  rewrite grid_first, grid_last. field.
Qed.

End Exactness.

(** ** The counts in use *)

Lemma simpson_13_adjust_even (n : Z) :
  (1 <= n)%Z -> exists m, simpson_13_adjust n = (2 * Z.of_nat (S m))%Z.
Proof.
  intros Hn. rewrite simpson_13_adjust_spec.
  destruct (Z.odd n) eqn:Ho.
  - exists (Z.to_nat ((n + 1) / 2 - 1)).
    pose proof (Zodd_bool_iff n) as H. apply H in Ho.
    destruct (Zodd_ex _ Ho) as (k & ->).
    replace ((2 * k + 1 + 1) / 2)%Z with (k + 1)%Z
      by (apply Z.div_unique with 0%Z; lia).
    lia.
  - exists (Z.to_nat (n / 2 - 1)).
    assert (He : Z.even n = true) by (rewrite <- Z.negb_odd, Ho; reflexivity).
    apply Z.even_spec in He. destruct He as (k & ->).
    replace (2 * k / 2)%Z with k by (apply Z.div_unique with 0%Z; lia).
    lia.
Qed.

Lemma simpson_38_adjust_triple (n : Z) :
  (1 <= n)%Z -> exists m, simpson_38_adjust n = (3 * Z.of_nat (S m))%Z.
Proof.
  intros Hn. destruct (simpson_38_adjust_least n) as (Hmod & Hle & _).
  exists (Z.to_nat (simpson_38_adjust n / 3 - 1)).
  pose proof (Z.div_mod (simpson_38_adjust n) 3 ltac:(lia)) as Hd.
  lia.
Qed.

Section Routines.

Variable sl : string -> result Callable.
Variables (func_str : string) (func : Callable) (c : list Q).

Hypothesis Hparse : _parse_function sl func_str = Ok func.
Hypothesis Hf : computes func c.

Variables (qa qb : Q) (n : Z).

Hypothesis Hab : qa < qb.
Hypothesis Hn : (1 <= n <= 10000)%Z.




End Routines.


Lemma func_id_computes : computes func_id [0; 1].
Proof. intros q. exists q. split; [reflexivity|]. cbn. ring. Qed.

Lemma func_id_parses : _parse_function (parser_of func_id) "x" = Ok func_id.
Proof. apply (parser_of_parses func_id "x" (Fin 1)); reflexivity. Qed.





(** ** The trace *)

Lemma for_each_trace {I A T : Type} (p : I -> bool) (l : list I)
  (body : I -> A * list T -> result (A * list T)) :
  (forall i a st a' st', body i (a, st) = Ok (a', st') ->
     length st' = (length st + (if p i then 1 else 0))%nat) ->
  forall a st a' st', for_each l (a, st) body = Ok (a', st') ->
    length st' = (length st + length (filter p l))%nat.
Proof.
  intros Hb. induction l as [|i l IH]; intros a st a' st' H.
  - cbn in H. injection H as <- <-. cbn. lia.
  - cbn [for_each] in H.
    destruct (body i (a, st)) as [[a1 st1]|e] eqn:Hi; [|discriminate].
    cbn [bind] in H. apply IH in H. apply Hb in Hi.
    cbn [filter]. destruct (p i); cbn [length] in *; lia.
Qed.

Lemma filter_low_count (a n bound : Z) :
  (a <= n)%Z ->
  length (filter (fun i => (i <? bound)%Z) (zrange a n))
  = Z.to_nat (Z.min (n - a) (bound - a)).
Proof.
  intros Han.
  replace n with (a + Z.of_nat (Z.to_nat (n - a)))%Z by lia.
  generalize (Z.to_nat (n - a)) as m. clear n Han.
  induction m as [|m IH].
  - rewrite Z.add_0_r, zrange_nil. cbn. lia.
  - replace (a + Z.of_nat (S m))%Z with (a + Z.of_nat m + 1)%Z by lia.
    rewrite zrange_snoc by lia. rewrite filter_app, length_app, IH.
    cbn [filter]. destruct (Z.ltb_spec (a + Z.of_nat m) bound); cbn [length]; lia.
Qed.

(** X21. What the caller gets besides the number.  Whenever an
    integration routine returns, the last record of its trace carries
    the value returned, and the trace stays short whatever the count:
    [trapecio_compuesto] records the first min(n-1, 5) interior points
    (3 + min(n-1, 5) records), the Simpson routines two records, the
    first with the count in use, and [gauss_legendre] the first
    min(n, 5) nodes (2 + min(n, 5) records, n capped at 10). *)
Theorem integration_trace_shape (sl : string -> result Callable)
  (lg : Z -> list Q * list Q) (func_str : string) (a b : pyfloat) (n : Z)
  (r : pyfloat) (steps : list step) :
  (trapecio_compuesto sl func_str a b n = Ok (r, steps) ->
   length steps = (3 + Z.to_nat (Z.min (n - 1) 5))%nat /\
   exists init f, steps = init ++ [StepTrapResult DescTrapecio f r]) /\
  (simpson_13_compuesto sl func_str a b n = Ok (r, steps) ->
   exists d fa fb so se,
     steps = [StepAdjusted (LInt 1) d (simpson_13_adjust n);
              StepCalculation fa fb so se r]) /\
  (simpson_38_compuesto sl func_str a b n = Ok (r, steps) ->
   exists d,
     steps = [StepAdjusted (LInt 1) d (simpson_38_adjust n);
              StepResult DescSimpson38 r]) /\
  (gauss_legendre sl lg func_str a b n = Ok (r, steps) ->
   length steps = (2 + Z.to_nat (Z.min (gauss_clamp n) 5))%nat /\
   exists init, steps = init ++ [StepResult DescGaussResult r]).
Proof.
  split; [|split; [|split]].
  - unfold trapecio_compuesto.
    destruct (_validate_integration_params a b n) as [[]|e] eqn:Hv; [|discriminate].
    destruct (validate_integration_ok a b n Hv) as (qa & qb & _ & _ & _ & Hn).
    cbn [bind]. destruct (_parse_function sl func_str) as [func|e]; [|discriminate].
    cbn [bind]. unfold trapecio_run.
    destruct (func a) as [fa|e]; [|discriminate]. cbn [bind].
    destruct (func b) as [fb|e]; [|discriminate]. cbn [bind].
    match goal with |- context [for_each ?l ?s0 ?body] =>
      destruct (for_each l s0 body) as [[sm st]|e] eqn:Hfor; [|discriminate];
      pose proof (for_each_trace (fun i => (i <? 6)%Z) l body) as Ht end.
    cbn [bind]. intros [= <- <-].
    split; [|eexists; eexists; reflexivity].
    rewrite !length_app. cbn [length].
    erewrite Ht; [|clear Hfor|exact Hfor].
    + rewrite (filter_low_count 1 n 6) by lia. cbn [length]. lia.
    + intros i s0 st0 a' st' H.
      destruct (func _) as [fxi|e]; [|discriminate]. cbn [bind] in H.
      injection H as _ <-.
      replace (i <=? 5)%Z with (i <? 6)%Z
        by (destruct (Z.ltb_spec i 6), (Z.leb_spec i 5); (reflexivity || lia)).
      destruct (i <? 6)%Z; [rewrite length_app; cbn [length]; lia | lia].
  - unfold simpson_13_compuesto.
    destruct (_validate_integration_params a b n) as [[]|e]; [|discriminate].
    cbn [bind]. destruct (_parse_function sl func_str) as [func|e]; [|discriminate].
    cbn [bind]. unfold simpson_13_run.
    destruct (map_result func _) as [f_vals|e]; [|discriminate]. cbn [bind].
    destruct (sum_at f_vals (zrange_step 1 _ 2)) as [so|e]; [|discriminate].
    cbn [bind].
    destruct (sum_at f_vals (zrange_step 2 _ 2)) as [se|e]; [|discriminate].
    cbn [bind].
    destruct (getitem f_vals 0) as [f0|e]; [|discriminate]. cbn [bind].
    destruct (getitem f_vals (Z.to_nat _)) as [fn|e]; [|discriminate]. cbn [bind].
    intros [= <- <-]. repeat eexists.
  - unfold simpson_38_compuesto.
    destruct (_validate_integration_params a b n) as [[]|e]; [|discriminate].
    cbn [bind]. destruct (_parse_function sl func_str) as [func|e]; [|discriminate].
    cbn [bind]. unfold simpson_38_run.
    destruct (func a) as [fa|e]; [|discriminate]. cbn [bind].
    destruct (func b) as [fb|e]; [|discriminate]. cbn [bind].
    destruct (for_each _ _ _) as [tot|e]; [|discriminate]. cbn [bind].
    intros [= <- <-]. eexists. reflexivity.
  - unfold gauss_legendre.
    destruct (_validate_integration_params a b n) as [[]|e] eqn:Hv; [|discriminate].
    destruct (validate_integration_ok a b n Hv) as (qa & qb & _ & _ & _ & Hn).
    cbn [bind]. destruct (_parse_function sl func_str) as [func|e]; [|discriminate].
    cbn [bind]. unfold gauss_run.
    destruct (match gauss_data (gauss_clamp n) with
              | Some nw => nw
              | None => lg (gauss_clamp n)
              end) as [nodes weights].
    match goal with |- context [for_each ?l ?s0 ?body] =>
      destruct (for_each l s0 body) as [[sm st]|e] eqn:Hfor; [|discriminate];
      pose proof (for_each_trace (fun i => (i <? 5)%Z) l body) as Ht end.
    cbn [bind]. intros [= <- <-].
    split; [|eexists; reflexivity].
    rewrite !length_app. cbn [length].
    erewrite Ht; [|clear Hfor|exact Hfor].
    + assert (Hc : (0 <= gauss_clamp n)%Z)
        by (unfold gauss_clamp; destruct (n >? 10)%Z; lia).
      rewrite (filter_low_count 0 (gauss_clamp n) 5) by exact Hc.
      cbn [length]. rewrite !Z.sub_0_r. lia.
    + intros i s0 st0 a' st' H.
      destruct (getitem _ (Z.to_nat i)) as [xi|e]; [|discriminate]. cbn [bind] in H.
      destruct (func xi) as [fxi|e]; [|discriminate]. cbn [bind] in H.
      destruct (getitem _ (Z.to_nat i)) as [w|e]; [|discriminate]. cbn [bind] in H.
      injection H as _ <-.
      destruct (i <? 5)%Z; [rewrite length_app; cbn [length]; lia | lia].
Qed.

(** X22. [gauss_legendre] never uses more than 10 nodes: a request for
    11 to 10000 nodes gives exactly the outcome of a request for 10
    (value, trace and errors alike). *)
Theorem gauss_legendre_caps_nodes (sl : string -> result Callable)
  (lg : Z -> list Q * list Q) (func_str : string) (a b : pyfloat) (n : Z) :
  (10 < n <= 10000)%Z ->
  gauss_legendre sl lg func_str a b n = gauss_legendre sl lg func_str a b 10.
Proof.
  intros Hn. unfold gauss_legendre.
  assert (Hv : _validate_integration_params a b n
               = _validate_integration_params a b 10).
  { unfold _validate_integration_params.
    destruct (np_isnan a || np_isinf a); [reflexivity|].
    destruct (np_isnan b || np_isinf b); [reflexivity|].
    destruct (fge a b); [reflexivity|].
    destruct (Z.ltb_spec n 1); [lia|].
    destruct (n >? 10000)%Z eqn:Hgt; [apply Z.gtb_lt in Hgt; lia | reflexivity]. }
  rewrite Hv.
  assert (Hc : gauss_clamp n = gauss_clamp 10).
  { unfold gauss_clamp. destruct (n >? 10)%Z eqn:Hgt; [reflexivity|].
    rewrite Z.gtb_ltb in Hgt. apply Z.ltb_ge in Hgt. lia. }
  rewrite Hc. reflexivity.
Qed.

Lemma gauss_legendre_caps_nodes_witness :
  (10 < 64 <= 10000)%Z /\
  gauss_legendre (parser_of func_id) leggauss_zeros "x" (Fin 0) (Fin 1) 64
  = gauss_legendre (parser_of func_id) leggauss_zeros "x" (Fin 0) (Fin 1) 10.
Proof.
  assert (Hn : (10 < 64 <= 10000)%Z) by lia.
  split; [exact Hn|].
  apply (gauss_legendre_caps_nodes (parser_of func_id) leggauss_zeros "x"
           (Fin 0) (Fin 1) 64 Hn).
Defined.

End Quadrature.

(* ================================================================== *)
(** * Finite differences: acceptance, exactness, comparison            *)
(* ================================================================== *)

Module FiniteDifferences.

Import Derivacion Props DiffCheck LinearNodes Quadrature.

(** X23. [_validate_derivative_params] accepts exactly a finite point,
    a finite step with 1e-12 <= h <= 1 and an order between 1 and 4;
    every rejection is a [ValueError]. *)
Theorem validate_derivative_accepts_iff (x h : pyfloat) (order : Z) :
  (_validate_derivative_params x h order = Ok tt <->
   exists qx qh, x = Fin qx /\ h = Fin qh /\ 1e-12 <= qh /\ qh <= 1 /\
                 (1 <= order <= 4)%Z) /\
  (forall e, _validate_derivative_params x h order = Err e ->
             exists m, e = ValueError m).
Proof.
  split; [split|].
  - unfold _validate_derivative_params.
    destruct x as [qx| | |]; simpl; try discriminate.
    destruct h as [qh| | |]; simpl; try discriminate.
    destruct (Qle_bool qh 0) eqn:H0; simpl; [discriminate|].
    unfold fgt, flt, Qlt_bool.
    destruct (Qle_bool qh 1) eqn:H1; simpl; [|discriminate].
    destruct (Qle_bool 1e-12 qh) eqn:H2; simpl; [|discriminate].
    destruct (Z.ltb_spec order 1); simpl; [discriminate|].
    destruct (order >? 4)%Z eqn:H4; [discriminate|].
    intros _. exists qx, qh.
    split; [reflexivity|]. split; [reflexivity|].
    split; [apply Qle_bool_iff; exact H2|].
    split; [apply Qle_bool_iff; exact H1|].
    rewrite Z.gtb_ltb in H4. apply Z.ltb_ge in H4. lia.
  - intros (qx & qh & -> & -> & Hlo & Hhi & Ho).
    unfold _validate_derivative_params. simpl.
    assert (Hpos : 0 < qh).
    { apply Qlt_le_trans with 1e-12; [reflexivity | exact Hlo]. }
    rewrite (Qle_bool_false qh 0 Hpos). simpl.
    unfold fgt, flt, Qlt_bool.
    rewrite (Qle_bool_true qh 1 Hhi), (Qle_bool_true 1e-12 qh Hlo). simpl.
    destruct (Z.ltb_spec order 1); [lia|].
    destruct (order >? 4)%Z eqn:H4; [apply Z.gtb_lt in H4; lia | reflexivity].
  - intros e. unfold _validate_derivative_params.
    repeat match goal with
           | |- (if ?c then _ else _) = _ -> _ => destruct c
           end; intros [= <-] || discriminate; eauto.
Qed.

(** ** Arithmetic on the stencils *)

Lemma fdiv_Fin_nz (p q : Q) : ~ q == 0 -> fdiv (Fin p) (Fin q) = Fin (p / q).
Proof.
  intros Hq. apply fdiv_Fin. destruct (Qeq_bool q 0) eqn:E; [|reflexivity].
  apply Qeq_bool_iff in E. contradiction.
Qed.

Ltac kill_zero E :=
  first [ apply Qmult_integral in E; destruct E as [E|E]; kill_zero E
        | lra
        | exfalso; revert E; unfold inject_Z, Qeq; cbn; lia ].

Ltac nz := let E := fresh "E" in intros E; kill_zero E.

(** Puts the arguments and the values of a stencil in the form [Fin _]. *)
Ltac fin_norm :=
  unfold times, of_int, fsub, fneg;
  repeat first [ rewrite fmul_Fin | rewrite fadd_Fin ].

(** Calls the function at each of its points, in the order of the code. *)
Ltac call_poly Hf :=
  repeat match goal with
         | |- context [bind (?func (Fin ?p)) _] =>
             let v := fresh "v" in
             let Hv := fresh "Hv" in
             let E := fresh "Ev" in
             destruct (Hf p) as (v & Hv & E); rewrite Hv; cbn [bind]
         end.

Ltac use_values :=
  repeat match goal with
         | E : ?v == poly_eval _ _ |- _ => rewrite E; clear E
         end.

Ltac order_nat :=
  unfold poly_derivative;
  match goal with
  | |- context [Z.to_nat ?k] =>
      let n := eval vm_compute in (Z.to_nat k) in
      change (Z.to_nat k) with n
  end.

Ltac poly_cases c Hc tac :=
  first [ solve [exfalso; cbn [length] in Hc; lia]
        | destruct c as [|? c]; [tac | poly_cases c Hc tac] ].

Ltac stencil_value Hf Hpos :=
  cbn [Z.eqb Pos.eqb]; fin_norm;
  call_poly Hf;
  cbn [bind try_except];
  change (fpow ?a 2) with (fmul a a);
  change (fpow ?a 3) with (fmul (fmul a a) a);
  change (fpow ?a 4) with (fmul (fmul (fmul a a) a) a);
  fin_norm;
  rewrite fdiv_Fin_nz by nz;
  cbn [check_result np_isnan np_isinf orb try_except bind];
  eexists; eexists; split; [reflexivity|].

Section Exactness.

Variable sl : string -> result Callable.
Variables (func_str : string) (func : Callable) (c : list Q).

Hypothesis Hparse : _parse_function sl func_str = Ok func.
Hypothesis Hf : computes func c.

Variables (qx qh : Q) (order : Z).

Hypothesis Hv : _validate_derivative_params (Fin qx) (Fin qh) order = Ok tt.

Lemma accepted_step : 0 < qh /\ (order = 1 \/ order = 2 \/ order = 3 \/ order = 4)%Z.
Proof.
  destruct (validate_derivative_ok _ _ _ Hv)
    as (qx' & qh' & [= <-] & [= <-] & Hpos & _ & Ho).
  split; assumption.
Qed.




End Exactness.

Lemma half_step_accepted :
  _validate_derivative_params (Fin 0) (Fin (1 # 2)) 1 = Ok tt.
Proof. reflexivity. Qed.




(** ** Errors *)

Lemma validate_derivative_error (x h : pyfloat) (order : Z) (e : exn) :
  _validate_derivative_params x h order = Err e -> exists m, e = ValueError m.
Proof.
  unfold _validate_derivative_params.
  repeat match goal with
         | |- (if ?c then _ else _) = _ -> _ => destruct c
         end; intros [= <-] || discriminate; eauto.
Qed.

Lemma parse_function_error (sl : string -> result Callable) (func_str : string)
  (e : exn) :
  parse_function_body sl func_str = Err e -> exists m, e = ValueError m.
Proof.
  unfold parse_function_body, try_except.
  destruct (string_is_empty func_str || string_is_empty (py_strip func_str));
    [intros [= <-]; eauto|].
  destruct (bind _ _); [discriminate | intros [= <-]; eauto].
Qed.

Lemma diff_errors_value (sl : string -> result Callable)
  (func_str : string) (x h : pyfloat) (order : Z) (e : exn) :
  diff_adelante sl func_str x h order = Err e \/
  diff_atras sl func_str x h order = Err e \/
  diff_centrada sl func_str x h order = Err e ->
  exists m, e = ValueError m.
Proof.
  unfold diff_adelante, diff_atras, diff_centrada, _parse_function, try_except.
  destruct (_validate_derivative_params x h order) as [[]|e0] eqn:Hv.
  - cbn [bind].
    destruct (parse_function_body sl func_str) as [func|e1] eqn:Hp.
    + cbn [bind]. intros [H|[H|H]];
        match type of H with
        | match ?b with _ => _ end = _ =>
            destruct b; [discriminate | injection H as <-; eauto]
        end.
    + cbn [bind]. intros [[= <-]|[[= <-]|[= <-]]];
        apply (parse_function_error sl func_str e1 Hp).
  - cbn [bind]. intros [[= <-]|[[= <-]|[= <-]]];
      apply (validate_derivative_error x h order e0 Hv).
Qed.

(** X27. The three finite-difference routines raise nothing but
    [ValueError]: whatever fails (a parameter, the parser, sympy, the
    function at one of the stencil points, the value computed), the
    caller sees a [ValueError]. *)
Theorem diff_errors_are_value_errors (sl : string -> result Callable)
  (func_str : string) (x h : pyfloat) (order : Z) (e : exn) :
  diff_adelante sl func_str x h order = Err e \/
  diff_atras sl func_str x h order = Err e \/
  diff_centrada sl func_str x h order = Err e ->
  exists m, e = ValueError m.
Proof. apply diff_errors_value. Qed.

Lemma diff_errors_are_value_errors_witness :
  (diff_adelante (parser_of func_id) "x" (Fin 0) (Fin 0) 1
   = Err (ValueError (MsgStepNotPositive (Fin 0))) \/
   diff_atras (parser_of func_id) "x" (Fin 0) (Fin 0) 1
   = Err (ValueError (MsgStepNotPositive (Fin 0))) \/
   diff_centrada (parser_of func_id) "x" (Fin 0) (Fin 0) 1
   = Err (ValueError (MsgStepNotPositive (Fin 0)))) /\
  exists m, ValueError (MsgStepNotPositive (Fin 0)) = ValueError m.
Proof.
  assert (H : diff_adelante (parser_of func_id) "x" (Fin 0) (Fin 0) 1
              = Err (ValueError (MsgStepNotPositive (Fin 0))) \/
              diff_atras (parser_of func_id) "x" (Fin 0) (Fin 0) 1
              = Err (ValueError (MsgStepNotPositive (Fin 0))) \/
              diff_centrada (parser_of func_id) "x" (Fin 0) (Fin 0) 1
              = Err (ValueError (MsgStepNotPositive (Fin 0))))
    by (left; reflexivity).
  split; [exact H|].
  apply (diff_errors_are_value_errors (parser_of func_id) "x" (Fin 0) (Fin 0) 1 _ H).
Defined.

(** ** The three first-order formulas *)

Lemma positive_step (qh : Q) :
  0 < qh -> Qeq_bool qh 0 = false /\ (qh ?= 0) = Gt.
Proof.
  intros Hpos. split.
  - destruct (Qeq_bool qh 0) eqn:E; [|reflexivity].
    apply Qeq_bool_iff in E. lra.
  - apply Qgt_alt. exact Hpos.
Qed.

(** A quotient by a positive step is finite only when both values are. *)
Lemma finite_quotient (u w : pyfloat) (qh : Q) (d : pyfloat) (f f' : string)
  (m : diff_method) :
  0 < qh ->
  try_except (check_result (Some (fdiv (fsub u w) (Fin qh), f)))
             (fun e => ValueError (MsgDerivError m e)) = Ok (d, f') ->
  exists a b, u = Fin a /\ w = Fin b /\ d = Fin ((a + - b) / qh).
Proof.
  intros Hpos. destruct (positive_step qh Hpos) as [H0 Hc].
  destruct u as [a| | |], w as [b| | |]; cbn; unfold fdiv;
    rewrite ?H0; unfold signed_inf; rewrite ?Hc; cbn; try discriminate.
  intros [= <- _]. eauto.
Qed.



(** ** Comparing the three routines *)

Lemma Qlt_bool_iff (a b : Q) : Qlt_bool a b = true <-> a < b.
Proof.
  unfold Qlt_bool. rewrite negb_true_iff. split.
  - intros H. apply Qnot_le_lt. intros Hc. apply Qle_bool_iff in Hc. congruence.
  - intros H. destruct (Qle_bool b a) eqn:E; [|reflexivity].
    apply Qle_bool_iff in E. lra.
Qed.

Lemma flt_irrefl (a : pyfloat) : flt a a = false.
Proof.
  destruct a as [q| | |]; cbn; try reflexivity.
  destruct (Qlt_bool q q) eqn:E; [|reflexivity].
  apply Qlt_bool_iff in E. lra.
Qed.

Lemma flt_asym (a b : pyfloat) : flt a b = true -> flt b a = false.
Proof.
  destruct a as [p| | |], b as [q| | |]; cbn; try reflexivity; try discriminate.
  intros H. apply Qlt_bool_iff in H.
  destruct (Qlt_bool q p) eqn:E; [|reflexivity].
  apply Qlt_bool_iff in E. lra.
Qed.

Lemma flt_trans (a b c : pyfloat) :
  flt a b = true -> flt b c = true -> flt a c = true.
Proof.
  destruct a as [p| | |], b as [q| | |], c as [r| | |]; cbn;
    try reflexivity; try discriminate.
  intros H1 H2. apply Qlt_bool_iff in H1, H2. apply Qlt_bool_iff. lra.
Qed.

Section Compare.

Variable sl : string -> result Callable.
Variable sympy_exact : string -> Z -> pyfloat -> result pyfloat.

Variables (func_str : string) (x h : pyfloat) (order : Z).

(** X29. What [compare_methods] reports when it returns.  Without an
    exact derivative (sympy failed on it) the result holds neither
    errors nor a best method.  With one, the errors are the absolute
    differences to it and the best method is one of the three whose
    error no other method's error is smaller than. *)
Theorem compare_methods_best_is_least (c : comparison) :
  compare_methods sl sympy_exact func_str x h order = Ok c ->
  match exact c with
  | None => errors c = None /\ best_method c = None
  | Some ex =>
      exists errs m,
        errors c = Some errs /\
        errs = [("adelante"%string, fabs (fsub (adelante c) ex));
                ("atras"%string, fabs (fsub (atras c) ex));
                ("centrada"%string, fabs (fsub (centrada c) ex))] /\
        best_method c = Some m /\ In m (map fst errs) /\
        forall k, In k (map fst errs) ->
                  flt (dict_get errs k) (dict_get errs m) = false
  end.
Proof.
  unfold compare_methods, try_except.
  destruct (diff_adelante sl func_str x h order) as [[da fa]|e]; [|discriminate].
  destruct (diff_atras sl func_str x h order) as [[db fb]|e]; [|discriminate].
  destruct (diff_centrada sl func_str x h order) as [[dc fc]|e]; [|discriminate].
  cbn [bind fst].
  destruct (sympy_exact (replace_caret func_str) order x) as [ex|e];
    intros [= <-]; cbn [exact errors best_method adelante atras centrada];
    [|split; reflexivity].
  set (ea := fabs (fsub da ex)). set (eb := fabs (fsub db ex)).
  set (ec := fabs (fsub dc ex)).
  exists [("adelante"%string, ea); ("atras"%string, eb); ("centrada"%string, ec)].
  cbn [map fst py_min py_min_from dict_get String.eqb Ascii.eqb Bool.eqb].
  destruct (flt eb ea) eqn:Hba; destruct (flt ec _) eqn:Hc;
    eexists; (split; [reflexivity|]); (split; [reflexivity|]);
    (split; [reflexivity|]); (split; [cbn; tauto|]);
    intros k [<-|[<-|[<-|[]]]];
    cbn [dict_get String.eqb Ascii.eqb Bool.eqb];
    try apply flt_irrefl; try assumption;
    try (apply flt_asym; assumption).
  - apply flt_asym. apply (flt_trans _ eb); assumption.
  - destruct (flt eb ec) eqn:E; [|reflexivity].
    rewrite (flt_trans _ _ _ E Hc) in Hba. discriminate.
Qed.

(** X30. When [compare_methods] returns and when it fails.  It returns
    exactly when the three routines return, whether or not sympy can
    produce the exact derivative, and carries their three values; when
    one of them fails it raises "Error en comparación de métodos"
    around the (already wrapped) [ValueError] of the first that failed,
    in the order adelante, atras, centrada. *)
Theorem compare_methods_outcome :
  (forall c, compare_methods sl sympy_exact func_str x h order = Ok c ->
     exists fa fb fc,
       diff_adelante sl func_str x h order = Ok (adelante c, fa) /\
       diff_atras sl func_str x h order = Ok (atras c, fb) /\
       diff_centrada sl func_str x h order = Ok (centrada c, fc)) /\
  (forall ra rb rc,
     diff_adelante sl func_str x h order = Ok ra ->
     diff_atras sl func_str x h order = Ok rb ->
     diff_centrada sl func_str x h order = Ok rc ->
     exists c, compare_methods sl sympy_exact func_str x h order = Ok c) /\
  (forall e, compare_methods sl sympy_exact func_str x h order = Err e ->
     exists m,
       e = ValueError (MsgCompareError (ValueError m)) /\
       (diff_adelante sl func_str x h order = Err (ValueError m) \/
        (diff_adelante sl func_str x h order <> Err (ValueError m) /\
         exists ra, diff_adelante sl func_str x h order = Ok ra /\
           (diff_atras sl func_str x h order = Err (ValueError m) \/
            exists rb, diff_atras sl func_str x h order = Ok rb /\
              diff_centrada sl func_str x h order = Err (ValueError m))))).
Proof.
  unfold compare_methods, try_except.
  destruct (diff_adelante sl func_str x h order) as [[da fa]|ea] eqn:Ha.
  - destruct (diff_atras sl func_str x h order) as [[db fb]|eb] eqn:Hb.
    + destruct (diff_centrada sl func_str x h order) as [[dc fc]|ec] eqn:Hc.
      * cbn [bind fst].
        destruct (sympy_exact (replace_caret func_str) order x) as [ex|e].
        -- split; [|split].
           ++ intros c [= <-]. cbn [adelante atras centrada].
              do 3 eexists. repeat split; reflexivity.
           ++ intros; eauto.
           ++ discriminate.
        -- split; [|split].
           ++ intros c [= <-]. cbn [adelante atras centrada].
              do 3 eexists. repeat split; reflexivity.
           ++ intros; eauto.
           ++ discriminate.
      * cbn [bind]. split; [discriminate|]. split; [discriminate|].
        intros e [= <-].
        destruct (diff_errors_value sl func_str x h order ec (or_intror (or_intror Hc)))
          as (m & ->).
        exists m. split; [reflexivity|]. right. split; [discriminate|].
        eexists. split; [reflexivity|]. right. eexists. split; reflexivity.
    + cbn [bind]. split; [discriminate|]. split; [discriminate|].
      intros e [= <-].
      destruct (diff_errors_value sl func_str x h order eb (or_intror (or_introl Hb)))
        as (m & ->).
      exists m. split; [reflexivity|]. right. split; [discriminate|].
      eexists. split; [reflexivity|]. left. reflexivity.
  - cbn [bind]. split; [discriminate|]. split; [discriminate|].
    intros e [= <-].
    destruct (diff_errors_value sl func_str x h order ea (or_introl Ha)) as (m & ->).
    exists m. split; [reflexivity|]. left. reflexivity.
Qed.

End Compare.

Lemma compare_methods_best_is_least_witness :
  exists c,
    compare_methods (parser_of func_id) exact_one "x" (Fin 0) (Fin (1 # 2)) 1 = Ok c /\
    match exact c with
    | None => errors c = None /\ best_method c = None
    | Some ex =>
        exists errs m,
          errors c = Some errs /\
          errs = [("adelante"%string, fabs (fsub (adelante c) ex));
                  ("atras"%string, fabs (fsub (atras c) ex));
                  ("centrada"%string, fabs (fsub (centrada c) ex))] /\
          best_method c = Some m /\ In m (map fst errs) /\
          forall k, In k (map fst errs) ->
                    flt (dict_get errs k) (dict_get errs m) = false
    end.
Proof.
  eexists. split; [vm_compute; reflexivity|].
  apply (compare_methods_best_is_least (parser_of func_id) exact_one "x"
           (Fin 0) (Fin (1 # 2)) 1).
  vm_compute. reflexivity.
Defined.

End FiniteDifferences.
